(** * FloorModeAnime: parser, validator and animation controller

    A shallow embedding of [parser.js], [validator.js], [animation.js] and
    of what [viewer.js] computes from the data.

    JavaScript numbers are IEEE 754 binary64 values, so they are modelled by
    Rocq's primitive [float]s, whose operations are specified against
    [SpecFloat] by the axioms of [FloatAxioms].  A JavaScript [Map] is an
    insertion-ordered association list whose keys are compared with
    SameValueZero.  The validator's early returns and its two mutable lists
    are threaded through a small early-exit state monad.  The controller is a
    record of its private fields, each method a function on that record. *)

From Stdlib Require Uint63.
From Stdlib Require Import Floats ZArith List String Ascii DecimalString.
From Stdlib Require Import Bool Lia Permutation Setoid Sorted.
Import ListNotations.

Set Warnings "-inexact-float,-register-all".

(* ===================================================================== *)
(** * Part I: definitions *)
(* ===================================================================== *)

(** ** JavaScript numbers *)

Module JsNum.
Local Open Scope float_scope.

(** [Map] and [Set] store the key [-0] as [+0]. *)
Definition normalize_zero (k : float) : float :=
  if is_zero k then 0 else k.

(** SameValueZero: [NaN] equals itself and [+0] equals [-0]. *)
Definition same_value_zero (a b : float) : bool :=
  (a =? b) || (is_nan a && is_nan b).

(** [a === b] on numbers. *)
Definition strict_equal (a b : float) : bool := a =? b.

(** [Math.max(a, b)]: [NaN] if either is, and [+0] is larger than [-0]. *)
Definition Math_max (a b : float) : float :=
  if is_nan a || is_nan b then nan
  else if Leibniz.eqb b 0 && Leibniz.eqb a (-0) then 0
  else if a <? b then b else a.

(** [Math.min(a, b)]: [NaN] if either is, and [-0] is smaller than [+0]. *)
Definition Math_min (a b : float) : float :=
  if is_nan a || is_nan b then nan
  else if Leibniz.eqb b (-0) && Leibniz.eqb a 0 then (-0)
  else if b <? a then b else a.

Definition Math_abs (a : float) : float := abs a.

(** [v || 0] for a number [v]: [NaN], [+0] and [-0] are falsy. *)
Definition or_zero (v : float) : float :=
  if is_nan v || is_zero v then 0 else v.

Definition Math_PI : float := 0x1.921fb54442d18p+1.
Definition TWO_PI : float := Eval vm_compute in (2 * Math_PI).

(** What ECMA-262 fixes about the implementation-approximated [Math.sin]:
    signed zeros are returned unchanged, [NaN] and the infinities give
    [NaN]. *)
Record sin_spec (sin : float -> float) : Prop := {
  sin_zero : forall x, is_zero x = true -> sin x = x;
  sin_nan : sin nan = nan;
  sin_infinity : forall x, is_infinity x = true -> sin x = nan
}.

(** One function that meets [sin_spec] (a cubic approximation), to run the
    controller on concrete inputs. *)
Definition sin_cubic (x : float) : float :=
  if is_finite x then x * (1 - x * x / 6) else nan.

(** *** Vocabulary of the statements about numbers *)

(** A number's place on the extended real line: the class first (the
    infinities outermost, the zeros in the middle), then exponent and
    mantissa, mirrored for negative numbers.  [SFcompare] compares two
    numbers other than [NaN] as the lexicographic order compares their
    places. *)
Definition place (x : spec_float) : Z * Z * Z :=
  match x with
  | S754_infinity true => (-2, 0, 0)%Z
  | S754_finite true m e => (-1, - e, Zneg m)%Z
  | S754_zero _ => (0, 0, 0)%Z
  | S754_finite false m e => (1, e, Zpos m)%Z
  | S754_infinity false => (2, 0, 0)%Z
  | S754_nan => (3, 0, 0)%Z
  end.

Definition place_compare (p q : Z * Z * Z) : comparison :=
  let '(p1, p2, p3) := p in
  let '(q1, q2, q3) := q in
  match (p1 ?= q1)%Z with
  | Eq => match (p2 ?= q2)%Z with
          | Eq => (p3 ?= q3)%Z
          | c => c
          end
  | c => c
  end.

Definition fplace (x : float) : Z * Z * Z := place (Prim2SF x).

(** Equal as numbers: the same value, the sign of a zero apart. *)
Definition num_equiv (x y : float) : Prop := normalize_zero x = normalize_zero y.
End JsNum.

(** ** JavaScript [Map] and [Set] keyed by numbers *)

Module JsMap.
Import JsNum.

(** The entries in the order of iteration, which is the order of first
    insertion. *)
Definition t (V : Type) : Type := list (float * V).

Definition empty {V : Type} : t V := [].

Fixpoint get {V : Type} (m : t V) (k : float) : option V :=
  match m with
  | [] => None
  | (k', v) :: rest => if same_value_zero k' k then Some v else get rest k
  end.

Definition has {V : Type} (m : t V) (k : float) : bool :=
  match get m k with Some _ => true | None => false end.

(** [m.set(k, v)]: an existing entry keeps its key and its place, a new one
    goes last. *)
Fixpoint set {V : Type} (m : t V) (k : float) (v : V) : t V :=
  match m with
  | [] => [(normalize_zero k, v)]
  | (k', v') :: rest =>
      if same_value_zero k' k then (k', v) :: rest
      else (k', v') :: set rest k v
  end.

Definition keys {V : Type} (m : t V) : list float := map fst m.
Definition values {V : Type} (m : t V) : list V := map snd m.
Definition size {V : Type} (m : t V) : nat := List.length m.

(** The keys of a [Map] are pairwise different under SameValueZero and
    never [-0]; every map built from [empty] by [set] is such. *)
Fixpoint distinct_keys (ks : list float) : Prop :=
  match ks with
  | [] => True
  | k :: rest =>
      (forall k', In k' rest -> same_value_zero k k' = false) /\
      distinct_keys rest
  end.

Definition wf {V : Type} (m : t V) : Prop :=
  distinct_keys (keys m) /\ (forall k, In k (keys m) -> normalize_zero k = k).
End JsMap.

Module JsSet.
Import JsNum.

Definition t : Type := list float.
Definition empty : t := [].

Definition has (s : t) (k : float) : bool :=
  existsb (fun k' => same_value_zero k' k) s.

Definition add (s : t) (k : float) : t :=
  if has s k then s else s ++ [normalize_zero k].
End JsSet.

(** ** The floor data model *)

Record Node := mkNode { node_id : float; node_x : float; node_y : float; node_z : float }.

Record Line := mkLine { line_id : float; line_nodeI : float; line_nodeJ : float }.

(** A value as [JSON.parse] builds it, [JUndefined] being what reading an
    absent property gives.  The entries of an object come in the order in
    which [Object.entries] lists them, each key once. *)
Inductive JsValue : Type :=
| JUndefined
| JNull
| JBool (b : bool)
| JNum (x : float)
| JStr (s : string)
| JArr (items : list JsValue)
| JObj (entries : list (string * JsValue)).

(** The return value of [parseFloorData]. *)
Record FloorData := mkFloorData {
  meta : JsValue;
  nodes : JsMap.t Node;
  nodeIdCounts : JsMap.t float;
  lines : list Line;
  freqHz : JsMap.t float;
  modes : JsMap.t (JsMap.t float)
}.

(** ** parser.js *)

Module Parser.
Import JsNum.
Local Open Scope string_scope.
Local Open Scope list_scope.

(** Reading a property that is present among the own entries of an object. *)
Definition lookup (entries : list (string * JsValue)) (k : string) : JsValue :=
  match find (fun e => String.eqb (fst e) k) entries with
  | Some e => snd e
  | None => JUndefined
  end.

(** [v.k] for the keys the parser reads ([meta], [nodes], [id], [x], ...):
    a TypeError ([None]) on [null] and [undefined], [undefined] on every
    value that has no such own property. *)
Definition prop (v : JsValue) (k : string) : option JsValue :=
  match v with
  | JUndefined | JNull => None
  | JObj entries => Some (lookup entries k)
  | _ => Some JUndefined
  end.

(** [v ?? d] *)
Definition nullish_or (v d : JsValue) : JsValue :=
  match v with
  | JUndefined | JNull => d
  | _ => v
  end.

(** [v && typeof v === 'object'] *)
Definition is_object (v : JsValue) : bool :=
  match v with
  | JArr _ | JObj _ => true
  | _ => false
  end.

Definition index_key (i : nat) : string :=
  NilEmpty.string_of_uint (Nat.to_uint i).

(** [Object.entries(v)] of an object or an array. *)
Definition Object_entries (v : JsValue) : list (string * JsValue) :=
  match v with
  | JObj entries => entries
  | JArr items => combine (map index_key (seq 0 (List.length items))) items
  | _ => []
  end.

Notation "'let?' x ':=' e 'in' k" :=
  (match e with Some x => k | None => None end)
    (at level 10, x name, e at level 100, k at level 200, only parsing).

Section WithNumber.
(** The builtin conversion [Number(v)], for the values on which it returns
    (all but some objects and arrays); the parser with a [Number] that may
    throw is in module [Throws]. *)
Variable Number : JsValue -> float.

Definition parseNode (n : JsValue) : option Node :=
  let? id := prop n "id" in
  let? x := prop n "x" in
  let? y := prop n "y" in
  let? z := prop n "z" in
  Some (mkNode (Number id)
               (Number (nullish_or x (JNum 0)))
               (Number (nullish_or y (JNum 0)))
               (Number (nullish_or z (JNum 0)))).

(** The loop of step 4 over [data.nodes], on the pair
    ([nodes], [nodeIdCounts]). *)
Fixpoint parseNodes (items : list JsValue)
         (acc : JsMap.t Node * JsMap.t float)
  : option (JsMap.t Node * JsMap.t float) :=
  match items with
  | [] => Some acc
  | n :: rest =>
      let? node := parseNode n in
      let id := node_id node in
      let count := match JsMap.get (snd acc) id with
                   | Some c => c
                   | None => 0%float
                   end in
      parseNodes rest
        (JsMap.set (fst acc) id node,
         JsMap.set (snd acc) id (count + 1)%float)
  end.

Definition parseLine (l : JsValue) : option Line :=
  let? id := prop l "id" in
  let? i := prop l "nodeI" in
  let? j := prop l "nodeJ" in
  Some (mkLine (Number id) (Number i) (Number j)).

Fixpoint parseLines (items : list JsValue) (acc : list Line)
  : option (list Line) :=
  match items with
  | [] => Some acc
  | l :: rest =>
      let? line := parseLine l in
      parseLines rest (acc ++ [line])
  end.

Definition parseFreqHz (v : JsValue) : JsMap.t float :=
  if is_object v then
    fold_left
      (fun freqHz e => JsMap.set freqHz (Number (JStr (fst e))) (Number (snd e)))
      (Object_entries v) JsMap.empty
  else JsMap.empty.

(** The [uzMap] of one mode: every node id at [0.0], then the values the
    source gives. *)
Definition parseModeShape (nodes : JsMap.t Node) (modeVal : JsValue)
  : JsMap.t float :=
  let zeros :=
    fold_left (fun uzMap nodeId => JsMap.set uzMap nodeId 0%float)
              (JsMap.keys nodes) JsMap.empty in
  if is_object modeVal then
    fold_left
      (fun uzMap e => JsMap.set uzMap (Number (JStr (fst e))) (Number (snd e)))
      (Object_entries modeVal) zeros
  else zeros.

Definition parseModes (nodes : JsMap.t Node) (v : JsValue)
  : JsMap.t (JsMap.t float) :=
  if is_object v then
    fold_left
      (fun modes e =>
         JsMap.set modes (Number (JStr (fst e))) (parseModeShape nodes (snd e)))
      (Object_entries v) JsMap.empty
  else JsMap.empty.

(** [parseFloorData] from step 3 on: its argument is [data], the parsed
    text after [convertKeysToCamelCase]; [None] is a TypeError raised by
    a property read on [null]. *)
Definition parseFloorData (data : JsValue) : option FloorData :=
  let? m := prop data "meta" in
  let meta := nullish_or m (JObj []) in
  let? ns := prop data "nodes" in
  let? parsed :=
    match ns with
    | JArr items => parseNodes items (JsMap.empty, JsMap.empty)
    | _ => Some (JsMap.empty, JsMap.empty)
    end in
  let? ls := prop data "lines" in
  let? lines :=
    match ls with
    | JArr items => parseLines items []
    | _ => Some []
    end in
  let? fs := prop data "freqHz" in
  let? ms := prop data "modes" in
  Some (mkFloorData meta (fst parsed) (snd parsed) lines
                    (parseFreqHz fs) (parseModes (fst parsed) ms)).

(** Whether the source text gives an amplitude for node [nodeId] under a key
    of [modes] that denotes mode [modeNum]. *)
Definition source_gives_amplitude (data : JsValue) (modeNum nodeId : float) : bool :=
  match prop data "modes" with
  | Some ms =>
      is_object ms &&
      existsb
        (fun me =>
           same_value_zero (Number (JStr (fst me))) modeNum &&
           is_object (snd me) &&
           existsb (fun ne => same_value_zero (Number (JStr (fst ne))) nodeId)
                   (Object_entries (snd me)))
        (Object_entries ms)
  | None => false
  end.
End WithNumber.

(** The value of a decimal digit, and of a string of them. *)
Definition digit_value (c : Ascii.ascii) : option Z :=
  let n := Z.of_nat (Ascii.nat_of_ascii c) in
  if ((48 <=? n) && (n <=? 57))%Z then Some (n - 48)%Z else None.

Fixpoint digits_value (s : string) (acc : Z) : option Z :=
  match s with
  | EmptyString => Some acc
  | String c rest =>
      match digit_value c with
      | Some d => digits_value rest (10 * acc + d)%Z
      | None => None
      end
  end.

(** A conversion that agrees with [Number] on numbers, [null], booleans,
    [undefined], the empty string and strings of decimal digits that denote
    an integer below 2^53.  On the other strings, on arrays and on objects
    it answers [NaN], which the builtin does not always do; it serves to
    run the parser on concrete documents that stay within the first
    cases. *)
Definition Number_basic (v : JsValue) : float :=
  match v with
  | JNum x => x
  | JNull => 0%float
  | JBool true => 1%float
  | JBool false => 0%float
  | JStr EmptyString => 0%float
  | JStr s =>
      match digits_value s 0%Z with
      | Some n => if (n <? 9007199254740992)%Z
                  then of_uint63 (Uint63.of_Z n) else nan
      | None => nan
      end
  | _ => nan
  end.
End Parser.

(** ** validator.js *)

Module Validator.
Import JsNum.
Local Open Scope string_scope.
Local Open Scope list_scope.
Local Open Scope nat_scope.

Inductive Code : Set :=
| E_MISSING_KEY | E_NODES_EMPTY | E_NODE_DUPLICATE | E_LINES_EMPTY
| E_LINE_DUPLICATE | E_LINE_NODE_UNDEF | E_LINE_SELF_LOOP
| E_FREQ_NAN | E_FREQ_INFINITY | E_FREQ_NON_POSITIVE
| E_MODE_FREQ_MISMATCH | E_MODE_NODE_UNDEF | E_UZ_NAN | E_UZ_INFINITY
| W_FREQ_HIGH | W_MODE_ALL_ZERO | W_NODE_Z_MIXED.

Definition code_name (c : Code) : string :=
  match c with
  | E_MISSING_KEY => "E_MISSING_KEY"
  | E_NODES_EMPTY => "E_NODES_EMPTY"
  | E_NODE_DUPLICATE => "E_NODE_DUPLICATE"
  | E_LINES_EMPTY => "E_LINES_EMPTY"
  | E_LINE_DUPLICATE => "E_LINE_DUPLICATE"
  | E_LINE_NODE_UNDEF => "E_LINE_NODE_UNDEF"
  | E_LINE_SELF_LOOP => "E_LINE_SELF_LOOP"
  | E_FREQ_NAN => "E_FREQ_NAN"
  | E_FREQ_INFINITY => "E_FREQ_INFINITY"
  | E_FREQ_NON_POSITIVE => "E_FREQ_NON_POSITIVE"
  | E_MODE_FREQ_MISMATCH => "E_MODE_FREQ_MISMATCH"
  | E_MODE_NODE_UNDEF => "E_MODE_NODE_UNDEF"
  | E_UZ_NAN => "E_UZ_NAN"
  | E_UZ_INFINITY => "E_UZ_INFINITY"
  | W_FREQ_HIGH => "W_FREQ_HIGH"
  | W_MODE_ALL_ZERO => "W_MODE_ALL_ZERO"
  | W_NODE_Z_MIXED => "W_NODE_Z_MIXED"
  end.

Definition code_eqb (a b : Code) : bool := String.eqb (code_name a) (code_name b).

(** A message is a template string; it is kept as the list of its pieces,
    the interpolated numbers left unprinted. *)
Inductive Frag : Type :=
| Text (s : string)
| Quoted (s : string)
| Num (x : float)
| Index (i : nat).

Record Entry := mkEntry { code : Code; message : list Frag }.

Record Report := mkReport { errors : list Entry; warnings : list Entry }.

Definition EPS : float := 1e-9.
Definition MAX_ERRORS : nat := 100.

(** The entry [{ code, message: `${code}: ${message}` }]. *)
Definition entry (c : Code) (msg : list Frag) : Entry :=
  mkEntry c (Text (code_name c) :: Text ": " :: msg).

(** [pushError(list, code, message)]: the list after the call, and the
    returned flag. *)
Definition pushError (lst : list Entry) (c : Code) (msg : list Frag)
  : list Entry * bool :=
  if (MAX_ERRORS <=? List.length lst)%nat then (lst, true)
  else
    let lst' := lst ++ [entry c msg] in
    (lst', (MAX_ERRORS <=? List.length lst')%nat).

Definition pushWarning (lst : list Entry) (c : Code) (msg : list Frag)
  : list Entry :=
  lst ++ [entry c msg].

(** *** The checks as computations on the report

    A check either goes on with a value ([Next]) or has executed
    [return { errors, warnings }] ([Return]). *)
Inductive Outcome (A : Type) : Type :=
| Next (a : A) (r : Report)
| Return (r : Report).
Arguments Next {A} a r.
Arguments Return {A} r.

Definition Check (A : Type) : Type := Report -> Outcome A.

Definition ret {A : Type} (a : A) : Check A := fun r => Next a r.

Definition bind {A B : Type} (c : Check A) (k : A -> Check B) : Check B :=
  fun r =>
    match c r with
    | Next a r' => k a r'
    | Return r' => Return r'
    end.

Notation "x <- c ;; k" := (bind c (fun x => k))
  (at level 61, c at next level, right associativity).
Notation "c ;; k" := (bind c (fun _ => k))
  (at level 61, right associativity).

(** [limitReached = pushError(errors, ...); if (limitReached) return ...] *)
Definition error (c : Code) (msg : list Frag) : Check unit :=
  fun r =>
    let (lst, limitReached) := pushError (errors r) c msg in
    let r' := mkReport lst (warnings r) in
    if limitReached then Return r' else Next tt r'.

Definition warning (c : Code) (msg : list Frag) : Check unit :=
  fun r => Next tt (mkReport (errors r) (pushWarning (warnings r) c msg)).

Definition return_report : Check unit := fun r => Return r.

Definition errors_length : Check nat := fun r => Next (List.length (errors r)) r.

Definition when (b : bool) (c : Check unit) : Check unit :=
  if b then c else ret tt.

Fixpoint for_each {A : Type} (body : A -> Check unit) (l : list A) : Check unit :=
  match l with
  | [] => ret tt
  | a :: rest => body a ;; for_each body rest
  end.

Definition run (c : Check unit) : Report :=
  match c (mkReport [] []) with
  | Next _ r => r
  | Return r => r
  end.

(** *** The argument of [validateFloorData]

    [None] is a key that is [undefined] or [null]; a key that is present
    holds what the parser builds, so [instanceof Map] and [Array.isArray]
    hold of it and every frequency and amplitude has type [number]. *)
Record Input := mkInput {
  in_nodes : option (JsMap.t Node);
  in_lines : option (list Line);
  in_freqHz : option (JsMap.t float);
  in_modes : option (JsMap.t (JsMap.t float))
}.

Definition missing {A : Type} (v : option A) : bool :=
  match v with Some _ => false | None => true end.

Definition missing_key (key : string) : Check unit :=
  error E_MISSING_KEY [Text "required key "; Quoted key; Text " is missing"].

Definition check_required (d : Input) : Check unit :=
  when (missing (in_nodes d)) (missing_key "nodes") ;;
  when (missing (in_lines d)) (missing_key "lines") ;;
  when (missing (in_freqHz d)) (missing_key "freqHz") ;;
  when (missing (in_modes d)) (missing_key "modes") ;;
  n <- errors_length ;;
  when (0 <? n)%nat return_report.

(** The scan of the node ids, with its [seenNodeIds] and [idx]. *)
Fixpoint check_node_ids (ids : list float) (seen : JsSet.t) (idx : nat)
  : Check unit :=
  match ids with
  | [] => ret tt
  | id :: rest =>
      when (JsSet.has seen id)
           (error E_NODE_DUPLICATE
                  [Text "nodes["; Index idx; Text "].id="; Num id;
                   Text " is duplicated"]) ;;
      check_node_ids rest (JsSet.add seen id) (S idx)
  end.

Definition check_nodes (nodes : option (JsMap.t Node)) : Check unit :=
  when (match nodes with
        | Some m => (JsMap.size m =? 0)%nat
        | None => true
        end)
       (error E_NODES_EMPTY [Text "nodes is empty"]) ;;
  match nodes with
  | Some m => check_node_ids (JsMap.keys m) JsSet.empty 0
  | None => ret tt
  end.

Definition check_line_nodes (nodes : option (JsMap.t Node)) (i : nat) (line : Line)
  : Check unit :=
  match nodes with
  | Some m =>
      when (negb (JsMap.has m (line_nodeI line)))
           (error E_LINE_NODE_UNDEF
                  [Text "lines["; Index i; Text "].nodeI="; Num (line_nodeI line);
                   Text " is not defined in nodes"]) ;;
      when (negb (JsMap.has m (line_nodeJ line)))
           (error E_LINE_NODE_UNDEF
                  [Text "lines["; Index i; Text "].nodeJ="; Num (line_nodeJ line);
                   Text " is not defined in nodes"])
  | None => ret tt
  end.

(** The loop over [lines], with its [seenLineIds] and [i]. *)
Fixpoint check_line_list (nodes : option (JsMap.t Node)) (ls : list Line)
         (seen : JsSet.t) (i : nat) : Check unit :=
  match ls with
  | [] => ret tt
  | line :: rest =>
      when (JsSet.has seen (line_id line))
           (error E_LINE_DUPLICATE
                  [Text "lines["; Index i; Text "].id="; Num (line_id line);
                   Text " is duplicated"]) ;;
      check_line_nodes nodes i line ;;
      when (strict_equal (line_nodeI line) (line_nodeJ line))
           (error E_LINE_SELF_LOOP
                  [Text "lines["; Index i; Text "].id="; Num (line_id line);
                   Text " has self-loop (nodeI === nodeJ = ";
                   Num (line_nodeI line); Text ")"]) ;;
      check_line_list nodes rest (JsSet.add seen (line_id line)) (S i)
  end.

Definition check_lines (nodes : option (JsMap.t Node)) (lines : option (list Line))
  : Check unit :=
  when (match lines with
        | Some ls => (List.length ls =? 0)%nat
        | None => true
        end)
       (error E_LINES_EMPTY [Text "lines is empty"]) ;;
  match lines with
  | Some ls => check_line_list nodes ls JsSet.empty 0
  | None => ret tt
  end.

Definition check_freq (e : float * float) : Check unit :=
  let (modeNum, freq) := e in
  (if is_nan freq then
     error E_FREQ_NAN
           [Text "freqHz["; Num modeNum; Text "]="; Num freq; Text " is NaN"]
   else if negb (is_finite freq) then
     error E_FREQ_INFINITY
           [Text "freqHz["; Num modeNum; Text "]="; Num freq; Text " is Infinity"]
   else if (freq <=? 0)%float then
     error E_FREQ_NON_POSITIVE
           [Text "freqHz["; Num modeNum; Text "]="; Num freq; Text " must be > 0"]
   else ret tt) ;;
  when (is_finite freq && (30 <? freq)%float)
       (warning W_FREQ_HIGH
                [Text "freqHz["; Num modeNum; Text "]="; Num freq;
                 Text " > 30 Hz may reduce visual clarity"]).

Definition check_freqHz (freqHz : option (JsMap.t float)) : Check unit :=
  match freqHz with
  | Some f => for_each check_freq f
  | None => ret tt
  end.

Definition check_mode_freq_match (modes : option (JsMap.t (JsMap.t float)))
           (freqHz : option (JsMap.t float)) : Check unit :=
  match modes, freqHz with
  | Some ms, Some f =>
      for_each
        (fun modeNum =>
           when (negb (JsMap.has f modeNum))
                (error E_MODE_FREQ_MISMATCH
                       [Text "modes has mode "; Num modeNum;
                        Text " but freqHz does not"]))
        (JsMap.keys ms) ;;
      for_each
        (fun modeNum =>
           when (negb (JsMap.has ms modeNum))
                (error E_MODE_FREQ_MISMATCH
                       [Text "freqHz has mode "; Num modeNum;
                        Text " but modes does not"]))
        (JsMap.keys f)
  | _, _ => ret tt
  end.

(** The loop over one [uzMap], returning its [allZero]. *)
Fixpoint check_uz (nodes : JsMap.t Node) (modeNum : float)
         (entries : list (float * float)) (allZero : bool) : Check bool :=
  match entries with
  | [] => ret allZero
  | (nodeId, uz) :: rest =>
      when (negb (JsMap.has nodes nodeId))
           (error E_MODE_NODE_UNDEF
                  [Text "modes["; Num modeNum; Text "] references undefined node ";
                   Num nodeId]) ;;
      allZero' <-
        (if is_nan uz then
           error E_UZ_NAN
                 [Text "modes["; Num modeNum; Text "]["; Num nodeId;
                  Text "] uz is NaN"] ;;
           ret allZero
         else if negb (is_finite uz) then
           error E_UZ_INFINITY
                 [Text "modes["; Num modeNum; Text "]["; Num nodeId;
                  Text "] uz is Infinity"] ;;
           ret allZero
         else if (EPS <? Math_abs uz)%float then ret false
         else ret allZero) ;;
      check_uz nodes modeNum rest allZero'
  end.

Definition check_mode (nodes : JsMap.t Node) (e : float * JsMap.t float)
  : Check unit :=
  let (modeNum, uzMap) := e in
  allZero <- check_uz nodes modeNum uzMap true ;;
  when (allZero && (0 <? JsMap.size uzMap)%nat)
       (warning W_MODE_ALL_ZERO
                [Text "modes["; Num modeNum; Text "] all uz values are zero (|uz| <= ";
                 Num EPS; Text ")"]).

Definition check_modes (modes : option (JsMap.t (JsMap.t float)))
           (nodes : option (JsMap.t Node)) : Check unit :=
  match modes, nodes with
  | Some ms, Some ns => for_each (check_mode ns) ms
  | _, _ => ret tt
  end.

Definition check_z_mixed (nodes : option (JsMap.t Node)) : Check unit :=
  match nodes with
  | Some m =>
      when (0 <? JsMap.size m)%nat
           (let zValues := map node_z (JsMap.values m) in
            let firstZ := hd nan zValues in
            let mixed :=
              existsb (fun z => (EPS <? Math_abs (z - firstZ))%float) zValues in
            when mixed
                 (warning W_NODE_Z_MIXED
                          [Text "node z-coordinates are not uniform; floor may not be planar"]))
  | None => ret tt
  end.

Definition checks (d : Input) : Check unit :=
  check_required d ;;
  check_nodes (in_nodes d) ;;
  check_lines (in_nodes d) (in_lines d) ;;
  check_freqHz (in_freqHz d) ;;
  check_mode_freq_match (in_modes d) (in_freqHz d) ;;
  check_modes (in_modes d) (in_nodes d) ;;
  check_z_mixed (in_nodes d).

Definition validateFloorData (d : Input) : Report := run (checks d).

(** [validateFloorData(data)] on a value returned by [parseFloorData]. *)
Definition input_of (data : FloorData) : Input :=
  mkInput (Some (nodes data)) (Some (lines data))
          (Some (freqHz data)) (Some (modes data)).

Definition validate (data : FloorData) : Report :=
  validateFloorData (input_of data).

Definition count_code (c : Code) (l : list Entry) : nat :=
  List.length (filter (fun e => code_eqb (code e) c) l).

(** *** Invariants of the report

    [holds Pn Pr o]: [Pn] of the report when the checks go on, [Pr] of a
    report that is returned; [keeps Pn Pr c]: [c] takes a report with [Pn]
    to such an outcome. *)
Definition holds (Pn Pr : Report -> Prop) {A : Type} (o : Outcome A) : Prop :=
  match o with
  | Next _ r => Pn r
  | Return r => Pr r
  end.

Definition keeps (Pn Pr : Report -> Prop) {A : Type} (c : Check A) : Prop :=
  forall r, Pn r -> holds Pn Pr (c r).

Definition below_cap (r : Report) : Prop := List.length (errors r) < MAX_ERRORS.
Definition within_cap (r : Report) : Prop := List.length (errors r) <= MAX_ERRORS.

Definition no_duplicate_error (r : Report) : Prop :=
  count_code E_NODE_DUPLICATE (errors r) = 0.
End Validator.

(** ** animation.js *)

Module Animation.
Import JsNum.
Local Open Scope float_scope.

(** The private fields of an [AnimationController]; [_currentMode] is
    [None] when it is [null]. *)
Record Controller := mkController {
  _nodes : JsMap.t Node;
  _lines : list Line;
  _freqHz : JsMap.t float;
  _modes : JsMap.t (JsMap.t float);
  _lFloor : float;
  _aRef : float;
  _umaxMap : JsMap.t float;
  _currentMode : option float;
  _scale : float;
  _speed : float;
  _time : float;
  _playing : bool;
  _modeList : list float
}.

(** The four running extrema of [_computeFloorMetrics]. *)
Record Bounds := mkBounds { minX : float; maxX : float; minY : float; maxY : float }.

Definition initial_bounds : Bounds :=
  mkBounds infinity neg_infinity infinity neg_infinity.

(** One turn of the loop over [this._nodes.values()]. *)
Definition bounds_step (b : Bounds) (node : Node) : Bounds :=
  mkBounds (if node_x node <? minX b then node_x node else minX b)
           (if maxX b <? node_x node then node_x node else maxX b)
           (if node_y node <? minY b then node_y node else minY b)
           (if maxY b <? node_y node then node_y node else maxY b).

Definition lFloor_of_bounds (b : Bounds) : float :=
  let rangeX := maxX b - minX b in
  let rangeY := maxY b - minY b in
  let lFloor := Math_max rangeX rangeY in
  if strict_equal lFloor 0 then 1 else lFloor.

(** [_computeFloorMetrics]: the values stored in [_lFloor] and [_aRef]. *)
Definition computeFloorMetrics (nodes : JsMap.t Node) : float * float :=
  let lFloor := lFloor_of_bounds (fold_left bounds_step (JsMap.values nodes) initial_bounds) in
  (lFloor, lFloor / 10).

(** [Umax_m] of one mode shape, [1] standing in for [0]. *)
Definition umax_of (modeShape : JsMap.t float) : float :=
  let umax :=
    fold_left (fun umax uz => let absUz := Math_abs uz in
                              if umax <? absUz then absUz else umax)
              (JsMap.values modeShape) 0 in
  if strict_equal umax 0 then 1 else umax.

(** [sort((a, b) => a - b)] as a stable insertion sort: an element goes
    before the first one the comparator puts it strictly below.  When the
    keys are distinct and none is [NaN] the comparator is a consistent one,
    and this list is the one every sort that follows the language gives.
    With a [NaN] among the keys the comparator is not consistent and the
    order is left to the engine: what is proved of the mode list of such a
    data set is only what holds of any order of the keys. *)
Fixpoint insert_sorted (a : float) (l : list float) : list float :=
  match l with
  | [] => [a]
  | b :: rest => if a - b <? 0 then a :: b :: rest else b :: insert_sorted a rest
  end.

Definition sort_ascending (l : list float) : list float :=
  fold_left (fun sorted a => insert_sorted a sorted) l [].

Definition constructor (floorData : FloorData) : Controller :=
  let metrics := computeFloorMetrics (nodes floorData) in
  let umaxMap :=
    fold_left (fun acc e => JsMap.set acc (fst e) (umax_of (snd e)))
              (modes floorData) JsMap.empty in
  let modeList := sort_ascending (JsMap.keys (modes floorData)) in
  mkController (nodes floorData) (lines floorData) (freqHz floorData)
               (modes floorData) (fst metrics) (snd metrics) umaxMap
               (match modeList with
                | m :: _ => Some m
                | [] => None
                end)
               1 1 0 false modeList.

(** An assignment to the five playback fields; the data fields are only
    written by the constructor. *)
Definition with_playback (c : Controller) (mode : option float)
           (scale speed time : float) (playing : bool) : Controller :=
  mkController (_nodes c) (_lines c) (_freqHz c) (_modes c) (_lFloor c)
               (_aRef c) (_umaxMap c) mode scale speed time playing
               (_modeList c).

Definition setMode (modeNum : float) (c : Controller) : Controller :=
  with_playback c (Some modeNum) (_scale c) (_speed c) 0 false.

Definition play (c : Controller) : Controller :=
  match _currentMode c with
  | Some _ => with_playback c (_currentMode c) (_scale c) (_speed c) (_time c) true
  | None => c
  end.

Definition stop (c : Controller) : Controller :=
  with_playback c (_currentMode c) (_scale c) (_speed c) (_time c) false.

Definition setScale (s : float) (c : Controller) : Controller :=
  with_playback c (_currentMode c) (Math_max 0.5 (Math_min 3.0 s))
                (_speed c) (_time c) (_playing c).

Definition setSpeed (speed : float) (c : Controller) : Controller :=
  with_playback c (_currentMode c) (_scale c)
                (Math_max 0.2 (Math_min 2.0 speed)) (_time c) (_playing c).

Definition update (deltaTime : float) (c : Controller) : Controller :=
  if _playing c then
    with_playback c (_currentMode c) (_scale c) (_speed c)
                  (_time c + deltaTime * _speed c) (_playing c)
  else c.

Definition getTime (c : Controller) : float := _time c.
Definition isPlaying (c : Controller) : bool := _playing c.
Definition getSpeed (c : Controller) : float := _speed c.
Definition getCurrentMode (c : Controller) : option float := _currentMode c.
Definition getModeList (c : Controller) : list float := _modeList c.

(** [map.get(k) || 0] *)
Definition get_or_zero (m : JsMap.t float) (k : float) : float :=
  match JsMap.get m k with
  | Some v => or_zero v
  | None => 0
  end.

Definition getFreqHz (modeNum : option float) (c : Controller) : float :=
  match (match modeNum with Some m => Some m | None => _currentMode c end) with
  | Some m => get_or_zero (_freqHz c) m
  | None => 0
  end.

(** *** The public methods as calls on the object *)

Inductive Call : Type :=
| CallSetMode (modeNum : float)
| CallPlay
| CallStop
| CallSetScale (s : float)
| CallGetTime
| CallIsPlaying
| CallGetDisplacedZ (nodeId : float)
| CallSetSpeed (speed : float)
| CallGetSpeed
| CallUpdate (deltaTime : float)
| CallGetFreqHz (modeNum : option float)
| CallGetCurrentMode
| CallGetModeList.

Inductive Value : Type :=
| VUndefined
| VNumber (x : float)
| VBoolean (b : bool)
| VMode (m : option float)
| VList (l : list float).

(** The object after a call: the methods that assign to a field are the six
    operations of the playback state machine. *)
Definition after (call : Call) (c : Controller) : Controller :=
  match call with
  | CallSetMode m => setMode m c
  | CallPlay => play c
  | CallStop => stop c
  | CallSetScale s => setScale s c
  | CallSetSpeed v => setSpeed v c
  | CallUpdate dt => update dt c
  | CallGetTime | CallIsPlaying | CallGetDisplacedZ _ | CallGetSpeed
  | CallGetFreqHz _ | CallGetCurrentMode | CallGetModeList => c
  end.

Definition is_query (call : Call) : bool :=
  match call with
  | CallGetTime | CallIsPlaying | CallGetDisplacedZ _ | CallGetSpeed
  | CallGetFreqHz _ | CallGetCurrentMode | CallGetModeList => true
  | _ => false
  end.

Section WithSin.
(** The builtin [Math.sin]. *)
Variable Math_sin : float -> float.

Definition getDisplacedZ (nodeId : float) (c : Controller) : float :=
  match JsMap.get (_nodes c) nodeId with
  | None => 0
  | Some node =>
      let z_i := node_z node in
      match _currentMode c with
      | None => z_i
      | Some currentMode =>
          match JsMap.get (_modes c) currentMode with
          | None => z_i
          | Some modeShape =>
              let uz_im := match JsMap.get modeShape nodeId with
                           | Some uz => uz
                           | None => 0
                           end in
              let umaxM := match JsMap.get (_umaxMap c) currentMode with
                           | Some u => u
                           | None => nan
                           end in
              let freqM := get_or_zero (_freqHz c) currentMode in
              let u_i := _scale c * _aRef c * (uz_im / umaxM)
                         * Math_sin (TWO_PI * freqM * _time c) in
              z_i + u_i
          end
      end
  end.

(** The value a call returns. *)
Definition result (call : Call) (c : Controller) : Value :=
  match call with
  | CallGetTime => VNumber (getTime c)
  | CallIsPlaying => VBoolean (isPlaying c)
  | CallGetDisplacedZ nodeId => VNumber (getDisplacedZ nodeId c)
  | CallGetSpeed => VNumber (getSpeed c)
  | CallGetFreqHz m => VNumber (getFreqHz m c)
  | CallGetCurrentMode => VMode (getCurrentMode c)
  | CallGetModeList => VList (getModeList c)
  | CallSetMode _ | CallPlay | CallStop | CallSetScale _ | CallSetSpeed _
  | CallUpdate _ => VUndefined
  end.

Definition invoke (call : Call) (c : Controller) : Value * Controller :=
  (result call c, after call c).

(** A sequence of calls: the returned values in order, and the final
    object. *)
Fixpoint invoke_all (calls : list Call) (c : Controller)
  : list Value * Controller :=
  match calls with
  | [] => ([], c)
  | call :: rest =>
      let (v, c') := invoke call c in
      let (vs, c'') := invoke_all rest c' in
      (v :: vs, c'')
  end.
End WithSin.

(** *** Vocabulary of the statements *)

(** The calls that leave the displayed frame alone: every call but
    [setMode], [setScale] and [update]. *)
Definition keeps_frame (call : Call) : bool :=
  match call with
  | CallSetMode _ | CallSetScale _ | CallUpdate _ => false
  | _ => true
  end.

(** The fields [getDisplacedZ] reads. *)
Definition frame_of (c : Controller)
  : JsMap.t Node * JsMap.t (JsMap.t float) * JsMap.t float * JsMap.t float
    * (float * float * float * option float) :=
  (_nodes c, _modes c, _umaxMap c, _freqHz c,
   (_scale c, _aRef c, _time c, _currentMode c)).

Definition in_range (lo hi x : float) : bool := (lo <=? x) && (x <=? hi).

(** A call whose argument, if it sets the scale or the speed, is a number
    ([NaN] is none; the infinities are let through). *)
Definition real_argument (call : Call) : bool :=
  match call with
  | CallSetScale s => negb (is_nan s)
  | CallSetSpeed v => negb (is_nan v)
  | _ => true
  end.

(** The states of a controller between construction and any number of
    calls with real arguments. *)
Inductive reachable : Controller -> Prop :=
| reachable_new floorData : reachable (constructor floorData)
| reachable_call call c :
    reachable c -> real_argument call = true -> reachable (after call c).

(** The amplitude factor [S * A_ref * (uz / Umax)] and the angular
    frequency [2 pi f] that [getDisplacedZ] uses for node [nodeId] in mode
    [m] of shape [modeShape]. *)
Definition amplitude_factor (c : Controller) (m : float)
           (modeShape : JsMap.t float) (nodeId : float) : float :=
  _scale c * _aRef c
  * ((match JsMap.get modeShape nodeId with Some uz => uz | None => 0 end)
     / (match JsMap.get (_umaxMap c) m with Some u => u | None => nan end)).

Definition angular_frequency (c : Controller) (m : float) : float :=
  TWO_PI * get_or_zero (_freqHz c) m.

(** The nodes moved by [(cx, cy)] in the plane. *)
Definition translate (cx cy : float) (n : Node) : Node :=
  mkNode (node_id n) (node_x n + cx) (node_y n + cy) (node_z n).

Definition translate_nodes (cx cy : float) (ns : JsMap.t Node) : JsMap.t Node :=
  map (fun e => (fst e, translate cx cy (snd e))) ns.

(** Adding [c] is exact on [coords]: it keeps the order and the pairwise
    differences of the coordinates (and of the two infinities the extrema
    start from). *)
Definition offset_exact (c : float) (coords : list float) : bool :=
  let pts := infinity :: neg_infinity :: coords in
  is_finite c &&
  forallb
    (fun a =>
       forallb
         (fun b =>
            Bool.eqb (a + c <? b + c) (a <? b) &&
            Leibniz.eqb ((b + c) - (a + c)) (b - a))
         pts)
    pts.

(** The nodes mapping after the nodes of [l] are inserted in that order, as
    the parser's loop does with [nodes.set(id, node)]. *)
Definition insert_nodes (l : list Node) : JsMap.t Node :=
  fold_left (fun m n => JsMap.set m (node_id n) n) l JsMap.empty.

(** A running extremum: [lt x m] tells that [x] replaces [m].  It is
    [x < m] for a minimum and [m < x] for a maximum. *)
Definition pick (lt : float -> float -> bool) (m x : float) : float :=
  if lt x m then x else m.

Definition min_lt (x m : float) : bool := x <? m.
Definition max_lt (x m : float) : bool := m <? x.

(** Bounds that are equal as numbers. *)
Definition bounds_equiv (b b' : Bounds) : Prop :=
  num_equiv (minX b) (minX b') /\ num_equiv (maxX b) (maxX b') /\
  num_equiv (minY b) (minY b') /\ num_equiv (maxY b) (maxY b').
End Animation.

(** ** What a report should hold *)

Module Expected.
Import JsNum Validator.
Local Open Scope string_scope.
Local Open Scope list_scope.
Local Open Scope nat_scope.

Definition only_if (b : bool) (e : Entry) : list Entry :=
  if b then [e] else [].

(** The elements of a list with their positions, counted from [i]. *)
Definition indexed_from {A : Type} (i : nat) (l : list A) : list (nat * A) :=
  combine (seq i (List.length l)) l.

Definition each_indexed {A : Type} (f : nat -> A -> list Entry) (l : list A)
  : list Entry :=
  flat_map (fun p => f (fst p) (snd p)) (indexed_from 0 l).

(** [id] is among the ids [earlier] in the list. *)
Definition seen_before (earlier : list float) (id : float) : bool :=
  existsb (fun k => same_value_zero k id) earlier.

Definition missing_keys (d : Input) : list Entry :=
  let report key :=
    entry E_MISSING_KEY [Text "required key "; Quoted key; Text " is missing"] in
  only_if (missing (in_nodes d)) (report "nodes") ++
  only_if (missing (in_lines d)) (report "lines") ++
  only_if (missing (in_freqHz d)) (report "freqHz") ++
  only_if (missing (in_modes d)) (report "modes").

Definition node_problem (ids : list float) (idx : nat) (id : float) : list Entry :=
  only_if (seen_before (firstn idx ids) id)
          (entry E_NODE_DUPLICATE
                 [Text "nodes["; Index idx; Text "].id="; Num id;
                  Text " is duplicated"]).

Definition line_problems (ns : JsMap.t Node) (ls : list Line) (i : nat) (line : Line)
  : list Entry :=
  only_if (seen_before (map line_id (firstn i ls)) (line_id line))
          (entry E_LINE_DUPLICATE
                 [Text "lines["; Index i; Text "].id="; Num (line_id line);
                  Text " is duplicated"]) ++
  only_if (negb (JsMap.has ns (line_nodeI line)))
          (entry E_LINE_NODE_UNDEF
                 [Text "lines["; Index i; Text "].nodeI="; Num (line_nodeI line);
                  Text " is not defined in nodes"]) ++
  only_if (negb (JsMap.has ns (line_nodeJ line)))
          (entry E_LINE_NODE_UNDEF
                 [Text "lines["; Index i; Text "].nodeJ="; Num (line_nodeJ line);
                  Text " is not defined in nodes"]) ++
  only_if (strict_equal (line_nodeI line) (line_nodeJ line))
          (entry E_LINE_SELF_LOOP
                 [Text "lines["; Index i; Text "].id="; Num (line_id line);
                  Text " has self-loop (nodeI === nodeJ = ";
                  Num (line_nodeI line); Text ")"]).

Definition frequency_problem (e : float * float) : list Entry :=
  let (modeNum, freq) := e in
  if is_nan freq then
    [entry E_FREQ_NAN
           [Text "freqHz["; Num modeNum; Text "]="; Num freq; Text " is NaN"]]
  else if negb (is_finite freq) then
    [entry E_FREQ_INFINITY
           [Text "freqHz["; Num modeNum; Text "]="; Num freq; Text " is Infinity"]]
  else if (freq <=? 0)%float then
    [entry E_FREQ_NON_POSITIVE
           [Text "freqHz["; Num modeNum; Text "]="; Num freq; Text " must be > 0"]]
  else [].

Definition frequency_advisory (e : float * float) : list Entry :=
  let (modeNum, freq) := e in
  only_if (is_finite freq && (30 <? freq)%float)
          (entry W_FREQ_HIGH
                 [Text "freqHz["; Num modeNum; Text "]="; Num freq;
                  Text " > 30 Hz may reduce visual clarity"]).

Definition unmatched_mode (f : JsMap.t float) (modeNum : float) : list Entry :=
  only_if (negb (JsMap.has f modeNum))
          (entry E_MODE_FREQ_MISMATCH
                 [Text "modes has mode "; Num modeNum; Text " but freqHz does not"]).

Definition unmatched_frequency (ms : JsMap.t (JsMap.t float)) (modeNum : float)
  : list Entry :=
  only_if (negb (JsMap.has ms modeNum))
          (entry E_MODE_FREQ_MISMATCH
                 [Text "freqHz has mode "; Num modeNum; Text " but modes does not"]).

Definition amplitude_problems (ns : JsMap.t Node) (modeNum : float)
           (e : float * float) : list Entry :=
  let (nodeId, uz) := e in
  only_if (negb (JsMap.has ns nodeId))
          (entry E_MODE_NODE_UNDEF
                 [Text "modes["; Num modeNum; Text "] references undefined node ";
                  Num nodeId]) ++
  (if is_nan uz then
     [entry E_UZ_NAN
            [Text "modes["; Num modeNum; Text "]["; Num nodeId; Text "] uz is NaN"]]
   else if negb (is_finite uz) then
     [entry E_UZ_INFINITY
            [Text "modes["; Num modeNum; Text "]["; Num nodeId;
             Text "] uz is Infinity"]]
   else []).

Definition mode_problems (ns : JsMap.t Node) (e : float * JsMap.t float)
  : list Entry :=
  flat_map (amplitude_problems ns (fst e)) (snd e).

(** An amplitude that does not count against "all zero": one that is not a
    finite number, or whose magnitude is at most [EPS]. *)
Definition negligible (uz : float) : bool :=
  negb (is_finite uz) || negb (EPS <? Math_abs uz)%float.

Definition mode_advisory (e : float * JsMap.t float) : list Entry :=
  let (modeNum, uzMap) := e in
  only_if (forallb negligible (JsMap.values uzMap) && (0 <? JsMap.size uzMap))
          (entry W_MODE_ALL_ZERO
                 [Text "modes["; Num modeNum; Text "] all uz values are zero (|uz| <= ";
                  Num EPS; Text ")"]).

Definition z_advisory (ns : JsMap.t Node) : list Entry :=
  let zValues := map node_z (JsMap.values ns) in
  only_if ((0 <? JsMap.size ns) &&
           existsb (fun z => (EPS <? Math_abs (z - hd nan zValues))%float) zValues)
          (entry W_NODE_Z_MIXED
                 [Text "node z-coordinates are not uniform; floor may not be planar"]).

(** Every problem of a data set, in the order in which the validator looks
    for them, without a limit on their number. *)
Definition problems (d : Input) : list Entry :=
  match in_nodes d, in_lines d, in_freqHz d, in_modes d with
  | Some ns, Some ls, Some f, Some ms =>
      only_if (JsMap.size ns =? 0) (entry E_NODES_EMPTY [Text "nodes is empty"]) ++
      each_indexed (node_problem (JsMap.keys ns)) (JsMap.keys ns) ++
      only_if (List.length ls =? 0) (entry E_LINES_EMPTY [Text "lines is empty"]) ++
      each_indexed (line_problems ns ls) ls ++
      flat_map frequency_problem f ++
      flat_map (unmatched_mode f) (JsMap.keys ms) ++
      flat_map (unmatched_frequency ms) (JsMap.keys f) ++
      flat_map (mode_problems ns) ms
  | _, _, _, _ => missing_keys d
  end.

(** Every advisory of a data set that has its four keys. *)
Definition advisories (d : Input) : list Entry :=
  match in_nodes d, in_lines d, in_freqHz d, in_modes d with
  | Some ns, Some ls, Some f, Some ms =>
      flat_map frequency_advisory f ++ flat_map mode_advisory ms ++ z_advisory ns
  | _, _, _, _ => []
  end.

(** [emits c a es ws]: started on a report below the limit, [c] appends the
    errors [es] and the warnings [ws] and goes on with [a] if the limit is
    not reached; if it is, [c] returns with the errors cut at the limit and
    the warnings it had come to. *)
Definition emits {A : Type} (c : Check A) (a : A) (es ws : list Entry) : Prop :=
  forall r,
    List.length (errors r) < MAX_ERRORS ->
    if List.length (errors r) + List.length es <? MAX_ERRORS
    then c r = Next a (mkReport (errors r ++ es) (warnings r ++ ws))
    else exists n,
        c r = Return (mkReport (firstn MAX_ERRORS (errors r ++ es))
                               (warnings r ++ firstn n ws)).

(** The codes of errors and the codes of warnings. *)
Definition is_error_code (c : Code) : bool := String.prefix "E_" (code_name c).
Definition is_warning_code (c : Code) : bool := String.prefix "W_" (code_name c).

(** An entry whose message begins with its code and a colon. *)
Definition labelled (e : Entry) : Prop :=
  exists msg, message e = Text (code_name (code e)) :: Text ": " :: msg.

(** A data set the rest of the program can work on. *)
Definition consistent (d : Input) : Prop :=
  match in_nodes d, in_lines d, in_freqHz d, in_modes d with
  | Some ns, Some ls, Some f, Some ms =>
      ns <> [] /\
      JsMap.distinct_keys (JsMap.keys ns) /\
      ls <> [] /\
      JsMap.distinct_keys (map line_id ls) /\
      (forall line,
          In line ls ->
          JsMap.has ns (line_nodeI line) = true /\
          JsMap.has ns (line_nodeJ line) = true /\
          strict_equal (line_nodeI line) (line_nodeJ line) = false) /\
      (forall modeNum freq,
          In (modeNum, freq) f ->
          is_finite freq = true /\ (0 <? freq)%float = true) /\
      (forall modeNum, JsMap.has ms modeNum = JsMap.has f modeNum) /\
      (forall modeNum uzMap nodeId uz,
          In (modeNum, uzMap) ms -> In (nodeId, uz) uzMap ->
          JsMap.has ns nodeId = true /\ is_finite uz = true)
  | _, _, _, _ => False
  end.

(** The checks that follow the test of the required keys. *)
Definition later_checks (d : Input) : Check unit :=
  check_nodes (in_nodes d) ;;
  check_lines (in_nodes d) (in_lines d) ;;
  check_freqHz (in_freqHz d) ;;
  check_mode_freq_match (in_modes d) (in_freqHz d) ;;
  check_modes (in_modes d) (in_nodes d) ;;
  check_z_mixed (in_nodes d).
End Expected.

(** ** The findings of the validator, in its order *)

Module Findings.
Import JsNum Validator Expected.
Local Open Scope string_scope.
Local Open Scope list_scope.
Local Open Scope nat_scope.

(** What a check comes to: a problem, which [pushError] records, or an
    advisory, which [pushWarning] records. *)
Inductive Finding : Type :=
| Problem (e : Entry)
| Advisory (e : Entry).

Definition problems_of (fs : list Finding) : list Entry :=
  flat_map (fun f => match f with Problem e => [e] | Advisory _ => [] end) fs.

Definition advisories_of (fs : list Finding) : list Entry :=
  flat_map (fun f => match f with Advisory e => [e] | Problem _ => [] end) fs.

(** The report that holds the findings [fs]. *)
Definition report_of (fs : list Finding) : Report :=
  mkReport (problems_of fs) (advisories_of fs).

Definition frequency_findings (e : float * float) : list Finding :=
  map Problem (frequency_problem e) ++ map Advisory (frequency_advisory e).

Definition mode_findings (ns : JsMap.t Node) (e : float * JsMap.t float)
  : list Finding :=
  map Problem (mode_problems ns e) ++ map Advisory (mode_advisory e).

(** Every finding of a data set, problems and advisories together, in the
    order in which the validator comes to them: a frequency above 30 Hz is
    found right after the problems of that frequency, a mode that is all
    zero right after the problems of its amplitudes, and the mixed [z]
    last. *)
Definition findings (d : Input) : list Finding :=
  match in_nodes d, in_lines d, in_freqHz d, in_modes d with
  | Some ns, Some ls, Some f, Some ms =>
      map Problem
          (only_if (JsMap.size ns =? 0) (entry E_NODES_EMPTY [Text "nodes is empty"]) ++
           each_indexed (node_problem (JsMap.keys ns)) (JsMap.keys ns)) ++
      map Problem
          (only_if (List.length ls =? 0) (entry E_LINES_EMPTY [Text "lines is empty"]) ++
           each_indexed (line_problems ns ls) ls) ++
      flat_map frequency_findings f ++
      map Problem
          (flat_map (unmatched_mode f) (JsMap.keys ms) ++
           flat_map (unmatched_frequency ms) (JsMap.keys f)) ++
      flat_map (mode_findings ns) ms ++
      map Advisory (z_advisory ns)
  | _, _, _, _ => map Problem (missing_keys d)
  end.

(** The findings [fs] up to the [n]-th problem among them, that one
    included: what comes after it is left out. *)
Fixpoint upto (n : nat) (fs : list Finding) : list Finding :=
  match fs with
  | [] => []
  | Advisory e :: rest =>
      match n with
      | 0 => []
      | S _ => Advisory e :: upto n rest
      end
  | Problem e :: rest =>
      match n with
      | 0 => []
      | S n' => Problem e :: upto n' rest
      end
  end.

(** [traces c a fs]: started on a report with fewer than 100 errors, [c]
    records the findings [fs] one after the other; it goes on with [a] if
    the errors stay below 100, and returns the report as it is right after
    the 100th error otherwise. *)
Definition traces {A : Type} (c : Check A) (a : A) (fs : list Finding) : Prop :=
  forall r,
    List.length (errors r) < MAX_ERRORS ->
    let room := MAX_ERRORS - List.length (errors r) in
    let r' := mkReport (errors r ++ problems_of (upto room fs))
                       (warnings r ++ advisories_of (upto room fs)) in
    if List.length (problems_of fs) <? room
    then c r = Next a r'
    else c r = Return r'.
End Findings.

(** ** What the parser reads from a document *)

Module Document.
Import JsNum Parser.
Local Open Scope string_scope.
Local Open Scope list_scope.

(** [null] and [undefined], on which a property read raises a TypeError. *)
Definition nullish (v : JsValue) : bool :=
  match v with
  | JUndefined | JNull => true
  | _ => false
  end.

(** [v.k] on a value that is neither. *)
Definition field (v : JsValue) (k : string) : JsValue :=
  match prop v k with
  | Some x => x
  | None => JUndefined
  end.

(** The elements of an array, none for a value that is no array. *)
Definition array_items (v : JsValue) : list JsValue :=
  match v with
  | JArr items => items
  | _ => []
  end.

Section WithNumber.
Variable Number : JsValue -> float.

(** The node and the line that an element of [nodes] and of [lines]
    describes. *)
Definition node_of (n : JsValue) : Node :=
  mkNode (Number (field n "id"))
         (Number (nullish_or (field n "x") (JNum 0)))
         (Number (nullish_or (field n "y") (JNum 0)))
         (Number (nullish_or (field n "z") (JNum 0))).

Definition line_of (l : JsValue) : Line :=
  mkLine (Number (field l "id")) (Number (field l "nodeI")) (Number (field l "nodeJ")).
End WithNumber.

(** How many of the nodes [l] have the id [id]. *)
Definition occurrences (id : float) (l : list Node) : nat :=
  List.length (filter (fun n => same_value_zero (node_id n) id) l).

(** The last of the nodes [l] that has the id [id]. *)
Definition last_with_id (id : float) (l : list Node) : option Node :=
  find (fun n => same_value_zero (node_id n) id) (rev l).

(** The number reached from [0] by adding [1] [n] times. *)
Definition tally (n : nat) : float :=
  Nat.iter n (fun c => (c + 1)%float) 0%float.

(** One turn of the loop over [data.nodes] on ([nodes], [nodeIdCounts]). *)
Definition record_node (acc : JsMap.t Node * JsMap.t float) (node : Node)
  : JsMap.t Node * JsMap.t float :=
  (JsMap.set (fst acc) (node_id node) node,
   JsMap.set (snd acc) (node_id node)
             ((match JsMap.get (snd acc) (node_id node) with
               | Some c => c
               | None => 0%float
               end) + 1)%float).
End Document.

(** ** parser.js with a [Number] that may throw *)

Module Throws.
Import JsNum Parser Document.
Local Open Scope string_scope.
Local Open Scope list_scope.

Section WithNumber.
(** The builtin [Number(v)], [None] when it throws: it does so, with a
    TypeError, on an object or an array that has no primitive value (its
    [toString] and [valueOf] are not functions, or give objects). *)
Variable Number : JsValue -> option float.

Definition parseNode (n : JsValue) : option Node :=
  let? id := prop n "id" in
  let? id := Number id in
  let? x := prop n "x" in
  let? x := Number (nullish_or x (JNum 0)) in
  let? y := prop n "y" in
  let? y := Number (nullish_or y (JNum 0)) in
  let? z := prop n "z" in
  let? z := Number (nullish_or z (JNum 0)) in
  Some (mkNode id x y z).

(** The loop of step 4 over [data.nodes], on the pair
    ([nodes], [nodeIdCounts]). *)
Fixpoint parseNodes (items : list JsValue)
         (acc : JsMap.t Node * JsMap.t float)
  : option (JsMap.t Node * JsMap.t float) :=
  match items with
  | [] => Some acc
  | n :: rest =>
      let? node := parseNode n in
      let id := node_id node in
      let count := match JsMap.get (snd acc) id with
                   | Some c => c
                   | None => 0%float
                   end in
      parseNodes rest
        (JsMap.set (fst acc) id node,
         JsMap.set (snd acc) id (count + 1)%float)
  end.

Definition parseLine (l : JsValue) : option Line :=
  let? id := prop l "id" in
  let? id := Number id in
  let? i := prop l "nodeI" in
  let? i := Number i in
  let? j := prop l "nodeJ" in
  let? j := Number j in
  Some (mkLine id i j).

Fixpoint parseLines (items : list JsValue) (acc : list Line)
  : option (list Line) :=
  match items with
  | [] => Some acc
  | l :: rest =>
      let? line := parseLine l in
      parseLines rest (acc ++ [line])
  end.

(** The loop [for (const [key, val] of Object.entries(...))] of step 6,
    and of step 7 on one mode: [Number(key)], then [Number(val)], then
    [set]. *)
Fixpoint parseNumbers (entries : list (string * JsValue)) (acc : JsMap.t float)
  : option (JsMap.t float) :=
  match entries with
  | [] => Some acc
  | e :: rest =>
      let? key := Number (JStr (fst e)) in
      let? val := Number (snd e) in
      parseNumbers rest (JsMap.set acc key val)
  end.

Definition parseFreqHz (v : JsValue) : option (JsMap.t float) :=
  if is_object v then parseNumbers (Object_entries v) JsMap.empty
  else Some JsMap.empty.

Definition parseModeShape (nodes : JsMap.t Node) (modeVal : JsValue)
  : option (JsMap.t float) :=
  let zeros :=
    fold_left (fun uzMap nodeId => JsMap.set uzMap nodeId 0%float)
              (JsMap.keys nodes) JsMap.empty in
  if is_object modeVal then parseNumbers (Object_entries modeVal) zeros
  else Some zeros.

(** The loop of step 7 over [Object.entries(data.modes)]. *)
Fixpoint parseModeList (nodes : JsMap.t Node) (entries : list (string * JsValue))
         (acc : JsMap.t (JsMap.t float)) : option (JsMap.t (JsMap.t float)) :=
  match entries with
  | [] => Some acc
  | e :: rest =>
      let? modeNum := Number (JStr (fst e)) in
      let? uzMap := parseModeShape nodes (snd e) in
      parseModeList nodes rest (JsMap.set acc modeNum uzMap)
  end.

Definition parseModes (nodes : JsMap.t Node) (v : JsValue)
  : option (JsMap.t (JsMap.t float)) :=
  if is_object v then parseModeList nodes (Object_entries v) JsMap.empty
  else Some JsMap.empty.

(** [parseFloorData] from step 3 on: [None] is a TypeError, raised by a
    property read on [null] or by [Number]. *)
Definition parseFloorData (data : JsValue) : option FloorData :=
  let? m := prop data "meta" in
  let meta := nullish_or m (JObj []) in
  let? ns := prop data "nodes" in
  let? parsed :=
    match ns with
    | JArr items => parseNodes items (JsMap.empty, JsMap.empty)
    | _ => Some (JsMap.empty, JsMap.empty)
    end in
  let? ls := prop data "lines" in
  let? lines :=
    match ls with
    | JArr items => parseLines items []
    | _ => Some []
    end in
  let? fs := prop data "freqHz" in
  let? freqHz := parseFreqHz fs in
  let? ms := prop data "modes" in
  let? modes := parseModes (fst parsed) ms in
  Some (mkFloorData meta (fst parsed) (snd parsed) lines freqHz modes).

(** [Number] throws on [v]. *)
Definition fails (v : JsValue) : bool :=
  match Number v with
  | Some _ => false
  | None => true
  end.

(** [Number] where it returns, and [NaN] elsewhere. *)
Definition or_nan (v : JsValue) : float :=
  match Number v with
  | Some x => x
  | None => nan
  end.
End WithNumber.

(** A [Number] that always returns. *)
Definition always (Number : JsValue -> float) (v : JsValue) : option float :=
  Some (Number v).

(** *** The values given to [Number] *)

Definition node_conversions (n : JsValue) : list JsValue :=
  [field n "id"; nullish_or (field n "x") (JNum 0);
   nullish_or (field n "y") (JNum 0); nullish_or (field n "z") (JNum 0)].

Definition line_conversions (l : JsValue) : list JsValue :=
  [field l "id"; field l "nodeI"; field l "nodeJ"].

Definition entry_conversions (e : string * JsValue) : list JsValue :=
  [JStr (fst e); snd e].

Definition object_conversions (v : JsValue) : list JsValue :=
  if is_object v then flat_map entry_conversions (Object_entries v) else [].

Definition mode_conversions (e : string * JsValue) : list JsValue :=
  JStr (fst e) :: object_conversions (snd e).

(** Every value that [parseFloorData] gives to [Number] on a document
    without a [null] node or line, in the order of the calls. *)
Definition conversions (data : JsValue) : list JsValue :=
  flat_map node_conversions (array_items (field data "nodes")) ++
  flat_map line_conversions (array_items (field data "lines")) ++
  object_conversions (field data "freqHz") ++
  (if is_object (field data "modes")
   then flat_map mode_conversions (Object_entries (field data "modes"))
   else []).
End Throws.

(** ** The state of a controller *)

Module Stage.
Import JsNum Animation.

(** The fields that hold the data set and what the constructor derives
    from it. *)
Definition data_of (c : Controller)
  : JsMap.t Node * list Line * JsMap.t float * JsMap.t (JsMap.t float)
    * (float * float * JsMap.t float * list float) :=
  (_nodes c, _lines c, _freqHz c, _modes c,
   (_lFloor c, _aRef c, _umaxMap c, _modeList c)).

(** The calls that cannot move a stopped frame: every call but [play],
    [setMode] and [setScale]. *)
Definition holds_still (call : Call) : bool :=
  match call with
  | CallPlay | CallSetMode _ | CallSetScale _ => false
  | _ => true
  end.

(** The amplitude [getDisplacedZ] takes for a node in a shape. *)
Definition amplitude_in (modeShape : JsMap.t float) (nodeId : float) : float :=
  match JsMap.get modeShape nodeId with
  | Some uz => uz
  | None => 0%float
  end.

(** Playing, the controller has a mode. *)
Definition mode_selected_while_playing (c : Controller) : Prop :=
  _playing c = true -> _currentMode c <> None.
End Stage.

(** ** parser.js, steps 1 and 2: the text and its keys *)

Module CamelCase.
Import Parser.
Local Open Scope string_scope.
Local Open Scope list_scope.

(** The classes of the pattern [/[_-]([a-z0-9])/gi].  A key is held as the
    bytes of its UTF-8 form: those of a character outside ASCII are in none
    of the classes, and the conversion leaves them as they are. *)
Definition is_separator (c : ascii) : bool :=
  Ascii.eqb c "_" || Ascii.eqb c "-".

Definition is_lower (c : ascii) : bool :=
  let n := nat_of_ascii c in (97 <=? n)%nat && (n <=? 122)%nat.

Definition is_upper (c : ascii) : bool :=
  let n := nat_of_ascii c in (65 <=? n)%nat && (n <=? 90)%nat.

Definition is_digit (c : ascii) : bool :=
  let n := nat_of_ascii c in (48 <=? n)%nat && (n <=? 57)%nat.

Definition is_alnum (c : ascii) : bool := is_lower c || is_upper c || is_digit c.

(** [ch.toUpperCase()] on a letter or a digit. *)
Definition toUpperCase (c : ascii) : ascii :=
  if is_lower c then ascii_of_nat (nat_of_ascii c - 32) else c.

(** [key.replace(/[_-]([a-z0-9])/gi, (_, ch) => ch.toUpperCase())]: the
    matches are taken from left to right and do not overlap. *)
Fixpoint toCamelCase (key : string) : string :=
  match key with
  | EmptyString => EmptyString
  | String c rest =>
      match rest with
      | String ch rest' =>
          if is_separator c && is_alnum ch
          then String (toUpperCase ch) (toCamelCase rest')
          else String c (toCamelCase rest)
      | EmptyString => String c EmptyString
      end
  end.

(** *** Objects

    The own properties of an object are listed with the array indices first,
    in ascending order, then the other keys in the order of their creation.
    An array index is the canonical decimal form of an integer from [0] to
    [2^32 - 2]. *)
Definition array_index (k : string) : option Z :=
  match k with
  | EmptyString => None
  | String c rest =>
      if Ascii.eqb c "0" then
        match rest with
        | EmptyString => Some 0%Z
        | _ => None
        end
      else
        match digits_value k 0 with
        | Some n => if (n <=? 4294967294)%Z then Some n else None
        | None => None
        end
  end.

Definition has_key (entries : list (string * JsValue)) (k : string) : bool :=
  existsb (fun e => String.eqb (fst e) k) entries.

Fixpoint replace_value (entries : list (string * JsValue)) (k : string) (v : JsValue)
  : list (string * JsValue) :=
  match entries with
  | [] => []
  | e :: rest =>
      if String.eqb (fst e) k then (fst e, v) :: rest
      else e :: replace_value rest k v
  end.

Fixpoint insert_index (entries : list (string * JsValue)) (i : Z) (k : string)
         (v : JsValue) : list (string * JsValue) :=
  match entries with
  | [] => [(k, v)]
  | e :: rest =>
      match array_index (fst e) with
      | Some j => if (j <? i)%Z then e :: insert_index rest i k v
                  else (k, v) :: e :: rest
      | None => (k, v) :: e :: rest
      end
  end.

(** [result[k] = v] on an object built from [{}], for a key other than
    [__proto__]. *)
Definition assign (entries : list (string * JsValue)) (k : string) (v : JsValue)
  : list (string * JsValue) :=
  if has_key entries k then replace_value entries k v
  else
    match array_index k with
    | Some i => insert_index entries i k v
    | None => entries ++ [(k, v)]
    end.

Fixpoint convertKeysToCamelCase (value : JsValue) : JsValue :=
  match value with
  | JArr items => JArr (map convertKeysToCamelCase items)
  | JObj entries =>
      JObj (fold_left
              (fun result e =>
                 assign result (toCamelCase (fst e)) (convertKeysToCamelCase (snd e)))
              entries [])
  | _ => value
  end.

(** What [parseFloorData] throws. *)
Inductive Thrown : Set :=
| JsonParseError
| TypeError.

Section WithBuiltins.
(** [JSON.parse] and [Number], [None] when they throw. *)
Variable JSON_parse : string -> option JsValue.
Variable Number : JsValue -> option float.

(** [parseFloorData(jsonString)], all seven steps. *)
Definition parseFloorData (jsonString : string) : Thrown + FloorData :=
  match JSON_parse jsonString with
  | None => inl JsonParseError
  | Some raw =>
      match Throws.parseFloorData Number (convertKeysToCamelCase raw) with
      | Some d => inr d
      | None => inl TypeError
      end
  end.
End WithBuiltins.

(** *** Vocabulary of the statements *)

(** The own property [k] of an object, if it has one. *)
Definition own_property (entries : list (string * JsValue)) (k : string)
  : option JsValue :=
  option_map snd (find (fun e => String.eqb (fst e) k) entries).

(** The names an object built from [{}] inherits from [Object.prototype]:
    read from an object that has no own property of that name, they do not
    give [undefined]. *)
Definition inherited (k : string) : bool :=
  existsb (String.eqb k)
          ["constructor"; "hasOwnProperty"; "isPrototypeOf";
           "propertyIsEnumerable"; "toLocaleString"; "toString"; "valueOf";
           "__proto__"; "__defineGetter__"; "__defineSetter__";
           "__lookupGetter__"; "__lookupSetter__"].

(** A separator followed by a letter or a digit: a place where
    [toCamelCase] changes the key. *)
Fixpoint has_match (key : string) : bool :=
  match key with
  | String c (String ch _ as rest) => (is_separator c && is_alnum ch) || has_match rest
  | _ => false
  end.

(** A separator followed by a lower-case letter. *)
Fixpoint separator_before_lower (key : string) : bool :=
  match key with
  | String c (String ch _ as rest) =>
      (is_separator c && is_lower ch) || separator_before_lower rest
  | _ => false
  end.

(** An entry may come before another in an object: their keys differ, and
    an array index comes before a larger one and before every other key. *)
Definition may_precede (e e' : string * JsValue) : Prop :=
  fst e <> fst e' /\
  match array_index (fst e), array_index (fst e') with
  | Some i, Some j => (i < j)%Z
  | None, Some _ => False
  | _, None => True
  end.

(** A value as [JSON.parse] builds it, none of whose keys [toCamelCase]
    changes. *)
Fixpoint camel_cased (v : JsValue) : Prop :=
  match v with
  | JArr items =>
      (fix all (l : list JsValue) : Prop :=
         match l with
         | [] => True
         | x :: rest => camel_cased x /\ all rest
         end) items
  | JObj entries =>
      ForallOrdPairs may_precede entries /\
      (fix all (l : list (string * JsValue)) : Prop :=
         match l with
         | [] => True
         | e :: rest => (has_match (fst e) = false /\ camel_cased (snd e)) /\ all rest
         end) entries
  | _ => True
  end.
End CamelCase.

(** ** The sample as a text *)

Module SampleText.
Import Parser.
Local Open Scope string_scope.
Local Open Scope list_scope.

(** [s] between double quotes. *)
Definition quoted (s : string) : string :=
  String "034" (s ++ String "034" EmptyString).

Definition member (k v : string) : string := quoted k ++ ":" ++ v.

Definition node_text (id x y z : string) : string :=
  "{" ++ member "id" id ++ "," ++ member "x" x ++ "," ++ member "y" y ++ ","
      ++ member "z" z ++ "}".

Definition line_text (id i j : string) : string :=
  "{" ++ member "id" id ++ "," ++ member "nodeI" i ++ "," ++ member "nodeJ" j ++ "}".

Definition shape_text (u1 u2 u3 u4 : string) : string :=
  "{" ++ member "1" u1 ++ "," ++ member "2" u2 ++ "," ++ member "3" u3 ++ ","
      ++ member "4" u4 ++ "}".

(** The JSON text of which [sample_document] is the parse: the sample of
    the README with an empty [meta] and its keys in camel case. *)
Definition sample_text : string :=
  "{" ++ member "meta" "{}" ++ ","
      ++ member "nodes"
                ("[" ++ node_text "1" "0.0" "0.0" "0.0" ++ ","
                     ++ node_text "2" "6.0" "0.0" "0.0" ++ ","
                     ++ node_text "3" "6.0" "4.0" "0.0" ++ ","
                     ++ node_text "4" "0.0" "4.0" "0.0" ++ "]") ++ ","
      ++ member "lines"
                ("[" ++ line_text "1" "1" "2" ++ "," ++ line_text "2" "2" "3" ++ ","
                     ++ line_text "3" "3" "4" ++ "," ++ line_text "4" "4" "1" ++ "]")
      ++ ","
      ++ member "freqHz" ("{" ++ member "1" "5.2" ++ "," ++ member "2" "8.7" ++ "}")
      ++ ","
      ++ member "modes"
                ("{" ++ member "1" (shape_text "0.0" "0.4" "1.0" "0.5") ++ ","
                     ++ member "2" (shape_text "1.0" "0.2" "-0.9" "-0.1") ++ "}")
      ++ "}".

(** [JSON.parse] as far as one text goes: [v] for the text [text], of
    which it is the parse; no other text is given to it. *)
Definition parse_of (text : string) (v : JsValue) (s : string) : option JsValue :=
  if String.eqb s text then Some v else None.
End SampleText.

(** ** viewer.js: what is computed from the data *)

Module Viewer.
Import JsNum.
Local Open Scope float_scope.

(** The six running extrema of [loadFloorData]. *)
Record Extent := mkExtent {
  minX : float; maxX : float;
  minY : float; maxY : float;
  minZ : float; maxZ : float
}.

Definition initial_extent : Extent :=
  mkExtent infinity neg_infinity infinity neg_infinity infinity neg_infinity.

Definition extent_step (b : Extent) (node : Node) : Extent :=
  mkExtent (if node_x node <? minX b then node_x node else minX b)
           (if maxX b <? node_x node then node_x node else maxX b)
           (if node_y node <? minY b then node_y node else minY b)
           (if maxY b <? node_y node then node_y node else maxY b)
           (if node_z node <? minZ b then node_z node else minZ b)
           (if maxZ b <? node_z node then node_z node else maxZ b).

Definition extent (nodes : JsMap.t Node) : Extent :=
  fold_left extent_step (JsMap.values nodes) initial_extent.

(** The value stored in [this._lFloor]. *)
Definition lFloor (nodes : JsMap.t Node) : float :=
  let b := extent nodes in
  let rangeX := maxX b - minX b in
  let rangeY := maxY b - minY b in
  let lFloor := Math_max rangeX rangeY in
  if strict_equal lFloor 0 then 1 else lFloor.

(** [centerX], [centerY] and [centerZ]. *)
Definition center (nodes : JsMap.t Node) : float * float * float :=
  let b := extent nodes in
  ((minX b + maxX b) / 2, (minY b + maxY b) / 2, (minZ b + maxZ b) / 2).

(** An element of [this._deformedVertexMap]. *)
Record Segment := mkSegment {
  seg_nodeI : float;
  seg_nodeJ : float;
  segmentIndex : nat
}.

(** The loop that builds [_deformedVertexMap], from a value of
    [segmentIndex] on: a line with an end that is no node is skipped. *)
Fixpoint deformedVertexMap_from (nodes : JsMap.t Node) (ls : list Line) (index : nat)
  : list Segment :=
  match ls with
  | [] => []
  | line :: rest =>
      match JsMap.get nodes (line_nodeI line), JsMap.get nodes (line_nodeJ line) with
      | Some _, Some _ =>
          mkSegment (line_nodeI line) (line_nodeJ line) index
          :: deformedVertexMap_from nodes rest (S index)
      | _, _ => deformedVertexMap_from nodes rest index
      end
  end.

Definition deformedVertexMap (nodes : JsMap.t Node) (ls : list Line) : list Segment :=
  deformedVertexMap_from nodes ls 0.

(** The array [deformedPositions] (and [undeformedPositions], built by the
    same loop): six numbers for a line, in the order of the scene's axes. *)
Definition positions (nodes : JsMap.t Node) (ls : list Line) : list float :=
  flat_map
    (fun line =>
       match JsMap.get nodes (line_nodeI line), JsMap.get nodes (line_nodeJ line) with
       | Some ni, Some nj =>
           [node_y ni; node_z ni; node_x ni; node_y nj; node_z nj; node_x nj]
       | _, _ => []
       end)
    ls.

(** A call [attr.setXYZ(index, x, y, z)]. *)
Record SetXYZ := mkSetXYZ { at_index : nat; set_x : float; set_y : float; set_z : float }.

(** The calls [updateDeformed] makes on [startAttr] and on [endAttr]. *)
Definition updateDeformed (nodes : JsMap.t Node) (vertexMap : list Segment)
           (getDisplacedZ : float -> float) : list (SetXYZ * SetXYZ) :=
  flat_map
    (fun entry =>
       match JsMap.get nodes (seg_nodeI entry), JsMap.get nodes (seg_nodeJ entry) with
       | Some ni, Some nj =>
           let zI := getDisplacedZ (seg_nodeI entry) in
           let zJ := getDisplacedZ (seg_nodeJ entry) in
           [(mkSetXYZ (segmentIndex entry) (node_y ni) zI (node_x ni),
             mkSetXYZ (segmentIndex entry) (node_y nj) zJ (node_x nj))]
       | _, _ => []
       end)
    vertexMap.

(** The four extrema the controller keeps too. *)
Definition plan (b : Extent) : Animation.Bounds :=
  Animation.mkBounds (minX b) (maxX b) (minY b) (maxY b).
End Viewer.

(** ** Order among numbers and bounds *)

Module Order.
Import JsNum.
Local Open Scope float_scope.

(** A number other than zero and [NaN], of sign [s]. *)
Definition signed_nonzero (s : bool) (x : spec_float) : Prop :=
  match x with
  | S754_finite s' _ _ | S754_infinity s' => s' = s
  | _ => False
  end.

(** A list of numbers each smaller than those that follow it. *)
Definition ascending (l : list float) : Prop :=
  StronglySorted (fun x y => (x <? y) = true) l.

(** A list without [NaN]. *)
Definition numbers (l : list float) : Prop :=
  Forall (fun k => is_nan k = false) l.

(** Nodes whose plane coordinates are finite. *)
Definition finite_plan (ns : JsMap.t Node) : Prop :=
  Forall (fun n => is_finite (node_x n) = true /\ is_finite (node_y n) = true)
         (JsMap.values ns).

(** Bounds that some finite coordinates have set. *)
Definition settled (b : Animation.Bounds) : Prop :=
  is_finite (Animation.minX b) = true /\ is_finite (Animation.maxX b) = true /\
  (Animation.minX b <=? Animation.maxX b) = true /\
  is_finite (Animation.minY b) = true /\ is_finite (Animation.maxY b) = true /\
  (Animation.minY b <=? Animation.maxY b) = true.
End Order.

(** ** Documents and data sets used as concrete inputs *)

Module Examples.
Import Parser.
Local Open Scope string_scope.
Local Open Scope list_scope.

Definition node_entry (id x y z : float) : JsValue :=
  JObj [("id", JNum id); ("x", JNum x); ("y", JNum y); ("z", JNum z)].

Definition line_entry (id i j : float) : JsValue :=
  JObj [("id", JNum id); ("nodeI", JNum i); ("nodeJ", JNum j)].

Definition document (ns ls : list JsValue) (fs ms : list (string * JsValue))
  : JsValue :=
  JObj [("meta", JObj []); ("nodes", JArr ns); ("lines", JArr ls);
        ("freqHz", JObj fs); ("modes", JObj ms)].

Definition parsed (data : JsValue) : FloorData :=
  match parseFloorData Number_basic data with
  | Some d => d
  | None => mkFloorData JUndefined [] [] [] [] []
  end.

(** The sample of the README: a 6 by 4 rectangle with two modes. *)
Definition sample_document : JsValue :=
  document
    [node_entry 1 0 0 0; node_entry 2 6 0 0; node_entry 3 6 4 0; node_entry 4 0 4 0]
    [line_entry 1 1 2; line_entry 2 2 3; line_entry 3 3 4; line_entry 4 4 1]
    [("1", JNum 5.2); ("2", JNum 8.7)]
    [("1", JObj [("1", JNum 0); ("2", JNum 0.4); ("3", JNum 1); ("4", JNum 0.5)]);
     ("2", JObj [("1", JNum 1); ("2", JNum 0.2); ("3", JNum (-0.9)); ("4", JNum (-0.1))])].

(** The sample with node 1 listed twice, the second time at [x = 5]. *)
Definition duplicate_document : JsValue :=
  document
    [node_entry 1 0 0 0; node_entry 2 6 0 0; node_entry 3 6 4 0; node_entry 4 0 4 0;
     node_entry 1 5 0 0]
    [line_entry 1 1 2; line_entry 2 2 3; line_entry 3 3 4; line_entry 4 4 1]
    [("1", JNum 5.2)]
    [("1", JObj [("1", JNum 0); ("2", JNum 0.4); ("3", JNum 1); ("4", JNum 0.5)])].

(** The sample with the amplitudes of nodes 1 and 4 left out of mode 1. *)
Definition sparse_document : JsValue :=
  document
    [node_entry 1 0 0 0; node_entry 2 6 0 0; node_entry 3 6 4 0; node_entry 4 0 4 0]
    [line_entry 1 1 2; line_entry 2 2 3; line_entry 3 3 4; line_entry 4 4 1]
    [("1", JNum 5.2)]
    [("1", JObj [("2", JNum 0.4); ("3", JNum 1)])].

(** The sample with a single mode of frequency [1e308] Hz. *)
Definition stiff_document : JsValue :=
  document
    [node_entry 1 0 0 0; node_entry 2 6 0 0; node_entry 3 6 4 0; node_entry 4 0 4 0]
    [line_entry 1 1 2; line_entry 2 2 3; line_entry 3 3 4; line_entry 4 4 1]
    [("1", JNum 1e308)]
    [("1", JObj [("1", JNum 0); ("2", JNum 0.4); ("3", JNum 1); ("4", JNum 0.5)])].

(** [n] modes, numbered from 1, each of frequency 31 Hz. *)
Definition high_frequency_document (n : nat) : JsValue :=
  document
    [node_entry 1 0 0 0; node_entry 2 6 0 0]
    [line_entry 1 1 2]
    (map (fun i => (index_key i, JNum 31)) (seq 1 n))
    (map (fun i => (index_key i, JObj [("1", JNum 1); ("2", JNum 0.5)])) (seq 1 n)).

(** [n] lines, each from node 1 to node 1. *)
Definition self_loop_document (n : nat) : JsValue :=
  document
    [node_entry 1 0 0 0; node_entry 2 6 0 0]
    (map (fun i => line_entry (Number_basic (JStr (index_key i))) 1 1) (seq 1 n))
    [("1", JNum 5.2)]
    [("1", JObj [("1", JNum 1); ("2", JNum 0.5)])].

(** The controller built from the sample, and its nodes in reverse order. *)
Definition sample_controller : Animation.Controller :=
  Animation.constructor (parsed sample_document).

Definition sample_nodes : JsMap.t Node := nodes (parsed sample_document).

(** A floor whose four nodes sit at one point. *)
Definition point_nodes : JsMap.t Node :=
  [(1, mkNode 1 2 3 0); (2, mkNode 2 2 3 0); (3, mkNode 3 2 3 0);
   (4, mkNode 4 2 3 0)]%float.
End Examples.

(* ===================================================================== *)
(** * Part II: properties *)
(* ===================================================================== *)

(** ** Binary64 facts read off [SpecFloat] *)

Section FloatFacts.
Local Open Scope float_scope.
Import JsNum.

Lemma SFcompare_place a b :
  a <> S754_nan -> b <> S754_nan ->
  SFcompare a b = Some (place_compare (place a) (place b)).
Proof.
  intros Ha Hb.
  destruct a as [sa|sa| |sa ma ea], b as [sb|sb| |sb mb eb];
    try congruence; try (destruct sa); try (destruct sb); try reflexivity.
  cbn [SFcompare place place_compare].
  rewrite Z.compare_opp, (Z.compare_antisym ea eb).
  destruct (ea ?= eb)%Z; reflexivity.
Qed.

Lemma SFcompare_nan_l b : SFcompare S754_nan b = None.
Proof. reflexivity. Qed.

Lemma SFcompare_nan_r a : SFcompare a S754_nan = None.
Proof. destruct a; reflexivity. Qed.

Lemma place_compare_lt p q :
  place_compare p q = Lt <->
  let '(p1, p2, p3) := p in
  let '(q1, q2, q3) := q in
  (p1 < q1 \/ (p1 = q1 /\ (p2 < q2 \/ (p2 = q2 /\ p3 < q3))))%Z.
Proof.
  destruct p as [[p1 p2] p3], q as [[q1 q2] q3]. unfold place_compare.
  destruct (Z.compare_spec p1 q1), (Z.compare_spec p2 q2),
    (Z.compare_spec p3 q3); split; intros; try discriminate; try lia;
    reflexivity.
Qed.

Lemma place_compare_eq p q : place_compare p q = Eq <-> p = q.
Proof.
  destruct p as [[p1 p2] p3], q as [[q1 q2] q3]. unfold place_compare.
  destruct (Z.compare_spec p1 q1), (Z.compare_spec p2 q2),
    (Z.compare_spec p3 q3); split; intros H'; try discriminate;
    try reflexivity; try (inversion H'; lia); subst; reflexivity.
Qed.

Lemma place_compare_gt p q : place_compare p q = Gt <-> place_compare q p = Lt.
Proof.
  destruct p as [[p1 p2] p3], q as [[q1 q2] q3]. unfold place_compare.
  destruct (Z.compare_spec p1 q1), (Z.compare_spec p2 q2),
    (Z.compare_spec p3 q3), (Z.compare_spec q1 p1), (Z.compare_spec q2 p2),
    (Z.compare_spec q3 p3); split; intros; try discriminate; try lia;
    reflexivity.
Qed.

(** Two numbers at the same place are the same number, or two zeros. *)
Lemma place_inj a b :
  place a = place b ->
  a = b \/ (exists sa sb, a = S754_zero sa /\ b = S754_zero sb).
Proof.
  destruct a as [sa|sa| |sa ma ea], b as [sb|sb| |sb mb eb];
    try (destruct sa); try (destruct sb); cbn [place]; intros H;
    try discriminate; try (left; reflexivity);
    try (right; eexists; eexists; split; reflexivity).
  - inversion H. left. f_equal. lia.
  - inversion H. left. reflexivity.
Qed.

Lemma is_nan_SF x : is_nan x = true <-> Prim2SF x = S754_nan.
Proof.
  unfold is_nan. rewrite FloatAxioms.eqb_spec. unfold SFeqb.
  destruct (Prim2SF x) as [s|s| |s m e] eqn:E.
  - simpl. split; discriminate.
  - destruct s; simpl; split; discriminate.
  - simpl. split; reflexivity.
  - rewrite SFcompare_place by discriminate.
    replace (place_compare _ _) with Eq
      by (symmetry; apply place_compare_eq; reflexivity).
    simpl. split; discriminate.
Qed.

Lemma is_nan_eq x : is_nan x = true <-> x = nan.
Proof.
  rewrite is_nan_SF. split; intros H.
  - apply Prim2SF_inj. rewrite H. reflexivity.
  - subst. reflexivity.
Qed.

Lemma not_nan_SF x : is_nan x = false <-> Prim2SF x <> S754_nan.
Proof.
  rewrite <- is_nan_SF. destruct (is_nan x); split; congruence.
Qed.

Lemma is_zero_SF x : is_zero x = true <-> exists s, Prim2SF x = S754_zero s.
Proof.
  unfold is_zero. rewrite FloatAxioms.eqb_spec. unfold SFeqb.
  change (Prim2SF PrimFloat.zero) with (S754_zero false).
  destruct (Prim2SF x) as [s|s| |s m e] eqn:E; simpl.
  - split; eauto.
  - destruct s; split; try discriminate; intros [s' H]; discriminate.
  - split; try discriminate; intros [s' H]; discriminate.
  - destruct s; split; try discriminate; intros [s' H]; discriminate.
Qed.

Lemma is_zero_not_nan x : is_zero x = true -> is_nan x = false.
Proof.
  intros H. apply is_zero_SF in H as [s H]. apply not_nan_SF. congruence.
Qed.

Lemma normalize_zero_idem x : normalize_zero (normalize_zero x) = normalize_zero x.
Proof.
  unfold normalize_zero. destruct (is_zero x) eqn:E; [reflexivity | now rewrite E].
Qed.

Lemma fplace_normalize x : fplace (normalize_zero x) = fplace x.
Proof.
  unfold normalize_zero, fplace. destruct (is_zero x) eqn:E; [|reflexivity].
  apply is_zero_SF in E as [s E]. rewrite E. reflexivity.
Qed.

Lemma is_nan_normalize x : is_nan (normalize_zero x) = is_nan x.
Proof.
  unfold normalize_zero. destruct (is_zero x) eqn:E; [|reflexivity].
  rewrite (is_zero_not_nan x E). reflexivity.
Qed.

Lemma is_zero_normalize x : is_zero (normalize_zero x) = is_zero x.
Proof.
  unfold normalize_zero. destruct (is_zero x) eqn:E; [reflexivity | exact E].
Qed.

Lemma num_equiv_refl x : num_equiv x x.
Proof. reflexivity. Qed.

Lemma num_equiv_sym x y : num_equiv x y -> num_equiv y x.
Proof. unfold num_equiv. congruence. Qed.

Lemma num_equiv_trans x y z : num_equiv x y -> num_equiv y z -> num_equiv x z.
Proof. unfold num_equiv. congruence. Qed.

Lemma num_equiv_cases x y :
  num_equiv x y <-> x = y \/ (is_zero x = true /\ is_zero y = true).
Proof.
  unfold num_equiv, normalize_zero. split.
  - destruct (is_zero x) eqn:Ex, (is_zero y) eqn:Ey; intros H; auto.
    + subst y. discriminate Ey.
    + subst x. discriminate Ex.
  - intros [-> | [-> ->]]; reflexivity.
Qed.

Lemma num_equiv_fplace x y : num_equiv x y -> fplace x = fplace y.
Proof.
  intros H. rewrite <- (fplace_normalize x), <- (fplace_normalize y).
  now rewrite H.
Qed.

Lemma num_equiv_is_nan x y : num_equiv x y -> is_nan x = is_nan y.
Proof.
  intros H. rewrite <- (is_nan_normalize x), <- (is_nan_normalize y).
  now rewrite H.
Qed.

Lemma num_equiv_is_zero x y : num_equiv x y -> is_zero x = is_zero y.
Proof.
  intros H. rewrite <- (is_zero_normalize x), <- (is_zero_normalize y).
  now rewrite H.
Qed.

(** Numbers at the same place are equal as numbers. *)
Lemma fplace_num_equiv x y : fplace x = fplace y -> num_equiv x y.
Proof.
  intros H. apply num_equiv_cases.
  destruct (place_inj _ _ H) as [E | (sa & sb & Ea & Eb)].
  - left. now apply Prim2SF_inj.
  - right. split; apply is_zero_SF; eauto.
Qed.

Lemma fcompare_place x y :
  is_nan x = false -> is_nan y = false ->
  SFcompare (Prim2SF x) (Prim2SF y) = Some (place_compare (fplace x) (fplace y)).
Proof.
  intros Hx Hy. apply SFcompare_place; now apply not_nan_SF.
Qed.

Lemma fcompare_nan x y :
  is_nan x = true \/ is_nan y = true ->
  SFcompare (Prim2SF x) (Prim2SF y) = None.
Proof.
  intros [H | H]; apply is_nan_SF in H; rewrite H.
  - apply SFcompare_nan_l.
  - apply SFcompare_nan_r.
Qed.

Lemma ltb_place x y :
  (x <? y) = true <->
  is_nan x = false /\ is_nan y = false /\
  place_compare (fplace x) (fplace y) = Lt.
Proof.
  rewrite FloatAxioms.ltb_spec. unfold SFltb.
  destruct (is_nan x) eqn:Hx; [|destruct (is_nan y) eqn:Hy].
  - rewrite fcompare_nan by auto. split; [discriminate | intros (H & _); discriminate].
  - rewrite fcompare_nan by auto. split; [discriminate | intros (_ & H & _); discriminate].
  - rewrite fcompare_place by assumption.
    destruct (place_compare _ _); split; try discriminate; auto;
      intros (_ & _ & H); discriminate.
Qed.

Lemma leb_place x y :
  (x <=? y) = true <->
  is_nan x = false /\ is_nan y = false /\
  place_compare (fplace x) (fplace y) <> Gt.
Proof.
  rewrite FloatAxioms.leb_spec. unfold SFleb.
  destruct (is_nan x) eqn:Hx; [|destruct (is_nan y) eqn:Hy].
  - rewrite fcompare_nan by auto. split; [discriminate | intros (H & _); discriminate].
  - rewrite fcompare_nan by auto. split; [discriminate | intros (_ & H & _); discriminate].
  - rewrite fcompare_place by assumption.
    destruct (place_compare _ _); split; try discriminate; auto;
      try (intros _; repeat split; discriminate);
      intros (_ & _ & H); congruence.
Qed.

Lemma eqb_place x y :
  (x =? y) = true <->
  is_nan x = false /\ is_nan y = false /\ fplace x = fplace y.
Proof.
  rewrite FloatAxioms.eqb_spec. unfold SFeqb.
  destruct (is_nan x) eqn:Hx; [|destruct (is_nan y) eqn:Hy].
  - rewrite fcompare_nan by auto. split; [discriminate | intros (H & _); discriminate].
  - rewrite fcompare_nan by auto. split; [discriminate | intros (_ & H & _); discriminate].
  - rewrite fcompare_place by assumption.
    destruct (place_compare _ _) eqn:E; split; try discriminate.
    + intros _. repeat split. now apply place_compare_eq.
    + reflexivity.
    + intros (_ & _ & H). apply place_compare_eq in H. congruence.
    + intros (_ & _ & H). apply place_compare_eq in H. congruence.
Qed.

(** SameValueZero is equality up to the sign of zero. *)
Lemma svz_spec x y : same_value_zero x y = true <-> num_equiv x y.
Proof.
  unfold same_value_zero. rewrite orb_true_iff, andb_true_iff, eqb_place. split.
  - intros [(_ & _ & H) | [Hx Hy]].
    + now apply fplace_num_equiv.
    + apply is_nan_eq in Hx, Hy. subst. reflexivity.
  - intros H. destruct (is_nan x) eqn:Hx.
    + right. split; [reflexivity|]. now rewrite <- (num_equiv_is_nan _ _ H).
    + left. repeat split.
      * now rewrite <- (num_equiv_is_nan _ _ H).
      * now apply num_equiv_fplace.
Qed.

Lemma svz_false x y : same_value_zero x y = false <-> ~ num_equiv x y.
Proof.
  rewrite <- svz_spec. destruct (same_value_zero x y); split; congruence.
Qed.

Lemma svz_refl x : same_value_zero x x = true.
Proof. apply svz_spec. reflexivity. Qed.

Lemma svz_sym x y : same_value_zero x y = same_value_zero y x.
Proof.
  destruct (same_value_zero y x) eqn:E.
  - apply svz_spec, num_equiv_sym, svz_spec, E.
  - apply svz_false. intros H. apply svz_false in E. apply E.
    now apply num_equiv_sym.
Qed.

Lemma svz_normalize_l x y : same_value_zero (normalize_zero x) y = same_value_zero x y.
Proof.
  destruct (same_value_zero x y) eqn:E.
  - apply svz_spec. apply svz_spec in E. unfold num_equiv in *.
    now rewrite normalize_zero_idem.
  - apply svz_false. apply svz_false in E. unfold num_equiv in *.
    now rewrite normalize_zero_idem.
Qed.

(** The order [<] on numbers. *)
Lemma ltb_trans x y z : (x <? y) = true -> (y <? z) = true -> (x <? z) = true.
Proof.
  rewrite !ltb_place, !place_compare_lt.
  destruct (fplace x) as [[x1 x2] x3], (fplace y) as [[y1 y2] y3],
    (fplace z) as [[z1 z2] z3].
  intros (Hx & Hy & H1) (_ & Hz & H2). repeat split; auto. lia.
Qed.

Lemma ltb_asym x y : (x <? y) = true -> (y <? x) = false.
Proof.
  intros H. destruct (y <? x) eqn:E; [|reflexivity].
  revert H E. rewrite !ltb_place, !place_compare_lt.
  destruct (fplace x) as [[x1 x2] x3], (fplace y) as [[y1 y2] y3].
  intros (_ & _ & H1) (_ & _ & H2). lia.
Qed.

Lemma ltb_not_nan x y : (x <? y) = true -> is_nan x = false /\ is_nan y = false.
Proof. rewrite ltb_place. tauto. Qed.

Lemma ltb_incomparable x y :
  is_nan x = false -> is_nan y = false ->
  (x <? y) = false -> (y <? x) = false -> num_equiv x y.
Proof.
  intros Hx Hy H1 H2. apply fplace_num_equiv.
  destruct (place_compare (fplace x) (fplace y)) eqn:E.
  - now apply place_compare_eq.
  - assert ((x <? y) = true) by (apply ltb_place; auto). congruence.
  - apply place_compare_gt in E.
    assert ((y <? x) = true) by (apply ltb_place; auto). congruence.
Qed.

Lemma ltb_num_equiv x x' y y' :
  num_equiv x x' -> num_equiv y y' -> (x <? y) = (x' <? y').
Proof.
  intros Hx Hy.
  destruct (x' <? y') eqn:E.
  - apply ltb_place. apply ltb_place in E.
    now rewrite (num_equiv_is_nan _ _ Hx), (num_equiv_is_nan _ _ Hy),
      (num_equiv_fplace _ _ Hx), (num_equiv_fplace _ _ Hy).
  - destruct (x <? y) eqn:E'; [|reflexivity].
    apply ltb_place in E'.
    rewrite (num_equiv_is_nan _ _ Hx), (num_equiv_is_nan _ _ Hy),
      (num_equiv_fplace _ _ Hx), (num_equiv_fplace _ _ Hy) in E'.
    apply ltb_place in E'. congruence.
Qed.

Lemma ltb_leb x y : (x <? y) = true -> (x <=? y) = true.
Proof.
  rewrite ltb_place, leb_place. intros (Hx & Hy & H). repeat split; auto.
  congruence.
Qed.

Lemma not_ltb_leb x y :
  is_nan x = false -> is_nan y = false -> (y <? x) = false -> (x <=? y) = true.
Proof.
  intros Hx Hy H. apply leb_place. repeat split; auto.
  intros E. apply place_compare_gt in E.
  assert ((y <? x) = true) by (apply ltb_place; auto). congruence.
Qed.

Lemma leb_refl x : is_nan x = false -> (x <=? x) = true.
Proof.
  intros H. apply leb_place. repeat split; auto.
  replace (place_compare _ _) with Eq
    by (symmetry; apply place_compare_eq; reflexivity).
  discriminate.
Qed.

Lemma leb_trans x y z : (x <=? y) = true -> (y <=? z) = true -> (x <=? z) = true.
Proof.
  rewrite !leb_place.
  intros (Hx & Hy & H1) (_ & Hz & H2). repeat split; auto.
  intros E. apply place_compare_gt, place_compare_lt in E.
  assert (G1 : place_compare (fplace y) (fplace x) <> Lt)
    by (intros G; apply place_compare_gt in G; congruence).
  assert (G2 : place_compare (fplace z) (fplace y) <> Lt)
    by (intros G; apply place_compare_gt in G; congruence).
  rewrite place_compare_lt in G1, G2.
  destruct (fplace x) as [[x1 x2] x3], (fplace y) as [[y1 y2] y3],
    (fplace z) as [[z1 z2] z3]. lia.
Qed.

(** Finite numbers, zeros and the arithmetic of zero. *)
Lemma is_finite_SF x :
  is_finite x = true <->
  match Prim2SF x with
  | S754_zero _ | S754_finite _ _ _ => True
  | _ => False
  end.
Proof.
  unfold is_finite, is_infinity.
  rewrite FloatAxioms.eqb_spec, abs_spec.
  change (Prim2SF infinity) with (S754_infinity false).
  destruct (is_nan x) eqn:Hn.
  - apply is_nan_SF in Hn. rewrite Hn. simpl. split; [discriminate | tauto].
  - apply not_nan_SF in Hn.
    destruct (Prim2SF x) as [s|s| |s m e]; simpl; try tauto;
      split; try discriminate; tauto.
Qed.

Lemma is_zero_is_finite x : is_zero x = true -> is_finite x = true.
Proof.
  intros H. apply is_finite_SF. apply is_zero_SF in H as [s ->]. exact I.
Qed.

Lemma mul_finite_zero x z :
  is_finite x = true -> is_zero z = true -> is_zero (x * z) = true.
Proof.
  intros Hx Hz. apply is_finite_SF in Hx. apply is_zero_SF in Hz as [sz Hz].
  apply is_zero_SF. rewrite mul_spec, Hz.
  destruct (Prim2SF x) as [s|s| |s m e]; try contradiction; simpl; eauto.
Qed.

Lemma add_zero_r z w : is_zero w = true -> num_equiv (z + w) z.
Proof.
  intros Hw. apply is_zero_SF in Hw as [sw Hw]. apply num_equiv_cases.
  destruct (Prim2SF z) as [s|s| |s m e] eqn:Ez.
  - right. split; apply is_zero_SF; [|eauto].
    rewrite add_spec, Ez, Hw. destruct s, sw; simpl; eauto.
  - left. apply Prim2SF_inj. rewrite add_spec, Ez, Hw. reflexivity.
  - left. apply Prim2SF_inj. rewrite add_spec, Ez, Hw. reflexivity.
  - left. apply Prim2SF_inj. rewrite add_spec, Ez, Hw. reflexivity.
Qed.

Lemma Prim2SF_nan_eq x : Prim2SF x = S754_nan -> x = nan.
Proof. intros H. apply Prim2SF_inj. rewrite H. reflexivity. Qed.

Lemma mul_nan_r x : x * nan = nan.
Proof.
  apply Prim2SF_nan_eq. rewrite mul_spec.
  change (Prim2SF nan) with S754_nan. destruct (Prim2SF x); reflexivity.
Qed.

Lemma add_nan_r x : x + nan = nan.
Proof.
  apply Prim2SF_nan_eq. rewrite add_spec.
  change (Prim2SF nan) with S754_nan. destruct (Prim2SF x); reflexivity.
Qed.

(** [0 * Infinity] and [0 * NaN] are [NaN]. *)
Lemma mul_not_finite_zero x z :
  is_finite x = false -> is_zero z = true -> x * z = nan.
Proof.
  intros Hx Hz. apply is_zero_SF in Hz as [sz Hz].
  apply Prim2SF_nan_eq. rewrite mul_spec, Hz.
  destruct (Prim2SF x) as [s|s| |s m e] eqn:E; try reflexivity.
  - assert (is_finite x = true) by (apply is_finite_SF; now rewrite E).
    congruence.
  - assert (is_finite x = true) by (apply is_finite_SF; now rewrite E).
    congruence.
Qed.

Lemma add_infinity_finite c : is_finite c = true -> infinity + c = infinity.
Proof.
  intros Hc. apply is_finite_SF in Hc. apply Prim2SF_inj. rewrite add_spec.
  change (Prim2SF infinity) with (S754_infinity false).
  destruct (Prim2SF c); try contradiction; reflexivity.
Qed.

Lemma add_neg_infinity_finite c :
  is_finite c = true -> neg_infinity + c = neg_infinity.
Proof.
  intros Hc. apply is_finite_SF in Hc. apply Prim2SF_inj. rewrite add_spec.
  change (Prim2SF neg_infinity) with (S754_infinity true).
  destruct (Prim2SF c); try contradiction; reflexivity.
Qed.

(** Subtraction maps numbers equal up to the sign of zero to such numbers. *)
Lemma sub_zero_l z z' b :
  is_zero z = true -> is_zero z' = true -> num_equiv (z - b) (z' - b).
Proof.
  intros Hz Hz'. apply is_zero_SF in Hz as [s Hz], Hz' as [s' Hz'].
  apply num_equiv_cases.
  destruct (Prim2SF b) as [sb|sb| |sb mb eb] eqn:Eb.
  - right. split; apply is_zero_SF; rewrite sub_spec, ?Hz, ?Hz', Eb.
    + destruct s, sb; simpl; eauto.
    + destruct s', sb; simpl; eauto.
  - left. apply Prim2SF_inj. rewrite !sub_spec, Hz, Hz', Eb. reflexivity.
  - left. apply Prim2SF_inj. rewrite !sub_spec, Hz, Hz', Eb. reflexivity.
  - left. apply Prim2SF_inj. rewrite !sub_spec, Hz, Hz', Eb. reflexivity.
Qed.

Lemma sub_zero_r a z z' :
  is_zero z = true -> is_zero z' = true -> num_equiv (a - z) (a - z').
Proof.
  intros Hz Hz'. apply is_zero_SF in Hz as [s Hz], Hz' as [s' Hz'].
  apply num_equiv_cases.
  destruct (Prim2SF a) as [sa|sa| |sa ma ea] eqn:Ea.
  - right. split; apply is_zero_SF; rewrite sub_spec, ?Hz, ?Hz', Ea.
    + destruct sa, s; simpl; eauto.
    + destruct sa, s'; simpl; eauto.
  - left. apply Prim2SF_inj. rewrite !sub_spec, Hz, Hz', Ea. reflexivity.
  - left. apply Prim2SF_inj. rewrite !sub_spec, Hz, Hz', Ea. reflexivity.
  - left. apply Prim2SF_inj. rewrite !sub_spec, Hz, Hz', Ea. reflexivity.
Qed.

Lemma sub_num_equiv a a' b b' :
  num_equiv a a' -> num_equiv b b' -> num_equiv (a - b) (a' - b').
Proof.
  intros Ha Hb.
  apply num_equiv_cases in Ha as [-> | [Ha Ha']];
    apply num_equiv_cases in Hb as [-> | [Hb Hb']].
  - reflexivity.
  - now apply sub_zero_r.
  - now apply sub_zero_l.
  - eapply num_equiv_trans; [apply sub_zero_l | apply sub_zero_r]; eassumption.
Qed.

Lemma Math_max_num_equiv a a' b b' :
  num_equiv a a' -> num_equiv b b' -> num_equiv (Math_max a b) (Math_max a' b').
Proof.
  intros Ha Hb. unfold Math_max.
  rewrite (num_equiv_is_nan _ _ Ha), (num_equiv_is_nan _ _ Hb).
  destruct (is_nan a' || is_nan b'); [reflexivity|].
  rewrite (ltb_num_equiv _ _ _ _ Ha Hb).
  assert (Z : forall u v u' v',
             num_equiv u u' -> num_equiv v v' ->
             Leibniz.eqb v 0 && Leibniz.eqb u (-0) = true ->
             num_equiv 0 (if u' <? v' then v' else u')).
  { intros u v u' v' Hu Hv E. apply andb_true_iff in E as [E1 E2].
    apply Leibniz.eqb_spec in E1, E2. subst u v.
    apply num_equiv_is_zero in Hu, Hv.
    apply num_equiv_cases. right. split; [reflexivity|].
    destruct (u' <? v'); [rewrite <- Hv | rewrite <- Hu]; reflexivity. }
  destruct (Leibniz.eqb b 0 && Leibniz.eqb a (-0)) eqn:E1,
    (Leibniz.eqb b' 0 && Leibniz.eqb a' (-0)) eqn:E2.
  - reflexivity.
  - exact (Z _ _ _ _ Ha Hb E1).
  - apply num_equiv_sym. rewrite <- (ltb_num_equiv _ _ _ _ Ha Hb).
    exact (Z _ _ _ _ (num_equiv_sym _ _ Ha) (num_equiv_sym _ _ Hb) E2).
  - destruct (a' <? b'); assumption.
Qed.

Lemma zero_to_one_num_equiv l l' :
  num_equiv l l' ->
  (if strict_equal l 0 then 1 else l) = (if strict_equal l' 0 then 1 else l').
Proof.
  intros H. change (strict_equal l 0) with (is_zero l).
  change (strict_equal l' 0) with (is_zero l').
  rewrite (num_equiv_is_zero _ _ H). destruct (is_zero l') eqn:E; [reflexivity|].
  apply num_equiv_cases in H as [H | [_ H]]; congruence.
Qed.

(** [Math.max(lo, Math.min(hi, s))] lies between [lo] and [hi] for every
    number [s]. *)
Lemma Math_min_upper hi s :
  is_nan hi = false -> is_nan s = false ->
  is_nan (Math_min hi s) = false /\ (Math_min hi s <=? hi) = true.
Proof.
  intros Hh Hs. unfold Math_min. rewrite Hh, Hs. cbn [orb].
  destruct (Leibniz.eqb s (-0) && Leibniz.eqb hi 0) eqn:E.
  - apply andb_true_iff in E as [_ E]. apply Leibniz.eqb_spec in E. subst hi.
    split; reflexivity.
  - destruct (s <? hi) eqn:L.
    + split; [assumption | now apply ltb_leb].
    + split; [assumption | now apply leb_refl].
Qed.

Lemma clamp_in_range lo hi s :
  (lo <=? hi) = true -> is_nan s = false ->
  (lo <=? Math_max lo (Math_min hi s)) = true /\
  (Math_max lo (Math_min hi s) <=? hi) = true.
Proof.
  intros Hlh Hs.
  destruct (proj1 (leb_place lo hi) Hlh) as (Hlo & Hhi & _).
  destruct (Math_min_upper hi s Hhi Hs) as [Hm Hmh].
  set (m := Math_min hi s) in *. unfold Math_max. rewrite Hlo, Hm. cbn [orb].
  destruct (Leibniz.eqb m 0 && Leibniz.eqb lo (-0)) eqn:E.
  - apply andb_true_iff in E as [E1 E2]. apply Leibniz.eqb_spec in E1, E2.
    rewrite <- E1. subst lo. split; [|assumption]. rewrite E1. reflexivity.
  - destruct (lo <? m) eqn:L.
    + split; [now apply ltb_leb | assumption].
    + split; [now apply leb_refl | assumption].
Qed.
End FloatFacts.

(** ** [Map] and [Set] facts *)

Section MapFacts.
Import JsNum.

Ltac svz_prop :=
  repeat match goal with
    | H : same_value_zero _ _ = true |- _ =>
        apply svz_spec in H; unfold num_equiv in H
    | H : same_value_zero _ _ = false |- _ =>
        apply svz_false in H; unfold num_equiv in H
    end.

Ltac svz_cases :=
  repeat match goal with
    | |- context [same_value_zero ?a ?b] =>
        let E := fresh "E" in destruct (same_value_zero a b) eqn:E
    end;
  svz_prop; try reflexivity; try congruence.

Lemma get_set {V} (m : JsMap.t V) k v q :
  JsMap.get (JsMap.set m k v) q =
  if same_value_zero k q then Some v else JsMap.get m q.
Proof.
  induction m as [|[k' v'] rest IH]; cbn [JsMap.set JsMap.get].
  - rewrite svz_normalize_l. reflexivity.
  - destruct (same_value_zero k' k) eqn:E; cbn [JsMap.get].
    + svz_cases.
    + rewrite IH. svz_cases.
Qed.

Lemma has_get {V} (m : JsMap.t V) k :
  JsMap.has m k = true <-> exists v, JsMap.get m k = Some v.
Proof.
  unfold JsMap.has. destruct (JsMap.get m k); split; eauto; try discriminate.
  intros [v H]. discriminate.
Qed.

Lemma has_In {V} (m : JsMap.t V) k :
  JsMap.has m k = true <->
  exists k', In k' (JsMap.keys m) /\ same_value_zero k' k = true.
Proof.
  unfold JsMap.has. induction m as [|[k' v'] rest IH]; cbn [JsMap.get JsMap.keys map In fst].
  - split; [discriminate | intros (? & [] & _)].
  - destruct (same_value_zero k' k) eqn:E.
    + split; eauto.
    + rewrite IH. unfold JsMap.keys. split.
      * intros (k0 & Hin & Hk). eauto.
      * intros (k0 & [<- | Hin] & Hk); [congruence | eauto].
Qed.

Lemma find_app {A} (f : A -> bool) l1 l2 :
  find f (l1 ++ l2) =
  match find f l1 with
  | Some a => Some a
  | None => find f l2
  end.
Proof.
  induction l1 as [|a l1 IH]; simpl; [reflexivity|].
  destruct (f a); [reflexivity | exact IH].
Qed.

(** After a loop of [set]s the last entry written under a key is the one
    read. *)
Lemma get_fold_set {A V} (f : A -> float) (g : A -> V) l (m0 : JsMap.t V) q :
  JsMap.get (fold_left (fun m e => JsMap.set m (f e) (g e)) l m0) q =
  match find (fun e => same_value_zero (f e) q) (rev l) with
  | Some e => Some (g e)
  | None => JsMap.get m0 q
  end.
Proof.
  revert m0. induction l as [|a l IH]; intros m0; cbn [fold_left rev].
  - reflexivity.
  - rewrite IH, find_app, get_set. cbn [find].
    destruct (find _ (rev l)); [reflexivity|].
    destruct (same_value_zero (f a) q); reflexivity.
Qed.

Lemma keys_set {V} (m : JsMap.t V) k v :
  JsMap.keys (JsMap.set m k v) =
  if JsMap.has m k then JsMap.keys m
  else JsMap.keys m ++ [normalize_zero k].
Proof.
  unfold JsMap.has.
  induction m as [|[k' v'] rest IH]; cbn [JsMap.set JsMap.get JsMap.keys map fst app].
  - reflexivity.
  - destruct (same_value_zero k' k) eqn:E; cbn [JsMap.keys map fst].
    + reflexivity.
    + unfold JsMap.keys in IH. rewrite IH.
      destruct (JsMap.get rest k); reflexivity.
Qed.

Lemma distinct_keys_app ks k :
  JsMap.distinct_keys ks ->
  (forall k', In k' ks -> same_value_zero k' k = false) ->
  JsMap.distinct_keys (ks ++ [k]).
Proof.
  induction ks as [|k0 ks IH]; cbn [JsMap.distinct_keys app].
  - intros _ _. split; [intros ? [] | exact I].
  - intros [H0 Hd] Hk. split.
    + intros k' Hin. apply in_app_or in Hin as [Hin | [<- | []]].
      * now apply H0.
      * apply Hk. now left.
    + apply IH; [assumption|]. intros k' Hin. apply Hk. now right.
Qed.

Lemma wf_empty {V} : JsMap.wf (@JsMap.empty V).
Proof. split; [exact I | intros ? []]. Qed.

Lemma wf_set {V} (m : JsMap.t V) k v : JsMap.wf m -> JsMap.wf (JsMap.set m k v).
Proof.
  intros [Hd Hn]. unfold JsMap.wf. rewrite keys_set.
  destruct (JsMap.has m k) eqn:Hh; [split; assumption|].
  split.
  - apply distinct_keys_app; [assumption|].
    intros k' Hin. rewrite svz_sym, svz_normalize_l, svz_sym.
    destruct (same_value_zero k' k) eqn:E; [|reflexivity].
    assert (JsMap.has m k = true) by (apply has_In; eauto). congruence.
  - intros k' Hin. apply in_app_or in Hin as [Hin | [<- | []]].
    + now apply Hn.
    + apply normalize_zero_idem.
Qed.

Lemma wf_fold_set {A V} (f : A -> float) (g : A -> V) l (m0 : JsMap.t V) :
  JsMap.wf m0 ->
  JsMap.wf (fold_left (fun m e => JsMap.set m (f e) (g e)) l m0).
Proof.
  revert m0. induction l as [|a l IH]; intros m0 H; cbn [fold_left].
  - assumption.
  - apply IH. now apply wf_set.
Qed.

Lemma set_fresh {V} (m : JsMap.t V) k v :
  JsMap.has m k = false -> JsMap.set m k v = m ++ [(normalize_zero k, v)].
Proof.
  unfold JsMap.has.
  induction m as [|[k' v'] rest IH]; cbn [JsMap.set JsMap.get app]; intros H.
  - reflexivity.
  - destruct (same_value_zero k' k); [discriminate|]. now rewrite IH.
Qed.

Lemma distinct_keys_permutation ks ks' :
  Permutation ks ks' -> JsMap.distinct_keys ks -> JsMap.distinct_keys ks'.
Proof.
  intros P. induction P as [|x l l' P IH|x y l|l1 l2 l3 P1 IH1 P2 IH2];
    cbn [JsMap.distinct_keys].
  - auto.
  - intros [Hx Hd]. split; [|now apply IH].
    intros k' Hin. apply Hx. apply (Permutation_in _ (Permutation_sym P) Hin).
  - intros [Hy [Hx Hd]]. repeat split; [|intros k' Hin; apply Hy; now right|assumption].
    intros k' [<- | Hin].
    + rewrite svz_sym. apply Hy. now left.
    + now apply Hx.
  - auto.
Qed.

Lemma set_has_In (s : JsSet.t) k :
  JsSet.has s k = true <-> exists k', In k' s /\ same_value_zero k' k = true.
Proof.
  unfold JsSet.has. rewrite existsb_exists. reflexivity.
Qed.

Lemma set_add_In (s : JsSet.t) k k' :
  In k' (JsSet.add s k) -> In k' s \/ k' = normalize_zero k.
Proof.
  unfold JsSet.add. destruct (JsSet.has s k); [auto|].
  intros H. apply in_app_or in H as [H | [<- | []]]; auto.
Qed.
End MapFacts.

(** ** The parser fills every mode shape *)

Section ParserFacts.
Import JsNum Parser.
Local Open Scope string_scope.
Local Open Scope list_scope.

Variable Number : JsValue -> float.

Lemma parseFloorData_modes data d :
  parseFloorData Number data = Some d ->
  exists ms, prop data "modes" = Some ms /\
             modes d = parseModes Number (nodes d) ms.
Proof.
  unfold parseFloorData. intros H.
  destruct (prop data "meta"); [|discriminate].
  destruct (prop data "nodes") as [ns|]; [|discriminate].
  destruct (match ns with
            | JArr items => parseNodes Number items (JsMap.empty, JsMap.empty)
            | _ => Some (JsMap.empty, JsMap.empty)
            end) as [parsed|]; [|discriminate].
  destruct (prop data "lines") as [ls|]; [|discriminate].
  destruct (match ls with
            | JArr items => parseLines Number items []
            | _ => Some []
            end); [|discriminate].
  destruct (prop data "freqHz"); [|discriminate].
  destruct (prop data "modes") as [ms|]; [|discriminate].
  inversion H. subst d. cbn [modes nodes]. eauto.
Qed.

(** The map of zeros has an entry [0.0] for every node id. *)
Lemma zeros_get (ns : JsMap.t Node) nodeId :
  JsMap.has ns nodeId = true ->
  JsMap.get (fold_left (fun uzMap id => JsMap.set uzMap id 0%float)
                       (JsMap.keys ns) JsMap.empty) nodeId = Some 0%float.
Proof.
  intros H. apply has_In in H as (k & Hin & Hk).
  rewrite (get_fold_set (fun id : float => id) (fun _ => 0%float)).
  destruct (find _ (rev (JsMap.keys ns))) eqn:F; [reflexivity|].
  apply find_none with (x := k) in F; [congruence | now apply in_rev in Hin].
Qed.

Lemma parseModeShape_defined ns modeVal nodeId :
  JsMap.has ns nodeId = true ->
  exists uz, JsMap.get (parseModeShape Number ns modeVal) nodeId = Some uz.
Proof.
  intros H. unfold parseModeShape.
  destruct (is_object modeVal); [|rewrite zeros_get; eauto].
  rewrite (get_fold_set (fun e : string * JsValue => Number (JStr (fst e)))
                        (fun e => Number (snd e))).
  destruct (find _ _); [eauto | rewrite zeros_get; eauto].
Qed.

Lemma parseModeShape_default ns modeVal nodeId :
  JsMap.has ns nodeId = true ->
  is_object modeVal &&
  existsb (fun ne => same_value_zero (Number (JStr (fst ne))) nodeId)
          (Object_entries modeVal) = false ->
  JsMap.get (parseModeShape Number ns modeVal) nodeId = Some 0%float.
Proof.
  intros H Hsrc. unfold parseModeShape.
  destruct (is_object modeVal); [|now apply zeros_get].
  cbn [andb] in Hsrc.
  rewrite (get_fold_set (fun e : string * JsValue => Number (JStr (fst e)))
                        (fun e => Number (snd e))).
  destruct (find _ _) as [e|] eqn:F; [|now apply zeros_get].
  apply find_some in F as [Hin He]. apply in_rev in Hin.
  assert (existsb (fun ne => same_value_zero (Number (JStr (fst ne))) nodeId)
                  (Object_entries modeVal) = true)
    by (apply existsb_exists; eauto).
  congruence.
Qed.

(** The shape stored for a mode number comes from a source entry whose key
    denotes that number. *)
Lemma parseModes_get ns ms modeNum uzMap :
  JsMap.get (parseModes Number ns ms) modeNum = Some uzMap ->
  is_object ms = true /\
  exists e, In e (Object_entries ms) /\
            same_value_zero (Number (JStr (fst e))) modeNum = true /\
            uzMap = parseModeShape Number ns (snd e).
Proof.
  unfold parseModes. destruct (is_object ms); [|discriminate].
  rewrite (get_fold_set (fun e : string * JsValue => Number (JStr (fst e)))
                        (fun e => parseModeShape Number ns (snd e))).
  destruct (find _ _) as [e|] eqn:F; [|discriminate].
  intros H. inversion H. subst uzMap.
  apply find_some in F as [Hin He]. apply in_rev in Hin. eauto.
Qed.

Lemma parseModes_has ns ms e :
  is_object ms = true -> In e (Object_entries ms) ->
  JsMap.has (parseModes Number ns ms) (Number (JStr (fst e))) = true.
Proof.
  intros Ho Hin. apply has_get. unfold parseModes. rewrite Ho.
  rewrite (get_fold_set (fun e : string * JsValue => Number (JStr (fst e)))
                        (fun e => parseModeShape Number ns (snd e))).
  destruct (find _ _) as [e'|] eqn:F; [eauto|].
  apply find_none with (x := e) in F; [|now apply in_rev in Hin].
  rewrite svz_refl in F. discriminate.
Qed.

(** C4.  For every mode the source defines (an entry of [modes]) and every
    node id of the nodes mapping, the parsed mode shape holds an amplitude
    for that node, and the amplitude is [0.0] when the source gives none
    for that node under any key denoting that mode. *)
Theorem parse_fills_missing_amplitudes data d ms modeKey modeVal nodeId :
  parseFloorData Number data = Some d ->
  prop data "modes" = Some ms ->
  is_object ms = true ->
  In (modeKey, modeVal) (Object_entries ms) ->
  JsMap.has (nodes d) nodeId = true ->
  exists uzMap uz,
    JsMap.get (modes d) (Number (JStr modeKey)) = Some uzMap /\
    JsMap.get uzMap nodeId = Some uz /\
    (source_gives_amplitude Number data (Number (JStr modeKey)) nodeId = false ->
     uz = 0%float).
Proof.
  intros Hp Hms Ho Hin Hn.
  destruct (parseFloorData_modes _ _ Hp) as (ms' & Hms' & Hm).
  assert (ms' = ms) by congruence. subst ms'.
  pose proof (parseModes_has (nodes d) ms (modeKey, modeVal) Ho Hin) as Hh.
  cbn [fst] in Hh. apply has_get in Hh as [uzMap Hg].
  rewrite <- Hm in Hg.
  pose proof Hg as Hg'. rewrite Hm in Hg'.
  apply parseModes_get in Hg' as (_ & e & Hine & Hke & ->).
  destruct (parseModeShape_defined (nodes d) (snd e) nodeId Hn) as [uz Huz].
  exists (parseModeShape Number (nodes d) (snd e)), uz.
  repeat split; try assumption.
  intros Hsrc. unfold source_gives_amplitude in Hsrc. rewrite Hms, Ho in Hsrc.
  cbn [andb] in Hsrc.
  assert (Hd : is_object (snd e) &&
               existsb (fun ne => same_value_zero (Number (JStr (fst ne))) nodeId)
                       (Object_entries (snd e)) = false).
  { destruct (is_object (snd e) && existsb _ (Object_entries (snd e))) eqn:E;
      [|reflexivity].
    assert (existsb
              (fun me =>
                 same_value_zero (Number (JStr (fst me))) (Number (JStr modeKey)) &&
                 is_object (snd me) &&
                 existsb (fun ne => same_value_zero (Number (JStr (fst ne))) nodeId)
                         (Object_entries (snd me)))
              (Object_entries ms) = true).
    { apply existsb_exists. exists e. split; [assumption|].
      rewrite Hke, <- andb_assoc. exact E. }
    congruence. }
  rewrite (parseModeShape_default (nodes d) (snd e) nodeId Hn Hd) in Huz.
  congruence.
Qed.
End ParserFacts.

(** ** Invariants of the validator's report *)

Section CheckInvariants.
Import Validator.
Local Open Scope list_scope.

Variables Pn Pr : Report -> Prop.

Hypothesis Pn_Pr : forall r, Pn r -> Pr r.
Hypothesis Pn_warning : forall c msg, keeps Pn Pr (warning c msg).
Hypothesis Pn_error :
  forall c msg, c <> E_NODE_DUPLICATE -> keeps Pn Pr (error c msg).

Lemma keeps_ret A (a : A) : keeps Pn Pr (ret a).
Proof. intros r H. exact H. Qed.

Lemma keeps_bind A B (c : Check A) (k : A -> Check B) :
  keeps Pn Pr c -> (forall a, keeps Pn Pr (k a)) -> keeps Pn Pr (bind c k).
Proof.
  intros Hc Hk r H. unfold bind. specialize (Hc r H).
  destruct (c r) as [a r'|r']; [now apply Hk | exact Hc].
Qed.

Lemma keeps_when b (c : Check unit) : keeps Pn Pr c -> keeps Pn Pr (when b c).
Proof. intros H. destruct b; [exact H | apply keeps_ret]. Qed.

Lemma keeps_return_report : keeps Pn Pr return_report.
Proof. intros r H. now apply Pn_Pr. Qed.

Lemma keeps_errors_length : keeps Pn Pr errors_length.
Proof. intros r H. exact H. Qed.

Lemma keeps_for_each A (body : A -> Check unit) l :
  (forall a, keeps Pn Pr (body a)) -> keeps Pn Pr (for_each body l).
Proof.
  intros H. induction l as [|a l IH]; cbn [for_each].
  - apply keeps_ret.
  - apply keeps_bind; [apply H | intros _; exact IH].
Qed.

Ltac keeps_step :=
  first
    [ apply keeps_ret
    | apply keeps_return_report
    | apply keeps_errors_length
    | apply Pn_warning
    | apply Pn_error; discriminate
    | apply keeps_when
    | apply keeps_bind; [|intros ?]
    | apply keeps_for_each; intros ? ].

Lemma keeps_check_required d : keeps Pn Pr (check_required d).
Proof. unfold check_required, missing_key. repeat keeps_step. Qed.

Lemma keeps_check_line_list ns ls seen i : keeps Pn Pr (check_line_list ns ls seen i).
Proof.
  revert seen i. induction ls as [|line rest IH]; intros seen i;
    cbn [check_line_list].
  - apply keeps_ret.
  - unfold check_line_nodes. destruct ns; repeat keeps_step; apply IH.
Qed.

Lemma keeps_check_lines ns ls : keeps Pn Pr (check_lines ns ls).
Proof.
  unfold check_lines. repeat keeps_step.
  destruct ls; [apply keeps_check_line_list | apply keeps_ret].
Qed.

Lemma keeps_check_freqHz f : keeps Pn Pr (check_freqHz f).
Proof.
  unfold check_freqHz. destruct f; repeat keeps_step.
  unfold check_freq. destruct a as [modeNum freq].
  repeat keeps_step.
  destruct (PrimFloat.is_nan freq); [|destruct (negb (is_finite freq));
    [|destruct (freq <=? 0)%float]]; repeat keeps_step.
Qed.

Lemma keeps_check_mode_freq_match ms f : keeps Pn Pr (check_mode_freq_match ms f).
Proof.
  unfold check_mode_freq_match. destruct ms, f; repeat keeps_step.
Qed.

Lemma keeps_check_uz ns modeNum entries allZero :
  keeps Pn Pr (check_uz ns modeNum entries allZero).
Proof.
  revert allZero. induction entries as [|[nodeId uz] rest IH]; intros allZero;
    cbn [check_uz].
  - apply keeps_ret.
  - repeat keeps_step; [|apply IH].
    destruct (PrimFloat.is_nan uz); [|destruct (negb (is_finite uz));
      [|destruct (EPS <? JsNum.Math_abs uz)%float]]; repeat keeps_step.
Qed.

Lemma keeps_check_modes ms ns : keeps Pn Pr (check_modes ms ns).
Proof.
  unfold check_modes. destruct ms, ns; repeat keeps_step.
  unfold check_mode. destruct a as [modeNum uzMap].
  repeat keeps_step. apply keeps_check_uz.
Qed.

Lemma keeps_check_z_mixed ns : keeps Pn Pr (check_z_mixed ns).
Proof. unfold check_z_mixed. destruct ns; repeat keeps_step. Qed.

(** The whole sequence keeps the invariant as soon as the scan of the node
    ids does. *)
Lemma keeps_checks d :
  (forall m, in_nodes d = Some m ->
             keeps Pn Pr (check_node_ids (JsMap.keys m) JsSet.empty 0)) ->
  keeps Pn Pr (checks d).
Proof.
  intros Hids. unfold checks.
  apply keeps_bind; [apply keeps_check_required | intros _].
  apply keeps_bind; [|intros _].
  { unfold check_nodes. apply keeps_bind; [repeat keeps_step | intros _].
    destruct (in_nodes d) eqn:E; [now apply Hids | apply keeps_ret]. }
  apply keeps_bind; [apply keeps_check_lines | intros _].
  apply keeps_bind; [apply keeps_check_freqHz | intros _].
  apply keeps_bind; [apply keeps_check_mode_freq_match | intros _].
  apply keeps_bind; [apply keeps_check_modes | intros _].
  apply keeps_check_z_mixed.
Qed.

Lemma run_holds (c : Check unit) :
  keeps Pn Pr c -> Pn (mkReport [] []) -> Pr (run c).
Proof.
  intros Hc H0. unfold run. specialize (Hc _ H0).
  destruct (c (mkReport [] [])); [now apply Pn_Pr | exact Hc].
Qed.
End CheckInvariants.

(** ** The error cap *)

Section ErrorCap.
Import Validator.
Local Open Scope list_scope.

Lemma below_within r : below_cap r -> within_cap r.
Proof. unfold below_cap, within_cap. lia. Qed.

Lemma cap_warning c msg : keeps below_cap within_cap (warning c msg).
Proof. intros r H. exact H. Qed.

(** [pushError] on a list below the cap appends one entry and answers
    whether the cap is reached. *)
Lemma pushError_below lst c msg :
  List.length lst < MAX_ERRORS ->
  pushError lst c msg =
  (lst ++ [entry c msg], MAX_ERRORS <=? S (List.length lst)).
Proof.
  intros H. unfold pushError.
  destruct (Nat.leb_spec MAX_ERRORS (List.length lst)); [lia|].
  rewrite length_app. cbn [List.length]. rewrite Nat.add_1_r. reflexivity.
Qed.

Lemma cap_error c msg : keeps below_cap within_cap (error c msg).
Proof.
  intros r H. unfold error. rewrite pushError_below by exact H.
  destruct (Nat.leb_spec MAX_ERRORS (S (List.length (errors r))));
    cbn [holds]; unfold below_cap, within_cap in *; cbn [errors];
    rewrite length_app; cbn [List.length]; lia.
Qed.

Lemma cap_check_node_ids ids seen idx :
  keeps below_cap within_cap (check_node_ids ids seen idx).
Proof.
  revert seen idx. induction ids as [|id rest IH]; intros seen idx;
    cbn [check_node_ids].
  - apply keeps_ret.
  - apply keeps_bind; [apply keeps_when, cap_error | intros _; apply IH].
Qed.

(** The call that reaches the cap returns at once, with the report as it
    then is. *)
Lemma error_reaches_cap A (k : unit -> Check A) c msg r :
  S (List.length (errors r)) = MAX_ERRORS ->
  bind (error c msg) k r = Return (mkReport (errors r ++ [entry c msg]) (warnings r)).
Proof.
  intros H. unfold bind, error. rewrite pushError_below by lia.
  rewrite H, Nat.leb_refl. reflexivity.
Qed.

(** [validateFloorData] is a total function of its argument (it raises
    nothing: every outcome of the checks is a report), and the report it
    returns holds at most [MAX_ERRORS] = 100 errors.  When the checks run to
    their end the report holds fewer than 100 errors, so a report with 100
    errors is one that was returned early, by the call that reached the
    cap. *)
Theorem validate_errors_capped (d : Input) :
  List.length (errors (validateFloorData d)) <= 100 /\
  match checks d (mkReport [] []) with
  | Next _ r => validateFloorData d = r /\ List.length (errors r) < 100
  | Return r => validateFloorData d = r /\ List.length (errors r) <= 100
  end.
Proof.
  change 100 with MAX_ERRORS.
  assert (K : keeps below_cap within_cap (checks d)).
  { apply keeps_checks.
    - exact below_within.
    - exact cap_warning.
    - intros c msg _. apply cap_error.
    - intros m _. apply cap_check_node_ids. }
  assert (H0 : below_cap (mkReport [] [])) by (unfold below_cap, MAX_ERRORS; cbn; lia).
  specialize (K _ H0). unfold validateFloorData, run.
  destruct (checks d (mkReport [] [])) as [[] r|r]; cbn [holds] in K;
    unfold below_cap, within_cap in K; repeat split; try assumption; lia.
Qed.

(** The cap is reached: of 150 lines that are all self-loops the first 100
    are reported. *)
Example validate_stops_at_cap :
  let r := validate (Examples.parsed (Examples.self_loop_document 150)) in
  List.length (errors r) = 100 /\
  count_code E_LINE_SELF_LOOP (errors r) = 100.
Proof. vm_compute. split; reflexivity. Qed.
End ErrorCap.

(** ** Duplicate node ids *)

Section NodeDuplicates.
Import JsNum Validator.
Local Open Scope list_scope.

Lemma count_code_app c l1 l2 :
  count_code c (l1 ++ l2) = count_code c l1 + count_code c l2.
Proof. unfold count_code. now rewrite filter_app, length_app. Qed.

Lemma no_duplicate_warning c msg :
  keeps no_duplicate_error no_duplicate_error (warning c msg).
Proof. intros r H. exact H. Qed.

Lemma no_duplicate_error_other c msg :
  c <> E_NODE_DUPLICATE ->
  keeps no_duplicate_error no_duplicate_error (error c msg).
Proof.
  intros Hc r H. unfold error, pushError.
  assert (E : count_code E_NODE_DUPLICATE (errors r ++ [entry c msg]) = 0).
  { rewrite count_code_app, H. unfold count_code. cbn [filter entry code].
    destruct c; try reflexivity. congruence. }
  destruct (MAX_ERRORS <=? List.length (errors r)).
  - exact H.
  - destruct (MAX_ERRORS <=? List.length (errors r ++ [entry c msg])); exact E.
Qed.

(** The scan of the keys of a [Map] finds nothing: no key has been seen
    before its turn. *)
Lemma check_node_ids_distinct ids seen idx r :
  JsMap.distinct_keys ids ->
  (forall k k', In k seen -> In k' ids -> same_value_zero k k' = false) ->
  check_node_ids ids seen idx r = Next tt r.
Proof.
  revert seen idx. induction ids as [|id rest IH]; intros seen idx Hd Hs;
    cbn [check_node_ids].
  - reflexivity.
  - destruct Hd as [Hid Hd].
    assert (Hh : JsSet.has seen id = false).
    { destruct (JsSet.has seen id) eqn:E; [|reflexivity].
      apply set_has_In in E as (k & Hk & E).
      rewrite (Hs k id Hk (or_introl eq_refl)) in E. discriminate. }
    unfold bind. rewrite Hh. cbn [when ret].
    apply IH; [assumption|].
    intros k k' Hk Hk'. apply set_add_In in Hk as [Hk | ->].
    + apply Hs; [assumption | now right].
    + rewrite svz_normalize_l. now apply Hid.
Qed.

(** Whatever the data set, as long as its nodes are a [Map], the report has
    no [E_NODE_DUPLICATE]. *)
Lemma node_duplicate_never_reported (d : Input) :
  (forall m, in_nodes d = Some m -> JsMap.distinct_keys (JsMap.keys m)) ->
  count_code E_NODE_DUPLICATE (errors (validateFloorData d)) = 0.
Proof.
  intros Hwf. unfold validateFloorData.
  apply (@run_holds no_duplicate_error no_duplicate_error (fun r H => H)).
  - apply keeps_checks.
    + exact (fun r H => H).
    + exact no_duplicate_warning.
    + exact no_duplicate_error_other.
    + intros m Hm r H. rewrite check_node_ids_distinct; [exact H | auto |].
      intros k k' [].
  - reflexivity.
Qed.

(** The nodes the parser returns are such a [Map]. *)
Lemma parseNodes_wf Number items acc parsed :
  Parser.parseNodes Number items acc = Some parsed ->
  JsMap.wf (fst acc) -> JsMap.wf (fst parsed).
Proof.
  revert acc. induction items as [|n rest IH]; intros acc H Hwf;
    cbn [Parser.parseNodes] in H.
  - inversion H. now subst.
  - destruct (Parser.parseNode Number n); [|discriminate].
    apply IH in H; [assumption|]. cbn [fst]. now apply wf_set.
Qed.

Lemma parseFloorData_nodes_wf Number data d :
  Parser.parseFloorData Number data = Some d -> JsMap.wf (nodes d).
Proof.
  unfold Parser.parseFloorData. intros H.
  destruct (Parser.prop data "meta"); [|discriminate].
  destruct (Parser.prop data "nodes") as [ns|]; [|discriminate].
  destruct (match ns with
            | JArr items => Parser.parseNodes Number items (JsMap.empty, JsMap.empty)
            | _ => Some (JsMap.empty, JsMap.empty)
            end) as [parsed|] eqn:E; [|discriminate].
  destruct (Parser.prop data "lines") as [ls|]; [|discriminate].
  destruct (match ls with
            | JArr items => Parser.parseLines Number items []
            | _ => Some []
            end); [|discriminate].
  destruct (Parser.prop data "freqHz"); [|discriminate].
  destruct (Parser.prop data "modes") as [ms|]; [|discriminate].
  inversion H. subst d. cbn [nodes].
  destruct ns; try (inversion E; subst; apply wf_empty).
  apply parseNodes_wf in E; [assumption | apply wf_empty].
Qed.

(** The nodes mapping of the parser is the one obtained by inserting the
    parsed nodes in the order of the array. *)
Lemma parseNodes_insert Number items acc parsed :
  Parser.parseNodes Number items acc = Some parsed ->
  exists l,
    Forall2 (fun item n => Parser.parseNode Number item = Some n) items l /\
    fst parsed = fold_left (fun m n => JsMap.set m (node_id n) n) l (fst acc).
Proof.
  revert acc. induction items as [|item rest IH]; intros acc H;
    cbn [Parser.parseNodes] in H.
  - inversion H. subst. exists []. split; [constructor | reflexivity].
  - destruct (Parser.parseNode Number item) as [n|] eqn:E; [|discriminate].
    apply IH in H as (l & Hl & Hf). exists (n :: l). split.
    + now constructor.
    + exact Hf.
Qed.

(** No document makes the validator report a duplicate node id. *)
Lemma parsed_node_duplicate_never_reported Number data d :
  Parser.parseFloorData Number data = Some d ->
  count_code E_NODE_DUPLICATE (errors (validate d)) = 0.
Proof.
  intros H. apply node_duplicate_never_reported.
  intros m Hm. inversion Hm. subst m.
  apply (parseFloorData_nodes_wf _ _ _ H).
Qed.

(** C1.  At the document that lists node 1 twice: the parser counts two
    occurrences of id 1 and keeps the coordinates seen last ([x = 5]), and
    the validator, which reads the keys of [nodes] and never
    [nodeIdCounts], reports no error at all. *)
Theorem duplicate_node_not_reported :
  let d := Examples.parsed Examples.duplicate_document in
  Parser.parseFloorData Parser.Number_basic Examples.duplicate_document = Some d /\
  JsMap.get (nodeIdCounts d) 1 = Some 2%float /\
  JsMap.get (nodes d) 1 = Some (mkNode 1 5 0 0) /\
  errors (validate d) = [] /\
  count_code E_NODE_DUPLICATE (errors (validate d)) = 0.
Proof. vm_compute. repeat split; reflexivity. Qed.

End NodeDuplicates.

(** ** Warnings *)

Section Warnings.
Import Validator.
Local Open Scope list_scope.

(** C10.  [pushWarning] appends whatever the length of the list, a
    warning never makes the validator return, and a document with 101 modes
    of 31 Hz is valid and gets 101 warnings [W_FREQ_HIGH]. *)
Theorem warnings_not_capped :
  (forall lst c msg,
      List.length (pushWarning lst c msg) = S (List.length lst)) /\
  (forall c msg r,
      warning c msg r = Next tt (mkReport (errors r) (warnings r ++ [entry c msg]))) /\
  (let d := Examples.parsed (Examples.high_frequency_document 101) in
   Parser.parseFloorData Parser.Number_basic (Examples.high_frequency_document 101)
   = Some d /\
   errors (validate d) = [] /\
   count_code W_FREQ_HIGH (warnings (validate d)) = 101 /\
   100 < List.length (warnings (validate d))).
Proof.
  split; [|split].
  - intros lst c msg. unfold pushWarning. rewrite length_app. cbn. lia.
  - reflexivity.
  - vm_compute. repeat split; first [reflexivity | lia].
Qed.
End Warnings.

(** ** The playback state machine *)

Section Playback.
Import JsNum Animation.
Local Open Scope float_scope.

Variable Math_sin : float -> float.

(** C6.  From every state [c], playing or not, and for every mode number
    [m], [setMode m] stores [m] in [_currentMode], [0] in [_time] and
    [false] in [_playing].  No other call resets the time: [update] adds
    [deltaTime * _speed] to it while playing and leaves it otherwise, and
    every other call leaves it as it is. *)
Theorem setMode_resets_time (c : Controller) (call : Call) :
  (forall m,
      _currentMode (setMode m c) = Some m /\
      _time (setMode m c) = 0 /\
      _playing (setMode m c) = false) /\
  match call with
  | CallSetMode m => _time (after call c) = 0
  | CallUpdate deltaTime =>
      _time (after call c) =
      if _playing c then _time c + deltaTime * _speed c else _time c
  | _ => _time (after call c) = _time c
  end.
Proof.
  split; [intros m; repeat split|].
  destruct call; cbn [after]; try reflexivity.
  - unfold play. destruct (_currentMode c); reflexivity.
  - unfold update. destruct (_playing c); reflexivity.
Qed.

Lemma after_query call c : is_query call = true -> after call c = c.
Proof. destruct call; cbn; intros H; try discriminate; reflexivity. Qed.

Lemma invoke_all_queries calls c :
  forallb is_query calls = true ->
  snd (invoke_all Math_sin calls c) = c /\
  forall i call,
    nth_error calls i = Some call ->
    nth_error (fst (invoke_all Math_sin calls c)) i = Some (result Math_sin call c).
Proof.
  induction calls as [|call0 rest IH]; cbn [forallb invoke_all]; intros H.
  - split; [reflexivity|]. intros [|i] call Hn; discriminate.
  - apply andb_true_iff in H as [Hq Hrest]. unfold invoke.
    rewrite (after_query _ _ Hq).
    destruct (IH Hrest) as [IH1 IH2].
    destruct (invoke_all Math_sin rest c) as [vs c''] eqn:E. cbn [fst snd] in *.
    split; [assumption|].
    intros [|i] call Hn; cbn [nth_error] in *.
    + inversion Hn. reflexivity.
    + now apply IH2.
Qed.

Lemma getDisplacedZ_frame nodeId c c' :
  frame_of c = frame_of c' ->
  getDisplacedZ Math_sin nodeId c = getDisplacedZ Math_sin nodeId c'.
Proof.
  unfold frame_of, getDisplacedZ, get_or_zero. intros H. inversion H.
  reflexivity.
Qed.

Lemma after_keeps_frame call c :
  keeps_frame call = true -> frame_of (after call c) = frame_of c.
Proof.
  destruct call; cbn [keeps_frame after]; intros H; try discriminate;
    try reflexivity.
  unfold play, frame_of. destruct (_currentMode c) eqn:E; cbn;
    rewrite ?E; reflexivity.
Qed.

Lemma invoke_all_keeps_frame calls c0 c :
  forallb keeps_frame calls = true ->
  frame_of c = frame_of c0 ->
  forall i nodeId,
    nth_error calls i = Some (CallGetDisplacedZ nodeId) ->
    nth_error (fst (invoke_all Math_sin calls c)) i
    = Some (VNumber (getDisplacedZ Math_sin nodeId c0)).
Proof.
  revert c. induction calls as [|call0 rest IH]; cbn [forallb invoke_all];
    intros c H Hf i nodeId Hn.
  - destruct i; discriminate.
  - apply andb_true_iff in H as [Hk Hrest]. unfold invoke.
    assert (Hf' : frame_of (after call0 c) = frame_of c0)
      by (now rewrite after_keeps_frame).
    specialize (IH (after call0 c) Hrest Hf').
    destruct (invoke_all Math_sin rest (after call0 c)) as [vs c''].
    cbn [fst] in *. destruct i as [|i]; cbn [nth_error] in *.
    + inversion Hn. subst call0. cbn [result].
      now rewrite (getDisplacedZ_frame nodeId c c0 Hf).
    + now apply IH.
Qed.

(** C8.  [stop] stores [false] in [_playing] and leaves every other field,
    [_time] among them, and a query assigns to no field.  So after [stop],
    as long as no [update] (nor [setMode] or [setScale]) is called, every
    [getDisplacedZ(nodeId)] returns the same value, the one read right
    after [stop], which is also the value before [stop]; and a sequence of
    queries leaves the object as [stop] left it. *)
Theorem stop_holds_frame (c : Controller) (calls : list Call) :
  forallb keeps_frame calls = true ->
  let c0 := stop c in
  (_playing c0 = false /\ _time c0 = _time c /\
   _currentMode c0 = _currentMode c /\ _scale c0 = _scale c /\
   _speed c0 = _speed c /\ _nodes c0 = _nodes c /\ _modes c0 = _modes c /\
   _freqHz c0 = _freqHz c /\ _umaxMap c0 = _umaxMap c /\
   _lFloor c0 = _lFloor c /\ _aRef c0 = _aRef c /\ _lines c0 = _lines c /\
   _modeList c0 = _modeList c) /\
  (forall i nodeId,
      nth_error calls i = Some (CallGetDisplacedZ nodeId) ->
      nth_error (fst (invoke_all Math_sin calls c0)) i
      = Some (VNumber (getDisplacedZ Math_sin nodeId c0)) /\
      getDisplacedZ Math_sin nodeId c0 = getDisplacedZ Math_sin nodeId c) /\
  (forallb is_query calls = true -> snd (invoke_all Math_sin calls c0) = c0).
Proof.
  intros Hk c0. split; [repeat split|]. split.
  - intros i nodeId Hn. split.
    + exact (invoke_all_keeps_frame calls c0 c0 Hk eq_refl i nodeId Hn).
    + reflexivity.
  - intros Hq. exact (proj1 (invoke_all_queries calls c0 Hq)).
Qed.

(** C9.  When the selected mode number has no entry in [_modes],
    [getDisplacedZ] of a node of [_nodes] is the node's own [z]: nothing is
    computed, so the result is [NaN] only if [z] is.  [setMode] selects any
    number it is given, such a one included. *)
Theorem unknown_mode_gives_undisplaced (c : Controller) (m nodeId : float)
        (node : Node) :
  JsMap.get (_nodes c) nodeId = Some node ->
  JsMap.get (_modes c) m = None ->
  (_currentMode c = Some m -> getDisplacedZ Math_sin nodeId c = node_z node) /\
  _currentMode (setMode m c) = Some m /\
  getDisplacedZ Math_sin nodeId (setMode m c) = node_z node /\
  (is_nan (node_z node) = false ->
   is_nan (getDisplacedZ Math_sin nodeId (setMode m c)) = false).
Proof.
  intros Hn Hm.
  assert (H : getDisplacedZ Math_sin nodeId (setMode m c) = node_z node).
  { unfold getDisplacedZ. cbn [setMode with_playback _nodes _currentMode _modes].
    now rewrite Hn, Hm. }
  repeat split.
  - intros Hc. unfold getDisplacedZ. now rewrite Hn, Hc, Hm.
  - exact H.
  - now rewrite H.
Qed.

Lemma setScale_in_range s c :
  is_nan s = false -> in_range 0.5 3 (_scale (setScale s c)) = true.
Proof.
  intros Hs. unfold in_range. cbn [setScale with_playback _scale].
  destruct (clamp_in_range 0.5 3 s eq_refl Hs) as [H1 H2].
  now rewrite H1, H2.
Qed.

Lemma setSpeed_in_range v c :
  is_nan v = false -> in_range 0.2 2 (_speed (setSpeed v c)) = true.
Proof.
  intros Hv. unfold in_range. cbn [setSpeed with_playback _speed].
  destruct (clamp_in_range 0.2 2 v eq_refl Hv) as [H1 H2].
  now rewrite H1, H2.
Qed.

(** In every state reached from construction by calls with real
    arguments, [_scale] lies in [0.5, 3.0] and [_speed] in [0.2, 2.0]. *)
Theorem scale_and_speed_in_range :
  (forall c, reachable c ->
             in_range 0.5 3 (_scale c) = true /\
             in_range 0.2 2 (_speed c) = true) /\
  (forall s c, is_nan s = false -> in_range 0.5 3 (_scale (setScale s c)) = true) /\
  (forall v c, is_nan v = false -> in_range 0.2 2 (_speed (setSpeed v c)) = true) /\
  (forall c, _scale (setScale 10 c) = 3) /\
  (forall c, _speed (setSpeed 0 c) = 0.2).
Proof.
  split; [|repeat split; auto using setScale_in_range, setSpeed_in_range].
  intros c H. induction H as [d | call c H [IH1 IH2] Hr].
  - split; reflexivity.
  - destruct call; cbn [after real_argument] in *; try (split; assumption).
    + unfold play. destruct (_currentMode c); split; assumption.
    + split; [|assumption]. apply setScale_in_range.
      now destruct (is_nan s).
    + split; [assumption|]. apply setSpeed_in_range.
      now destruct (is_nan speed).
    + unfold update. destruct (_playing c); split; assumption.
Qed.
End Playback.

(** ** Displacement at time zero *)

Section Displacement.
Import JsNum Animation.
Local Open Scope float_scope.

Lemma sin_cubic_spec : sin_spec sin_cubic.
Proof.
  split.
  - intros x Hx. unfold sin_cubic. rewrite (is_zero_is_finite x Hx).
    apply is_zero_SF in Hx as [s Hx]. apply Prim2SF_inj.
    rewrite mul_spec, Hx.
    assert (E : Prim2SF (1 - x * x / 6) = Prim2SF 1).
    { rewrite sub_spec, div_spec, mul_spec, Hx. destruct s; reflexivity. }
    rewrite E. destruct s; reflexivity.
  - reflexivity.
  - intros x Hx. unfold sin_cubic, is_finite. rewrite Hx, orb_true_r.
    reflexivity.
Qed.

(** C2, as the code has it.  At [_time = 0], for a node of [_nodes]:
    with no mode selected, or one that has no shape, [getDisplacedZ]
    returns the node's [z]; with a mode that has a shape it returns [z] (as
    a number: the sign of a zero apart) when the amplitude factor
    [S * A_ref * (uz / Umax)] and the angular frequency [2 pi f] are both
    finite, and [NaN] when one of them is not. *)
Theorem displaced_z_at_time_zero (Math_sin : float -> float) (c : Controller)
        (nodeId : float) (node : Node) :
  sin_spec Math_sin ->
  JsMap.get (_nodes c) nodeId = Some node ->
  is_zero (_time c) = true ->
  match _currentMode c with
  | None => getDisplacedZ Math_sin nodeId c = node_z node
  | Some m =>
      match JsMap.get (_modes c) m with
      | None => getDisplacedZ Math_sin nodeId c = node_z node
      | Some modeShape =>
          if is_finite (amplitude_factor c m modeShape nodeId)
             && is_finite (angular_frequency c m)
          then same_value_zero (getDisplacedZ Math_sin nodeId c) (node_z node) = true
          else getDisplacedZ Math_sin nodeId c = nan
      end
  end.
Proof.
  intros Hsin Hn Ht. unfold getDisplacedZ. rewrite Hn.
  destruct (_currentMode c) as [m|] eqn:Hc; [|reflexivity].
  destruct (JsMap.get (_modes c) m) as [modeShape|] eqn:Hm; [|reflexivity].
  change (node_z node
          + _scale c * _aRef c
            * ((match JsMap.get modeShape nodeId with Some uz => uz | None => 0 end)
               / (match JsMap.get (_umaxMap c) m with Some u => u | None => nan end))
            * Math_sin (TWO_PI * get_or_zero (_freqHz c) m * _time c))
    with (node_z node
          + amplitude_factor c m modeShape nodeId
            * Math_sin (angular_frequency c m * _time c)).
  destruct (is_finite (angular_frequency c m)) eqn:Hw.
  - pose proof (mul_finite_zero _ _ Hw Ht) as Hz.
    rewrite (sin_zero _ Hsin _ Hz).
    destruct (is_finite (amplitude_factor c m modeShape nodeId)) eqn:Ha;
      cbn [andb].
    + apply svz_spec, add_zero_r. now apply mul_finite_zero.
    + rewrite (mul_not_finite_zero _ _ Ha Hz). apply add_nan_r.
  - rewrite andb_false_r, (mul_not_finite_zero _ _ Hw Ht).
    rewrite (sin_nan _ Hsin), mul_nan_r. apply add_nan_r.
Qed.

(** A valid data set on which the displacement at time zero is [NaN]: with
    a frequency of [1e308] Hz the product [2 pi f] overflows to [Infinity],
    [Infinity * 0] is [NaN], and so are its sine and the sum. *)
Lemma displaced_z_at_time_zero_overflow :
  let d := Examples.parsed Examples.stiff_document in
  let c := constructor d in
  Parser.parseFloorData Parser.Number_basic Examples.stiff_document = Some d /\
  Validator.errors (Validator.validate d) = [] /\
  _currentMode c = Some 1 /\
  _time c = 0 /\
  JsMap.get (_nodes c) 3 = Some (mkNode 3 6 4 0) /\
  forall Math_sin,
    sin_spec Math_sin ->
    getDisplacedZ Math_sin 3 c = nan /\
    same_value_zero (getDisplacedZ Math_sin 3 c) 0 = false.
Proof.
  cbv zeta. repeat split; try (vm_compute; reflexivity); vm_compute;
    replace (Math_sin _) with nan by (symmetry; exact (sin_nan _ H));
    reflexivity.
Qed.
End Displacement.

(** ** The floor metrics *)

Section Extrema.
Import JsNum Animation.
Local Open Scope float_scope.

Variable lt : float -> float -> bool.

Hypothesis lt_trans : forall x y z, lt x y = true -> lt y z = true -> lt x z = true.
Hypothesis lt_asym : forall x y, lt x y = true -> lt y x = false.
Hypothesis lt_not_nan :
  forall x y, lt x y = true -> is_nan x = false /\ is_nan y = false.
Hypothesis lt_incomparable :
  forall x y, is_nan x = false -> is_nan y = false ->
              lt x y = false -> lt y x = false -> num_equiv x y.
Hypothesis lt_num_equiv :
  forall x x' y y', num_equiv x x' -> num_equiv y y' -> lt x y = lt x' y'.

Lemma pick_num_equiv m m' x : num_equiv m m' -> num_equiv (pick lt m x) (pick lt m' x).
Proof.
  intros H. unfold pick. rewrite (lt_num_equiv _ _ _ _ (num_equiv_refl x) H).
  destruct (lt x m'); [reflexivity | assumption].
Qed.

Lemma pick_swap m x y : num_equiv (pick lt (pick lt m x) y) (pick lt (pick lt m y) x).
Proof.
  unfold pick.
  destruct (lt x m) eqn:A; destruct (lt y m) eqn:C.
  - destruct (lt y x) eqn:B; destruct (lt x y) eqn:D; try reflexivity.
    + rewrite (lt_asym _ _ B) in D. discriminate.
    + apply num_equiv_sym. apply lt_incomparable; try assumption.
      * exact (proj1 (lt_not_nan _ _ C)).
      * exact (proj1 (lt_not_nan _ _ A)).
  - rewrite A. destruct (lt y x) eqn:B; [|reflexivity].
    rewrite (lt_trans _ _ _ B A) in C. discriminate.
  - destruct (lt x y) eqn:D; [|reflexivity].
    rewrite (lt_trans _ _ _ D C) in A. discriminate.
  - rewrite A. reflexivity.
Qed.

Lemma fold_pick_In xs m : In (fold_left (pick lt) xs m) (m :: xs).
Proof.
  revert m. induction xs as [|x xs IH]; intros m; cbn [fold_left].
  - now left.
  - destruct (IH (pick lt m x)) as [H | H].
    + rewrite <- H. unfold pick. destruct (lt x m); [right; now left | now left].
    + right. now right.
Qed.

(** Adding [c] to every number commutes with the running extremum when it
    keeps the answers of [lt]. *)
Lemma fold_pick_offset c xs m :
  (forall a b, In a (m :: xs) -> In b (m :: xs) -> lt (a + c) (b + c) = lt a b) ->
  fold_left (pick lt) (map (fun x => x + c) xs) (m + c) = fold_left (pick lt) xs m + c.
Proof.
  revert m. induction xs as [|x xs IH]; intros m H; cbn [fold_left map].
  - reflexivity.
  - assert (E : pick lt (m + c) (x + c) = pick lt m x + c).
    { unfold pick. rewrite H by (cbn; auto). destruct (lt x m); reflexivity. }
    rewrite E. apply IH. intros a b Ha Hb. apply H.
    + destruct Ha as [<- | Ha]; [|right; now right].
      unfold pick. destruct (lt x m); cbn; auto.
    + destruct Hb as [<- | Hb]; [|right; now right].
      unfold pick. destruct (lt x m); cbn; auto.
Qed.
End Extrema.

Section FoldPermutation.
Variables (S A : Type) (R : S -> S -> Prop) (f : S -> A -> S).

Hypothesis R_refl : forall s, R s s.
Hypothesis R_trans : forall s1 s2 s3, R s1 s2 -> R s2 s3 -> R s1 s3.
Hypothesis f_R : forall s s' a, R s s' -> R (f s a) (f s' a).
Hypothesis f_swap : forall s a b, R (f (f s a) b) (f (f s b) a).

Lemma fold_left_R l s s' : R s s' -> R (fold_left f l s) (fold_left f l s').
Proof.
  revert s s'. induction l as [|a l IH]; intros s s' H; cbn [fold_left].
  - assumption.
  - apply IH. now apply f_R.
Qed.

(** A loop whose turns commute up to [R] gives the same result, up to [R],
    in whatever order the elements come. *)
Lemma fold_left_permutation l l' s :
  Permutation l l' -> R (fold_left f l s) (fold_left f l' s).
Proof.
  intros P. revert s. induction P as [|a l l' P IH|a b l|l1 l2 l3 P1 IH1 P2 IH2];
    intros s; cbn [fold_left].
  - apply R_refl.
  - apply IH.
  - apply fold_left_R. apply f_swap.
  - eapply R_trans; [apply IH1 | apply IH2].
Qed.
End FoldPermutation.

Section FloorMetrics.
Import JsNum Animation.
Local Open Scope float_scope.

Lemma bounds_step_picks b n :
  bounds_step b n =
  mkBounds (pick min_lt (minX b) (node_x n)) (pick max_lt (maxX b) (node_x n))
           (pick min_lt (minY b) (node_y n)) (pick max_lt (maxY b) (node_y n)).
Proof. reflexivity. Qed.

Lemma min_pick_num_equiv m m' x :
  num_equiv m m' -> num_equiv (pick min_lt m x) (pick min_lt m' x).
Proof.
  apply pick_num_equiv. intros a a' b b' Ha Hb. now apply ltb_num_equiv.
Qed.

Lemma max_pick_num_equiv m m' x :
  num_equiv m m' -> num_equiv (pick max_lt m x) (pick max_lt m' x).
Proof.
  apply pick_num_equiv. intros a a' b b' Ha Hb. unfold max_lt.
  now apply ltb_num_equiv.
Qed.

Lemma min_pick_swap m x y :
  num_equiv (pick min_lt (pick min_lt m x) y) (pick min_lt (pick min_lt m y) x).
Proof.
  apply pick_swap; unfold min_lt.
  - apply ltb_trans.
  - apply ltb_asym.
  - apply ltb_not_nan.
  - apply ltb_incomparable.
Qed.

Lemma max_pick_swap m x y :
  num_equiv (pick max_lt (pick max_lt m x) y) (pick max_lt (pick max_lt m y) x).
Proof.
  apply pick_swap; unfold max_lt.
  - intros a b c H1 H2. exact (ltb_trans _ _ _ H2 H1).
  - intros a b. apply ltb_asym.
  - intros a b H. destruct (ltb_not_nan _ _ H). auto.
  - intros a b Ha Hb H1 H2. now apply ltb_incomparable.
Qed.

Lemma bounds_equiv_refl b : bounds_equiv b b.
Proof. repeat split. Qed.

Lemma bounds_equiv_trans b1 b2 b3 :
  bounds_equiv b1 b2 -> bounds_equiv b2 b3 -> bounds_equiv b1 b3.
Proof.
  intros (H1 & H2 & H3 & H4) (G1 & G2 & G3 & G4).
  repeat split; eapply num_equiv_trans; eassumption.
Qed.

Lemma bounds_step_equiv b b' n :
  bounds_equiv b b' -> bounds_equiv (bounds_step b n) (bounds_step b' n).
Proof.
  intros (H1 & H2 & H3 & H4). rewrite !bounds_step_picks.
  repeat split; cbn [minX maxX minY maxY];
    auto using min_pick_num_equiv, max_pick_num_equiv.
Qed.

Lemma bounds_step_swap b n1 n2 :
  bounds_equiv (bounds_step (bounds_step b n1) n2)
               (bounds_step (bounds_step b n2) n1).
Proof.
  rewrite !bounds_step_picks.
  repeat split; cbn [minX maxX minY maxY];
    auto using min_pick_swap, max_pick_swap.
Qed.

Lemma lFloor_of_bounds_equiv b b' :
  bounds_equiv b b' -> lFloor_of_bounds b = lFloor_of_bounds b'.
Proof.
  intros (H1 & H2 & H3 & H4). unfold lFloor_of_bounds.
  apply zero_to_one_num_equiv.
  apply Math_max_num_equiv; now apply sub_num_equiv.
Qed.

(** The metrics do not depend on the order of the nodes. *)
Lemma computeFloorMetrics_permutation (ns1 ns2 : JsMap.t Node) :
  Permutation ns1 ns2 -> computeFloorMetrics ns1 = computeFloorMetrics ns2.
Proof.
  intros P. unfold computeFloorMetrics.
  assert (E : lFloor_of_bounds (fold_left bounds_step (JsMap.values ns1) initial_bounds)
              = lFloor_of_bounds (fold_left bounds_step (JsMap.values ns2) initial_bounds)).
  { apply lFloor_of_bounds_equiv.
    apply (fold_left_permutation _ _ bounds_equiv bounds_step).
    - apply bounds_equiv_refl.
    - apply bounds_equiv_trans.
    - intros s s' a. apply bounds_step_equiv.
    - apply bounds_step_swap.
    - unfold JsMap.values. now apply Permutation_map. }
  now rewrite E.
Qed.

(** The four extrema are four running extrema over the coordinate lists. *)
Lemma fold_bounds_step l b :
  fold_left bounds_step l b =
  mkBounds (fold_left (pick min_lt) (map node_x l) (minX b))
           (fold_left (pick max_lt) (map node_x l) (maxX b))
           (fold_left (pick min_lt) (map node_y l) (minY b))
           (fold_left (pick max_lt) (map node_y l) (maxY b)).
Proof.
  revert b. induction l as [|n l IH]; intros b; cbn [fold_left map].
  - now destruct b.
  - rewrite IH, bounds_step_picks. reflexivity.
Qed.

Lemma offset_exact_spec c coords :
  offset_exact c coords = true ->
  is_finite c = true /\
  forall a b,
    In a (infinity :: neg_infinity :: coords) ->
    In b (infinity :: neg_infinity :: coords) ->
    (a + c <? b + c) = (a <? b) /\ (b + c) - (a + c) = b - a.
Proof.
  unfold offset_exact. intros H. apply andb_true_iff in H as [Hc H].
  split; [assumption|]. intros a b Ha Hb.
  rewrite forallb_forall in H. specialize (H a Ha).
  rewrite forallb_forall in H. specialize (H b Hb).
  apply andb_true_iff in H as [H1 H2].
  split; [now apply Bool.eqb_prop | now apply Leibniz.eqb_spec].
Qed.

(** The span of a coordinate list is unchanged by an exact offset. *)
Lemma span_offset_exact c xs :
  offset_exact c xs = true ->
  fold_left (pick max_lt) (map (fun x => x + c) xs) neg_infinity
  - fold_left (pick min_lt) (map (fun x => x + c) xs) infinity
  = fold_left (pick max_lt) xs neg_infinity
    - fold_left (pick min_lt) xs infinity.
Proof.
  intros H. apply offset_exact_spec in H as [Hc H].
  rewrite <- (add_infinity_finite c Hc) at 1.
  rewrite <- (add_neg_infinity_finite c Hc) at 1.
  rewrite (fold_pick_offset min_lt c xs infinity),
    (fold_pick_offset max_lt c xs neg_infinity).
  - apply H.
    + pose proof (fold_pick_In min_lt xs infinity) as [<- | Hin];
        [now left | right; now right].
    + pose proof (fold_pick_In max_lt xs neg_infinity) as [<- | Hin];
        [right; now left | right; now right].
  - intros a b Ha Hb. unfold max_lt. apply H.
    + destruct Hb as [<- | Hb]; [right; now left | right; now right].
    + destruct Ha as [<- | Ha]; [right; now left | right; now right].
  - intros a b Ha Hb. unfold min_lt. apply H.
    + destruct Ha as [<- | Ha]; [now left | right; now right].
    + destruct Hb as [<- | Hb]; [now left | right; now right].
Qed.

Lemma computeFloorMetrics_translate ns cx cy :
  offset_exact cx (map node_x (JsMap.values ns)) = true ->
  offset_exact cy (map node_y (JsMap.values ns)) = true ->
  computeFloorMetrics (translate_nodes cx cy ns) = computeFloorMetrics ns.
Proof.
  intros Hx Hy. unfold computeFloorMetrics.
  assert (V : JsMap.values (translate_nodes cx cy ns)
              = map (translate cx cy) (JsMap.values ns)).
  { unfold JsMap.values, translate_nodes. rewrite !map_map. reflexivity. }
  rewrite V, !fold_bounds_step. unfold lFloor_of_bounds.
  cbn [minX maxX minY maxY initial_bounds].
  rewrite !map_map. cbn [translate node_x node_y].
  rewrite <- (map_map node_x (fun x => x + cx)),
    <- (map_map node_y (fun y => y + cy)).
  rewrite (span_offset_exact cx _ Hx), (span_offset_exact cy _ Hy).
  reflexivity.
Qed.

(** Nodes with pairwise different ids are all kept, in the order of their
    insertion. *)
Lemma insert_nodes_app (l : list Node) (acc : JsMap.t Node) :
  JsMap.distinct_keys (map node_id l) ->
  (forall k n, In k (JsMap.keys acc) -> In n l ->
               same_value_zero k (node_id n) = false) ->
  fold_left (fun m n => JsMap.set m (node_id n) n) l acc
  = acc ++ map (fun n => (normalize_zero (node_id n), n)) l.
Proof.
  revert acc. induction l as [|n l IH]; intros acc Hd Hacc;
    cbn [fold_left map].
  - now rewrite app_nil_r.
  - destruct Hd as [Hn Hd].
    assert (Hf : JsMap.has acc (node_id n) = false).
    { destruct (JsMap.has acc (node_id n)) eqn:E; [|reflexivity].
      apply has_In in E as (k & Hk & E).
      rewrite (Hacc k n Hk (or_introl eq_refl)) in E. discriminate. }
    rewrite (set_fresh acc _ n Hf), IH.
    + now rewrite <- app_assoc.
    + assumption.
    + intros k n' Hk Hn'. unfold JsMap.keys in Hk. rewrite map_app in Hk.
      apply in_app_or in Hk as [Hk | [<- | []]].
      * apply Hacc; [assumption | now right].
      * cbn [fst]. rewrite svz_normalize_l. apply Hn. now apply in_map.
Qed.

Lemma insert_nodes_distinct (l : list Node) :
  JsMap.distinct_keys (map node_id l) ->
  insert_nodes l = map (fun n => (normalize_zero (node_id n), n)) l.
Proof.
  intros Hd. unfold insert_nodes. rewrite insert_nodes_app; auto.
  intros k n [].
Qed.

Lemma computeFloorMetrics_insertion_order (l1 l2 : list Node) :
  Permutation l1 l2 ->
  JsMap.distinct_keys (map node_id l1) ->
  computeFloorMetrics (insert_nodes l1) = computeFloorMetrics (insert_nodes l2).
Proof.
  intros P Hd. apply computeFloorMetrics_permutation.
  rewrite (insert_nodes_distinct l1 Hd).
  rewrite (insert_nodes_distinct l2).
  - now apply Permutation_map.
  - apply (distinct_keys_permutation (map node_id l1)); [|assumption].
    now apply Permutation_map.
Qed.

(** C5, as the code has it.  [L_floor] and [A_ref] are the same in whatever
    order the nodes are inserted (nodes with pairwise different ids, or any
    two orders of the same entries of the mapping).  They are the same after
    an offset is added to every [x] and every [y] when the additions are
    exact (they keep the order and the differences of the coordinates); an
    addition that rounds can change them.  When the span
    [max(rangeX, rangeY)] is [0], [L_floor] is [1] and [A_ref] is [0.1];
    [A_ref] is always [L_floor / 10]. *)
Theorem floor_metrics_invariance :
  (forall l1 l2 : list Node,
      Permutation l1 l2 ->
      JsMap.distinct_keys (map node_id l1) ->
      computeFloorMetrics (insert_nodes l1) = computeFloorMetrics (insert_nodes l2)) /\
  (forall ns1 ns2 : JsMap.t Node,
      Permutation ns1 ns2 ->
      computeFloorMetrics ns1 = computeFloorMetrics ns2) /\
  (forall (ns : JsMap.t Node) cx cy,
      offset_exact cx (map node_x (JsMap.values ns)) = true ->
      offset_exact cy (map node_y (JsMap.values ns)) = true ->
      computeFloorMetrics (translate_nodes cx cy ns) = computeFloorMetrics ns) /\
  (forall ns : JsMap.t Node,
      let b := fold_left bounds_step (JsMap.values ns) initial_bounds in
      strict_equal (Math_max (maxX b - minX b) (maxY b - minY b)) 0 = true ->
      computeFloorMetrics ns = (1, 0.1)) /\
  (forall ns : JsMap.t Node,
      snd (computeFloorMetrics ns) = fst (computeFloorMetrics ns) / 10).
Proof.
  split; [exact computeFloorMetrics_insertion_order|].
  split; [exact computeFloorMetrics_permutation|].
  split; [exact computeFloorMetrics_translate|].
  split.
  - intros ns b H. unfold computeFloorMetrics, lFloor_of_bounds.
    fold b. rewrite H. reflexivity.
  - reflexivity.
Qed.

(** A floor of 5.4 by 3.6 moved by 100 along both axes: the sums round, and
    both metrics change. *)
Lemma floor_metrics_translation_rounds :
  let ns := [(1, mkNode 1 0 0 0); (2, mkNode 2 5.4 0 0);
             (3, mkNode 3 5.4 3.6 0); (4, mkNode 4 0 3.6 0)] in
  computeFloorMetrics ns = (5.4, 0.54) /\
  computeFloorMetrics (translate_nodes 100 100 ns)
  = (5.4000000000000057, 0.54000000000000059) /\
  strict_equal (fst (computeFloorMetrics (translate_nodes 100 100 ns)))
               (fst (computeFloorMetrics ns)) = false /\
  strict_equal (snd (computeFloorMetrics (translate_nodes 100 100 ns)))
               (snd (computeFloorMetrics ns)) = false.
Proof. vm_compute. repeat split; reflexivity. Qed.
End FloorMetrics.

(** ** The statements at concrete inputs *)

Section Instances.
Import JsNum Parser Validator Animation Examples.
Local Open Scope float_scope.

Lemma displaced_z_at_time_zero_witness :
  same_value_zero (getDisplacedZ sin_cubic 3 sample_controller) 0 = true.
Proof.
  exact (displaced_z_at_time_zero sin_cubic sample_controller 3 (mkNode 3 6 4 0)
                                  sin_cubic_spec eq_refl eq_refl).
Defined.

Lemma parse_fills_missing_amplitudes_witness :
  exists uzMap,
    JsMap.get (modes (parsed sparse_document)) 1 = Some uzMap /\
    JsMap.get uzMap 4 = Some 0.
Proof.
  destruct (parse_fills_missing_amplitudes
              Number_basic sparse_document (parsed sparse_document)
              (JObj [("1"%string, JObj [("2"%string, JNum 0.4); ("3"%string, JNum 1)])])
              "1"%string (JObj [("2"%string, JNum 0.4); ("3"%string, JNum 1)]) 4
              eq_refl eq_refl eq_refl (or_introl eq_refl) eq_refl)
    as (uzMap & uz & H1 & H2 & H3).
  exists uzMap. split; [exact H1|]. rewrite H2, (H3 eq_refl). reflexivity.
Defined.

Lemma floor_metrics_invariance_witness :
  computeFloorMetrics (insert_nodes (JsMap.values sample_nodes))
  = computeFloorMetrics (insert_nodes (rev (JsMap.values sample_nodes))) /\
  computeFloorMetrics sample_nodes = computeFloorMetrics (rev sample_nodes) /\
  computeFloorMetrics (translate_nodes 1 2 sample_nodes)
  = computeFloorMetrics sample_nodes /\
  computeFloorMetrics point_nodes = (1, 0.1).
Proof.
  destruct floor_metrics_invariance as (H0 & H1 & H2 & H3 & _).
  split; [|split; [|split]].
  - apply H0; [apply Permutation_rev|].
    cbn. repeat split; intros k' Hin;
      repeat (destruct Hin as [<- | Hin]; [reflexivity|]); destruct Hin.
  - apply H1. apply Permutation_rev.
  - apply H2; reflexivity.
  - apply H3. reflexivity.
Defined.

Lemma scale_and_speed_in_range_witness :
  let c := after (CallSetSpeed 0) (after (CallSetScale 10) sample_controller) in
  in_range 0.5 3 (_scale c) = true /\ in_range 0.2 2 (_speed c) = true.
Proof.
  apply (proj1 scale_and_speed_in_range).
  apply reachable_call; [|reflexivity].
  apply reachable_call; [|reflexivity].
  apply reachable_new.
Defined.

Lemma stop_holds_frame_witness :
  let c0 := stop (update 0.01 (play sample_controller)) in
  let calls := [CallGetDisplacedZ 3; CallGetTime; CallPlay; CallGetDisplacedZ 3] in
  nth_error (fst (invoke_all sin_cubic calls c0)) 0
  = nth_error (fst (invoke_all sin_cubic calls c0)) 3.
Proof.
  intros c0 calls.
  destruct (stop_holds_frame sin_cubic (update 0.01 (play sample_controller))
                             calls eq_refl) as (_ & H & _).
  fold c0 in H.
  rewrite (proj1 (H 0%nat 3 eq_refl)), (proj1 (H 3%nat 3 eq_refl)).
  reflexivity.
Defined.

Lemma unknown_mode_gives_undisplaced_witness :
  getDisplacedZ sin_cubic 3 (setMode 7 sample_controller) = 0.
Proof.
  apply (unknown_mode_gives_undisplaced sin_cubic sample_controller 7 3
                                        (mkNode 3 6 4 0)); reflexivity.
Defined.

(** A document the parser accepts gets no [E_NODE_DUPLICATE], here the one
    that lists node 1 twice. *)
Lemma parsed_node_duplicate_never_reported_witness :
  count_code E_NODE_DUPLICATE (errors (validate (parsed duplicate_document))) = 0%nat.
Proof.
  exact (parsed_node_duplicate_never_reported
           Number_basic duplicate_document (parsed duplicate_document) eq_refl).
Defined.

(** [setScale(NaN)] and [setSpeed(NaN)] store [NaN]: [Math.min] and
    [Math.max] let it through. *)
Lemma clamp_lets_nan_through (c : Controller) :
  _scale (setScale nan c) = nan /\ _speed (setSpeed nan c) = nan.
Proof. split; reflexivity. Qed.

(** With [freq_hz = {1: 5.0}] and [modes = {2: {...}}] the report has
    exactly two [E_MODE_FREQ_MISMATCH], one per direction. *)
Lemma mode_frequency_mismatch_both_directions :
  let d := parsed (document
                     [node_entry 1 0 0 0; node_entry 2 6 0 0]
                     [line_entry 1 1 2]
                     [("1"%string, JNum 5)]
                     [("2"%string, JObj [("1"%string, JNum 1); ("2"%string, JNum 0.5)])]) in
  map code (errors (validate d)) = [E_MODE_FREQ_MISMATCH; E_MODE_FREQ_MISMATCH] /\
  map message (errors (validate d))
  = [[Text "E_MODE_FREQ_MISMATCH"; Text ": "; Text "modes has mode "; Num 2;
      Text " but freqHz does not"];
     [Text "E_MODE_FREQ_MISMATCH"; Text ": "; Text "freqHz has mode "; Num 1;
      Text " but modes does not"]].
Proof. vm_compute. split; reflexivity. Qed.

(** The sample of the README: it is valid, [L_floor = 6], [A_ref = 0.6],
    [Umax] is [1] for both modes, and the controller starts stopped at time
    [0] on mode 1 with scale and speed [1]. *)
Lemma sample_controller_initial_state :
  errors (validate (parsed sample_document)) = [] /\
  warnings (validate (parsed sample_document)) = [] /\
  _lFloor sample_controller = 6 /\
  _aRef sample_controller = 0.6 /\
  _umaxMap sample_controller = [(1, 1); (2, 1)] /\
  _modeList sample_controller = [1; 2] /\
  _currentMode sample_controller = Some 1 /\
  _time sample_controller = 0 /\
  _playing sample_controller = false /\
  _scale sample_controller = 1 /\
  _speed sample_controller = 1.
Proof. vm_compute. repeat split; reflexivity. Qed.
End Instances.

(** ** The report against the problems of the data set *)

Section Refinement.
Import JsNum Validator Expected.
Local Open Scope list_scope.
Local Open Scope nat_scope.

Lemma emits_eq A (c : Check A) a es ws es' ws' :
  emits c a es ws -> es = es' -> ws = ws' -> emits c a es' ws'.
Proof. intros H -> ->. exact H. Qed.

Lemma emits_value A (c : Check A) a a' es ws es' ws' :
  emits c a es ws -> a = a' -> es = es' -> ws = ws' -> emits c a' es' ws'.
Proof. intros H -> -> ->. exact H. Qed.

Lemma emits_ret A (a : A) : emits (ret a) a [] [].
Proof.
  intros r Hr. cbn [List.length]. rewrite Nat.add_0_r.
  apply Nat.ltb_lt in Hr. rewrite Hr. unfold ret.
  rewrite !app_nil_r. destruct r; reflexivity.
Qed.

Lemma emits_error c msg : emits (error c msg) tt [entry c msg] [].
Proof.
  intros r Hr. unfold error. rewrite (pushError_below _ c msg Hr).
  cbn [List.length]. rewrite Nat.add_1_r, app_nil_r.
  destruct (S (List.length (errors r)) <? MAX_ERRORS) eqn:E.
  - apply Nat.ltb_lt in E.
    destruct (MAX_ERRORS <=? S (List.length (errors r))) eqn:E'.
    + apply Nat.leb_le in E'. lia.
    + reflexivity.
  - apply Nat.ltb_ge in E.
    destruct (MAX_ERRORS <=? S (List.length (errors r))) eqn:E'.
    + exists 0. rewrite firstn_all2; [rewrite firstn_O, app_nil_r; reflexivity|].
      rewrite length_app. cbn. lia.
    + apply Nat.leb_gt in E'. lia.
Qed.

Lemma emits_warning c msg : emits (warning c msg) tt [] [entry c msg].
Proof.
  intros r Hr. cbn [List.length]. rewrite Nat.add_0_r.
  apply Nat.ltb_lt in Hr. rewrite Hr. unfold warning, pushWarning.
  rewrite app_nil_r. reflexivity.
Qed.

Lemma firstn_prefix A (pre rest : list A) : firstn (List.length pre) (pre ++ rest) = pre.
Proof.
  rewrite firstn_app, Nat.sub_diag, firstn_all. cbn. apply app_nil_r.
Qed.

Lemma emits_bind A B (c : Check A) (k : A -> Check B) a b es1 ws1 es2 ws2 :
  emits c a es1 ws1 -> emits (k a) b es2 ws2 ->
  emits (bind c k) b (es1 ++ es2) (ws1 ++ ws2).
Proof.
  intros Hc Hk r Hr. unfold bind. specialize (Hc r Hr).
  rewrite length_app.
  destruct (List.length (errors r) + List.length es1 <? MAX_ERRORS) eqn:E1.
  - apply Nat.ltb_lt in E1. rewrite Hc.
    assert (Hr' : List.length (errors (mkReport (errors r ++ es1) (warnings r ++ ws1)))
                  < MAX_ERRORS) by (cbn; rewrite length_app; lia).
    specialize (Hk _ Hr'). cbn [errors warnings] in Hk.
    rewrite length_app in Hk. rewrite <- Nat.add_assoc in Hk.
    rewrite <- !app_assoc in Hk.
    destruct (_ <? _); [exact Hk|].
    destruct Hk as [n Hk]. exists (List.length ws1 + n).
    rewrite Hk, firstn_app_2, (app_assoc (warnings r)). reflexivity.
  - apply Nat.ltb_ge in E1. destruct Hc as [n Hc]. rewrite Hc.
    destruct (_ <? _) eqn:E2.
    + apply Nat.ltb_lt in E2. lia.
    + exists (List.length (firstn n ws1)). f_equal. f_equal.
      * rewrite (app_assoc (errors r) es1 es2).
        rewrite (firstn_app MAX_ERRORS (errors r ++ es1) es2).
        replace (MAX_ERRORS - List.length (errors r ++ es1)) with 0
          by (rewrite length_app; lia).
        rewrite firstn_O, app_nil_r. reflexivity.
      * f_equal. symmetry.
        transitivity (firstn (List.length (firstn n ws1))
                             (firstn n ws1 ++ (skipn n ws1 ++ ws2))).
        { rewrite app_assoc, firstn_skipn. reflexivity. }
        apply firstn_prefix.
Qed.

Lemma emits_when_error b c msg :
  emits (when b (error c msg)) tt (only_if b (entry c msg)) [].
Proof. destruct b; [apply emits_error | apply emits_ret]. Qed.

Lemma emits_when_warning b c msg :
  emits (when b (warning c msg)) tt [] (only_if b (entry c msg)).
Proof. destruct b; [apply emits_warning | apply emits_ret]. Qed.

Lemma emits_for_each A (body : A -> Check unit) fe fw l :
  (forall a, emits (body a) tt (fe a) (fw a)) ->
  emits (for_each body l) tt (flat_map fe l) (flat_map fw l).
Proof.
  intros H. induction l as [|a l IH]; cbn [for_each flat_map].
  - apply emits_ret.
  - eapply emits_bind; [apply H | exact IH].
Qed.

Lemma flat_map_nil A B (l : list A) : flat_map (fun _ => @nil B) l = [].
Proof. induction l; cbn; auto. Qed.

Lemma set_has_add s k q :
  JsSet.has (JsSet.add s k) q = JsSet.has s q || same_value_zero k q.
Proof.
  unfold JsSet.add. destruct (JsSet.has s k) eqn:E.
  - destruct (same_value_zero k q) eqn:Ekq; [|rewrite orb_false_r; reflexivity].
    rewrite orb_true_r. apply set_has_In in E. destruct E as [k' [Hin Hk']].
    apply set_has_In. exists k'. split; [exact Hin|].
    apply svz_spec. apply svz_spec in Hk', Ekq.
    eapply num_equiv_trans; eassumption.
  - unfold JsSet.has. rewrite existsb_app. cbn.
    rewrite svz_normalize_l, orb_false_r. reflexivity.
Qed.

Lemma seen_before_snoc pre k q :
  seen_before (pre ++ [k]) q = seen_before pre q || same_value_zero k q.
Proof. unfold seen_before. rewrite existsb_app. cbn. rewrite orb_false_r. reflexivity. Qed.


Lemma emits_check_node_ids ids pre rest seen :
  ids = pre ++ rest ->
  (forall k, JsSet.has seen k = seen_before pre k) ->
  emits (check_node_ids rest seen (List.length pre)) tt
        (flat_map (fun p => node_problem ids (fst p) (snd p))
                  (indexed_from (List.length pre) rest)) [].
Proof.
  revert pre seen. induction rest as [|id rest IH]; intros pre seen Hids Hseen.
  - apply emits_ret.
  - cbn [check_node_ids]. unfold indexed_from. cbn [List.length seq combine flat_map fst snd].
    eapply emits_eq; [eapply emits_bind; [apply emits_when_error|]| |reflexivity].
    + replace (S (List.length pre)) with (List.length (pre ++ [id]))
        by (rewrite length_app; cbn; lia).
      apply (IH (pre ++ [id]) (JsSet.add seen id)).
      * rewrite <- app_assoc. exact Hids.
      * intros k. rewrite set_has_add, seen_before_snoc, Hseen. reflexivity.
    + unfold node_problem at 2. rewrite Hids, firstn_prefix, Hseen.
      f_equal. unfold indexed_from. rewrite length_app. cbn.
      rewrite Nat.add_1_r. reflexivity.
Qed.

Lemma emits_check_nodes m :
  emits (check_nodes (Some m)) tt
        (only_if (JsMap.size m =? 0) (entry E_NODES_EMPTY [Text "nodes is empty"]) ++
         each_indexed (node_problem (JsMap.keys m)) (JsMap.keys m)) [].
Proof.
  unfold check_nodes.
  eapply emits_eq; [eapply emits_bind; [apply emits_when_error|]|reflexivity|reflexivity].
  apply (emits_check_node_ids (JsMap.keys m) [] (JsMap.keys m) JsSet.empty);
    reflexivity.
Qed.

Lemma emits_check_line_list ns ls pre rest seen :
  ls = pre ++ rest ->
  (forall k, JsSet.has seen k = seen_before (map line_id pre) k) ->
  emits (check_line_list (Some ns) rest seen (List.length pre)) tt
        (flat_map (fun p => line_problems ns ls (fst p) (snd p))
                  (indexed_from (List.length pre) rest)) [].
Proof.
  revert pre seen. induction rest as [|line rest IH]; intros pre seen Hls Hseen.
  - apply emits_ret.
  - cbn [check_line_list]. unfold indexed_from.
    cbn [List.length seq combine flat_map fst snd].
    eapply emits_eq.
    + eapply emits_bind; [apply emits_when_error|].
      eapply emits_bind.
      * unfold check_line_nodes.
        eapply emits_bind; apply emits_when_error.
      * eapply emits_bind; [apply emits_when_error|].
        replace (S (List.length pre)) with (List.length (pre ++ [line]))
          by (rewrite length_app; cbn; lia).
        apply (IH (pre ++ [line]) (JsSet.add seen (line_id line))).
        -- rewrite <- app_assoc. exact Hls.
        -- intros k. rewrite set_has_add, map_app. cbn [map].
           rewrite seen_before_snoc, Hseen. reflexivity.
    + unfold line_problems at 2. rewrite Hls, firstn_prefix, Hseen.
      rewrite <- !app_assoc. do 4 f_equal.
      unfold indexed_from. rewrite length_app. cbn.
      rewrite Nat.add_1_r. reflexivity.
    + reflexivity.
Qed.

Lemma emits_check_lines ns ls :
  emits (check_lines (Some ns) (Some ls)) tt
        (only_if (List.length ls =? 0) (entry E_LINES_EMPTY [Text "lines is empty"]) ++
         each_indexed (line_problems ns ls) ls) [].
Proof.
  unfold check_lines.
  eapply emits_eq; [eapply emits_bind; [apply emits_when_error|]|reflexivity|reflexivity].
  apply (emits_check_line_list ns ls [] ls JsSet.empty); reflexivity.
Qed.

Lemma emits_check_freq e :
  emits (check_freq e) tt (frequency_problem e) (frequency_advisory e).
Proof.
  destruct e as [modeNum freq]. unfold check_freq, frequency_problem, frequency_advisory.
  destruct (is_nan freq);
    [|destruct (negb (is_finite freq)); [|destruct (freq <=? 0)%float]];
    (eapply emits_eq;
     [eapply emits_bind; [first [apply emits_error | apply emits_ret]
                        | apply emits_when_warning]
     | reflexivity | reflexivity]).
Qed.

Lemma emits_check_freqHz f :
  emits (check_freqHz (Some f)) tt
        (flat_map frequency_problem f) (flat_map frequency_advisory f).
Proof. apply emits_for_each. apply emits_check_freq. Qed.

Lemma emits_check_mode_freq_match ms f :
  emits (check_mode_freq_match (Some ms) (Some f)) tt
        (flat_map (unmatched_mode f) (JsMap.keys ms) ++
         flat_map (unmatched_frequency ms) (JsMap.keys f)) [].
Proof.
  unfold check_mode_freq_match.
  eapply emits_eq.
  - eapply emits_bind;
      apply emits_for_each with (fw := fun _ => []); intros a; apply emits_when_error.
  - reflexivity.
  - rewrite !flat_map_nil. reflexivity.
Qed.

Lemma emits_check_uz ns modeNum entries allZero :
  emits (check_uz ns modeNum entries allZero)
        (allZero && forallb negligible (JsMap.values entries))
        (flat_map (amplitude_problems ns modeNum) entries) [].
Proof.
  revert allZero. induction entries as [|[nodeId uz] rest IH]; intros allZero.
  - cbn. rewrite andb_true_r. apply emits_ret.
  - cbn [check_uz flat_map JsMap.values map forallb snd].
    assert (Hnan : is_nan uz = true -> is_finite uz = false).
    { intros H. apply is_nan_eq in H. subst uz. reflexivity. }
    unfold amplitude_problems at 1, negligible at 1.
    destruct (is_nan uz) eqn:En;
      [rewrite (Hnan eq_refl)
      |destruct (is_finite uz) eqn:Ef;
       [destruct (EPS <? Math_abs uz)%float eqn:Eabs|]];
      cbn [negb orb andb];
      (eapply emits_value;
       [eapply emits_bind; [apply emits_when_error|];
        eapply emits_bind;
        [first [apply emits_ret
               | eapply emits_bind; [apply emits_error|apply emits_ret]]|];
        apply IH
       | rewrite ?andb_false_r; reflexivity
       | rewrite <- ?app_assoc; reflexivity
       | reflexivity]).
Qed.

Lemma emits_check_mode ns e :
  emits (check_mode ns e) tt (mode_problems ns e) (mode_advisory e).
Proof.
  destruct e as [modeNum uzMap]. unfold check_mode, mode_problems, mode_advisory.
  eapply emits_eq.
  - eapply emits_bind; [apply emits_check_uz | apply emits_when_warning].
  - cbn [fst snd]. apply app_nil_r.
  - reflexivity.
Qed.

Lemma emits_check_modes ms ns :
  emits (check_modes (Some ms) (Some ns)) tt
        (flat_map (mode_problems ns) ms) (flat_map mode_advisory ms).
Proof. apply emits_for_each. apply emits_check_mode. Qed.

Lemma emits_check_z_mixed ns :
  emits (check_z_mixed (Some ns)) tt [] (z_advisory ns).
Proof.
  unfold check_z_mixed, z_advisory.
  destruct (0 <? JsMap.size ns); cbn [when andb].
  - apply emits_when_warning.
  - apply emits_ret.
Qed.

Lemma check_required_present ns ls f ms r :
  errors r = [] ->
  check_required (mkInput (Some ns) (Some ls) (Some f) (Some ms)) r = Next tt r.
Proof.
  intros H. unfold check_required, bind, errors_length. cbn. rewrite H. reflexivity.
Qed.

Lemma checks_missing d :
  missing (in_nodes d) || missing (in_lines d) || missing (in_freqHz d)
  || missing (in_modes d) = true ->
  checks d (mkReport [] []) = Return (mkReport (missing_keys d) []).
Proof.
  destruct d as [[ns|] [ls|] [f|] [ms|]]; cbn [missing in_nodes in_lines in_freqHz in_modes orb];
    intros H; try discriminate H; reflexivity.
Qed.

Lemma checks_present ns ls f ms :
  let d := mkInput (Some ns) (Some ls) (Some f) (Some ms) in
  checks d (mkReport [] []) = later_checks d (mkReport [] []).
Proof.
  intros d. unfold checks, later_checks. unfold bind at 1. unfold d.
  rewrite check_required_present by reflexivity. reflexivity.
Qed.

Lemma emits_later_checks ns ls f ms :
  let d := mkInput (Some ns) (Some ls) (Some f) (Some ms) in
  emits (later_checks d) tt (problems d) (advisories d).
Proof.
  intros d. unfold d, later_checks. cbn [in_nodes in_lines in_freqHz in_modes].
  eapply emits_eq.
  - eapply emits_bind; [apply emits_check_nodes|].
    eapply emits_bind; [apply emits_check_lines|].
    eapply emits_bind; [apply emits_check_freqHz|].
    eapply emits_bind; [apply emits_check_mode_freq_match|].
    eapply emits_bind; [apply emits_check_modes|].
    apply emits_check_z_mixed.
  - unfold problems. cbn [in_nodes in_lines in_freqHz in_modes].
    rewrite <- !app_assoc, app_nil_r. reflexivity.
  - unfold advisories. cbn [in_nodes in_lines in_freqHz in_modes app]. reflexivity.
Qed.

Lemma validate_report d :
  errors (validateFloorData d) = firstn MAX_ERRORS (problems d) /\
  (List.length (problems d) < MAX_ERRORS ->
   warnings (validateFloorData d) = advisories d) /\
  exists n, warnings (validateFloorData d) = firstn n (advisories d).
Proof.
  unfold validateFloorData, run.
  destruct (missing (in_nodes d) || missing (in_lines d) || missing (in_freqHz d)
            || missing (in_modes d)) eqn:E.
  - rewrite (checks_missing d E).
    assert (Hp : problems d = missing_keys d).
    { destruct d as [[ns|] [ls|] [f|] [ms|]]; try reflexivity. discriminate E. }
    assert (Ha : advisories d = []).
    { destruct d as [[ns|] [ls|] [f|] [ms|]]; try reflexivity. discriminate E. }
    rewrite Hp, Ha. cbn [errors warnings].
    split; [|split; [reflexivity|exists 0; reflexivity]].
    destruct d as [[ns|] [ls|] [f|] [ms|]]; reflexivity.
  - destruct d as [[ns|] [ls|] [f|] [ms|]]; try discriminate E.
    rewrite checks_present.
    pose proof (emits_later_checks ns ls f ms (mkReport [] [])) as H.
    cbn zeta in H. cbn [errors warnings List.length app Nat.add] in H.
    specialize (H ltac:(unfold MAX_ERRORS; lia)).
    destruct (List.length _ <? MAX_ERRORS) eqn:El.
    + apply Nat.ltb_lt in El. rewrite H. cbn [errors warnings].
      split; [|split].
      * symmetry. apply firstn_all2. lia.
      * reflexivity.
      * exists (List.length (advisories (mkInput (Some ns) (Some ls) (Some f) (Some ms)))).
        rewrite firstn_all. reflexivity.
    + apply Nat.ltb_ge in El. destruct H as [n H]. rewrite H. cbn [errors warnings].
      split; [reflexivity|]. split; [intros; lia|]. exists n. reflexivity.
Qed.

Lemma firstn_cap_nil (l : list Entry) : firstn MAX_ERRORS l = [] <-> l = [].
Proof. destruct l; cbn; split; intros H; try reflexivity; discriminate H. Qed.

Lemma only_if_nil b e : only_if b e = [] <-> b = false.
Proof. destruct b; cbn; split; intros H; try reflexivity; discriminate H. Qed.

Lemma app_nil_iff A (l l' : list A) : l ++ l' = [] <-> l = [] /\ l' = [].
Proof.
  split; [apply app_eq_nil|]. intros [-> ->]. reflexivity.
Qed.

Lemma flat_map_eq_nil A B (f : A -> list B) l :
  flat_map f l = [] <-> forall x, In x l -> f x = [].
Proof.
  induction l as [|a l IH]; cbn.
  - split; [intros _ x []|reflexivity].
  - rewrite app_nil_iff, IH. split.
    + intros [Ha Hl] x [<-|Hx]; auto.
    + intros H. split; [apply H; left; reflexivity|]. intros x Hx. apply H. right. exact Hx.
Qed.

Lemma each_indexed_nil A (f : nat -> A -> list Entry) i l :
  flat_map (fun p => f (fst p) (snd p)) (indexed_from i l) = [] <->
  forall n x, nth_error l n = Some x -> f (i + n) x = [].
Proof.
  revert i. induction l as [|a l IH]; intros i; unfold indexed_from;
    cbn [List.length seq combine flat_map fst snd].
  - split; [intros _ [|n] x H; discriminate H|reflexivity].
  - rewrite app_nil_iff. fold (indexed_from (S i) l). rewrite IH. split.
    + intros [Ha Hl] [|n] x H; cbn in H.
      * injection H as <-. rewrite Nat.add_0_r. exact Ha.
      * replace (i + S n) with (S i + n) by lia. apply (Hl n x H).
    + intros H. split.
      * rewrite <- (Nat.add_0_r i). apply (H 0). reflexivity.
      * intros n x Hx. replace (S i + n) with (i + S n) by lia.
        apply (H (S n)). exact Hx.
Qed.

Lemma distinct_keys_nth ks :
  JsMap.distinct_keys ks <->
  forall n x, nth_error ks n = Some x -> seen_before (firstn n ks) x = false.
Proof.
  induction ks as [|k rest IH]; cbn [JsMap.distinct_keys].
  - split; [intros _ [|n] x H; discriminate H|trivial].
  - rewrite IH. split.
    + intros [Hk Hrest] [|n] x H; cbn in H |- *; [reflexivity|].
      rewrite (Hk x (nth_error_In _ _ H)). apply (Hrest n x H).
    + intros H. split.
      * intros k' Hin. apply In_nth_error in Hin. destruct Hin as [n Hn].
        specialize (H (S n) k' Hn). cbn in H. apply orb_false_iff in H. apply H.
      * intros n x Hn. specialize (H (S n) x Hn). cbn in H.
        apply orb_false_iff in H. apply H.
Qed.

Lemma get_num_equiv {V} (m : JsMap.t V) k q :
  num_equiv k q -> JsMap.get m k = JsMap.get m q.
Proof.
  intros H. induction m as [|[k' v] m IH]; cbn; [reflexivity|].
  rewrite IH.
  replace (same_value_zero k' q) with (same_value_zero k' k); [reflexivity|].
  destruct (same_value_zero k' k) eqn:E1, (same_value_zero k' q) eqn:E2;
    try reflexivity.
  - apply svz_spec in E1. apply svz_false in E2. exfalso. apply E2.
    eapply num_equiv_trans; eassumption.
  - apply svz_false in E1. apply svz_spec in E2. exfalso. apply E1.
    eapply num_equiv_trans; [eassumption|]. apply num_equiv_sym. exact H.
Qed.

Lemma has_num_equiv {V} (m : JsMap.t V) k q :
  num_equiv k q -> JsMap.has m k = JsMap.has m q.
Proof. intros H. unfold JsMap.has. rewrite (get_num_equiv m k q H). reflexivity. Qed.

Lemma key_has {V} (m : JsMap.t V) k : In k (JsMap.keys m) -> JsMap.has m k = true.
Proof. intros H. apply has_In. exists k. split; [exact H|apply svz_refl]. Qed.

Lemma has_subset {V W} (m : JsMap.t V) (m' : JsMap.t W) :
  (forall k, In k (JsMap.keys m) -> JsMap.has m' k = true) ->
  forall q, JsMap.has m q = true -> JsMap.has m' q = true.
Proof.
  intros H q Hq. apply has_In in Hq. destruct Hq as [k [Hin Hk]].
  rewrite <- (has_num_equiv m' k q); [apply H; exact Hin|].
  apply svz_spec. exact Hk.
Qed.

Lemma same_keys_iff {V W} (m : JsMap.t V) (m' : JsMap.t W) :
  (forall k, In k (JsMap.keys m) -> JsMap.has m' k = true) /\
  (forall k, In k (JsMap.keys m') -> JsMap.has m k = true) <->
  forall q, JsMap.has m q = JsMap.has m' q.
Proof.
  split.
  - intros [H1 H2] q.
    destruct (JsMap.has m q) eqn:E1, (JsMap.has m' q) eqn:E2; try reflexivity.
    + rewrite (has_subset m m' H1 q E1) in E2. discriminate E2.
    + rewrite (has_subset m' m H2 q E2) in E1. discriminate E1.
  - intros H. split; intros k Hk.
    + rewrite <- H. apply key_has. exact Hk.
    + rewrite H. apply key_has. exact Hk.
Qed.

Lemma is_finite_not_nan x : is_finite x = true -> is_nan x = false.
Proof.
  unfold is_finite. intros H. apply negb_true_iff, orb_false_iff in H. apply H.
Qed.

Lemma ltb_not_leb x y : (x <? y)%float = true -> (y <=? x)%float = false.
Proof.
  intros H. apply ltb_place in H. destruct H as [Hx [Hy H]].
  destruct (y <=? x)%float eqn:E; [|reflexivity].
  apply leb_place in E. destruct E as [_ [_ E]]. exfalso. apply E.
  apply place_compare_gt. exact H.
Qed.

Lemma frequency_problem_nil modeNum freq :
  frequency_problem (modeNum, freq) = [] <->
  is_finite freq = true /\ (0 <? freq)%float = true.
Proof.
  unfold frequency_problem. split.
  - destruct (is_nan freq) eqn:En; [discriminate|].
    destruct (is_finite freq) eqn:Ef; [|discriminate]. cbn [negb].
    destruct (freq <=? 0)%float eqn:El; [discriminate|]. intros _. split; [reflexivity|].
    destruct (0 <? freq)%float eqn:E0; [reflexivity|].
    rewrite (not_ltb_leb freq 0 En eq_refl E0) in El. discriminate El.
  - intros [Hf H0]. rewrite (is_finite_not_nan _ Hf), Hf, (ltb_not_leb _ _ H0).
    reflexivity.
Qed.

Lemma amplitude_problems_nil ns modeNum nodeId uz :
  amplitude_problems ns modeNum (nodeId, uz) = [] <->
  JsMap.has ns nodeId = true /\ is_finite uz = true.
Proof.
  unfold amplitude_problems. rewrite app_nil_iff, only_if_nil, negb_false_iff.
  split.
  - intros [Hh H]. split; [exact Hh|].
    destruct (is_nan uz); [discriminate H|].
    destruct (is_finite uz); [reflexivity|discriminate H].
  - intros [Hh Hf]. split; [exact Hh|].
    rewrite (is_finite_not_nan _ Hf), Hf. reflexivity.
Qed.

Lemma line_problems_nil ns ls i line :
  line_problems ns ls i line = [] <->
  seen_before (map line_id (firstn i ls)) (line_id line) = false /\
  JsMap.has ns (line_nodeI line) = true /\
  JsMap.has ns (line_nodeJ line) = true /\
  strict_equal (line_nodeI line) (line_nodeJ line) = false.
Proof.
  unfold line_problems.
  rewrite !app_nil_iff, !only_if_nil, !negb_false_iff. reflexivity.
Qed.

Lemma problems_nil_iff d : problems d = [] <-> consistent d.
Proof.
  destruct d as [[ns|] [ls|] [f|] [ms|]];
    try (unfold problems, consistent; cbn; split; [discriminate|intros []]).
  unfold problems, consistent. cbn [in_nodes in_lines in_freqHz in_modes].
  rewrite !app_nil_iff, !only_if_nil.
  unfold each_indexed. rewrite !each_indexed_nil, !flat_map_eq_nil.
  split.
  - intros (Hn & Hdup & Hl & Hlines & Hfreq & Hm1 & Hm2 & Hmodes).
    split; [|split; [|split; [|split; [|split; [|split; [|split]]]]]].
    + intros ->. discriminate Hn.
    + apply distinct_keys_nth. intros n x Hx.
      specialize (Hdup n x Hx). apply only_if_nil in Hdup. exact Hdup.
    + intros ->. discriminate Hl.
    + apply distinct_keys_nth. intros n x Hx.
      rewrite nth_error_map in Hx.
      destruct (nth_error ls n) as [line|] eqn:E; [|discriminate Hx].
      injection Hx as <-. specialize (Hlines n line E).
      apply line_problems_nil in Hlines. rewrite firstn_map. apply Hlines.
    + intros line Hin. apply In_nth_error in Hin. destruct Hin as [n Hn'].
      specialize (Hlines n line Hn'). apply line_problems_nil in Hlines. apply Hlines.
    + intros modeNum freq Hin. apply frequency_problem_nil with (modeNum := modeNum).
      apply Hfreq. exact Hin.
    + apply same_keys_iff. split; intros k Hk.
      * specialize (Hm1 k Hk). apply only_if_nil, negb_false_iff in Hm1. exact Hm1.
      * specialize (Hm2 k Hk). apply only_if_nil, negb_false_iff in Hm2. exact Hm2.
    + intros modeNum uzMap nodeId uz Hin Hin'.
      specialize (Hmodes _ Hin). unfold mode_problems in Hmodes.
      rewrite flat_map_eq_nil in Hmodes. specialize (Hmodes _ Hin').
      apply amplitude_problems_nil in Hmodes. exact Hmodes.
  - intros (Hn & Hdup & Hl & Hlines & Hline & Hfreq & Hm & Hmodes).
    rewrite distinct_keys_nth in Hdup, Hlines.
    apply same_keys_iff in Hm. destruct Hm as [Hm1 Hm2].
    split; [|split; [|split; [|split; [|split; [|split; [|split]]]]]].
    + destruct ns; [contradiction Hn; reflexivity|reflexivity].
    + intros n x Hx. cbn [Nat.add]. apply only_if_nil. apply Hdup. exact Hx.
    + destruct ls; [contradiction Hl; reflexivity|reflexivity].
    + intros n line Hx. cbn [Nat.add]. apply line_problems_nil. split.
      * rewrite <- firstn_map. apply Hlines. rewrite nth_error_map, Hx. reflexivity.
      * apply Hline. apply (nth_error_In _ _ Hx).
    + intros [modeNum freq] Hin. apply frequency_problem_nil. eapply Hfreq. exact Hin.
    + intros k Hk. apply only_if_nil, negb_false_iff. apply Hm1. exact Hk.
    + intros k Hk. apply only_if_nil, negb_false_iff. apply Hm2. exact Hk.
    + intros [modeNum uzMap] Hin. unfold mode_problems. apply flat_map_eq_nil.
      intros [nodeId uz] Hin'. apply amplitude_problems_nil.
      eapply Hmodes; eassumption.
Qed.

(** The report at any size.  The errors are the problems of the data set in
    the order of the checks, cut off at 100; the warnings are the advisories
    in order, or a front part of them when the 100th error stopped the
    checks. *)
Theorem validate_reports_problems_in_order (d : Input) :
  let r := validateFloorData d in
  errors r = firstn 100 (problems d) /\
  List.length (errors r) = Nat.min 100 (List.length (problems d)) /\
  exists n, n <= List.length (advisories d) /\ warnings r = firstn n (advisories d).
Proof.
  intros r. destruct (validate_report d) as (He & _ & n & Hw). fold r in He, Hw.
  split; [exact He|]. split.
  - rewrite He. apply length_firstn.
  - exists (Nat.min n (List.length (advisories d))). split; [lia|].
    rewrite Hw. destruct (Nat.le_ge_cases n (List.length (advisories d))) as [H|H].
    + rewrite Nat.min_l by exact H. reflexivity.
    + rewrite Nat.min_r by exact H. rewrite !firstn_all2; [reflexivity|lia|exact H].
Qed.

(** With fewer than 100 problems the report is complete: every problem is
    an error and every advisory a warning, each once and in order. *)
Theorem validate_reports_advisories (d : Input) :
  List.length (problems d) < 100 ->
  validateFloorData d = mkReport (problems d) (advisories d).
Proof.
  intros H. destruct (validate_report d) as (He & Hw & _).
  destruct (validateFloorData d) as [es ws]. cbn [errors warnings] in *.
  rewrite He, (Hw H). rewrite firstn_all2; [reflexivity|].
  unfold MAX_ERRORS. lia.
Qed.

(** The validator reports no error exactly for the consistent data sets:
    the four keys present, nodes and lines not empty and with distinct ids,
    every line between two different existing nodes, every frequency finite
    and positive, the same mode numbers in [modes] and [freqHz], every
    amplitude finite and given to an existing node. *)
Theorem validate_accepts_consistent (d : Input) :
  errors (validateFloorData d) = [] <-> consistent d.
Proof.
  rewrite (proj1 (validate_report d)), firstn_cap_nil. apply problems_nil_iff.
Qed.

Lemma length_only_if b e : List.length (only_if b e) <= 1.
Proof. destruct b; cbn; lia. Qed.

Lemma length_flat_map_le A (f : A -> list Entry) l :
  (forall a, List.length (f a) <= 1) ->
  List.length (flat_map f l) <= List.length l.
Proof.
  intros H. induction l as [|a l IH]; cbn; [lia|].
  rewrite length_app. specialize (H a). lia.
Qed.

Lemma length_advisories ns ls f ms :
  List.length (advisories (mkInput (Some ns) (Some ls) (Some f) (Some ms)))
  <= JsMap.size f + JsMap.size ms + 1.
Proof.
  unfold advisories. cbn [in_nodes in_lines in_freqHz in_modes].
  rewrite !length_app. unfold JsMap.size.
  assert (List.length (flat_map frequency_advisory f) <= List.length f).
  { apply length_flat_map_le. intros [m x]. apply length_only_if. }
  assert (List.length (flat_map mode_advisory ms) <= List.length ms).
  { apply length_flat_map_le. intros [m x]. apply length_only_if. }
  assert (List.length (z_advisory ns) <= 1) by apply length_only_if.
  lia.
Qed.

(** Warnings have no limit of their own, but there are never more of them
    than one for each frequency, one for each mode and one for the nodes. *)
Theorem warnings_bounded_by_data (data : FloorData) :
  List.length (warnings (validate data))
  <= JsMap.size (freqHz data) + JsMap.size (modes data) + 1.
Proof.
  unfold validate. destruct (validate_report (input_of data)) as (_ & _ & [n Hn]).
  rewrite Hn, length_firstn.
  pose proof (length_advisories (nodes data) (lines data) (freqHz data) (modes data)).
  unfold input_of. lia.
Qed.

Lemma entry_vocabulary (P : Code -> bool) (l : list Entry) :
  Forall (fun e => exists c msg, e = entry c msg /\ P c = true) l ->
  forall e, In e l -> P (code e) = true /\ labelled e.
Proof.
  intros H e Hin. rewrite Forall_forall in H. destruct (H e Hin) as (c & msg & -> & Hc).
  split; [exact Hc|]. exists msg. reflexivity.
Qed.

Ltac vocabulary :=
  repeat first
    [ apply Forall_nil
    | apply Forall_app; split
    | apply Forall_flat_map; apply Forall_forall; intros ? _
    | match goal with
      | |- Forall _ (only_if ?b _) => destruct b; cbn [only_if]
      | |- Forall _ (if ?b then _ else _) => destruct b
      | |- Forall _ (let (_, _) := ?p in _) => destruct p
      | |- Forall _ (_ :: _) =>
          apply Forall_cons; [eexists; eexists; split; reflexivity|]
      end ].

Lemma problems_vocabulary d :
  Forall (fun e => exists c msg, e = entry c msg /\ is_error_code c = true)
         (problems d).
Proof.
  destruct d as [[ns|] [ls|] [f|] [ms|]]; unfold problems, missing_keys;
    cbn [in_nodes in_lines in_freqHz in_modes missing only_if app];
    unfold each_indexed, node_problem, line_problems, frequency_problem,
      unmatched_mode, unmatched_frequency, mode_problems, amplitude_problems;
    vocabulary.
Qed.

Lemma advisories_vocabulary d :
  Forall (fun e => exists c msg, e = entry c msg /\ is_warning_code c = true)
         (advisories d).
Proof.
  destruct d as [[ns|] [ls|] [f|] [ms|]]; unfold advisories;
    cbn [in_nodes in_lines in_freqHz in_modes];
    unfold frequency_advisory, mode_advisory, z_advisory;
    vocabulary.
Qed.

Lemma Forall_firstn_of A (P : A -> Prop) n l : Forall P l -> Forall P (firstn n l).
Proof.
  intros H. rewrite Forall_forall in *. intros x Hx. apply H.
  rewrite <- (firstn_skipn n l). apply in_or_app. left. exact Hx.
Qed.

(** Every entry of [errors] has a code that begins with [E_], every entry
    of [warnings] one that begins with [W_], and every message begins with
    the code of its entry and a colon. *)
Theorem report_vocabulary (d : Input) :
  (forall e, In e (errors (validateFloorData d)) ->
             is_error_code (code e) = true /\ labelled e) /\
  (forall e, In e (warnings (validateFloorData d)) ->
             is_warning_code (code e) = true /\ labelled e).
Proof.
  destruct (validate_report d) as (He & _ & [n Hw]). rewrite He, Hw. split.
  - apply entry_vocabulary, Forall_firstn_of, problems_vocabulary.
  - apply entry_vocabulary, Forall_firstn_of, advisories_vocabulary.
Qed.

(** When one of the four keys is missing the report holds one
    [E_MISSING_KEY] for each missing key, in the order [nodes], [lines],
    [freqHz], [modes], and nothing else: no other check is made. *)
Theorem missing_key_stops_validation (d : Input) :
  missing (in_nodes d) || missing (in_lines d) || missing (in_freqHz d)
  || missing (in_modes d) = true ->
  validateFloorData d = mkReport (missing_keys d) [] /\
  (forall e, In e (errors (validateFloorData d)) -> code e = E_MISSING_KEY) /\
  List.length (errors (validateFloorData d))
  = List.length (filter (fun b : bool => b)
                        [missing (in_nodes d); missing (in_lines d);
                         missing (in_freqHz d); missing (in_modes d)]).
Proof.
  intros H. unfold validateFloorData, run. rewrite (checks_missing d H).
  split; [reflexivity|]. cbn [errors].
  destruct d as [[ns|] [ls|] [f|] [ms|]]; cbn; (split; [|reflexivity]);
    intros e He; repeat (destruct He as [<-|He]; [reflexivity|]); destruct He.
Qed.
Lemma problems_present_vocabulary ns ls f ms :
  Forall (fun e => exists c msg,
              e = entry c msg /\ negb (code_eqb c E_MISSING_KEY) = true)
         (problems (mkInput (Some ns) (Some ls) (Some f) (Some ms))).
Proof.
  unfold problems; cbn [in_nodes in_lines in_freqHz in_modes];
    unfold each_indexed, node_problem, line_problems, frequency_problem,
      unmatched_mode, unmatched_frequency, mode_problems, amplitude_problems;
    vocabulary.
Qed.

Lemma count_code_zero c l :
  (forall e, In e l -> negb (code_eqb (code e) c) = true) -> count_code c l = 0.
Proof.
  intros H. unfold count_code. induction l as [|e l IH]; [reflexivity|].
  cbn [filter]. specialize (H e (or_introl eq_refl)) as He.
  apply negb_true_iff in He. rewrite He. apply IH.
  intros e' He'. apply H. right. exact He'.
Qed.

Lemma each_indexed_distinct ids :
  JsMap.distinct_keys ids -> each_indexed (node_problem ids) ids = [].
Proof.
  intros H. unfold each_indexed. apply each_indexed_nil. intros n x Hx.
  apply only_if_nil. apply distinct_keys_nth; assumption.
Qed.

End Refinement.

(** ** The report as the findings up to the limit *)

Section Collection.
Import JsNum Validator Expected Findings.
Local Open Scope list_scope.
Local Open Scope nat_scope.

Lemma problems_of_app fs1 fs2 :
  problems_of (fs1 ++ fs2) = problems_of fs1 ++ problems_of fs2.
Proof. apply flat_map_app. Qed.

Lemma advisories_of_app fs1 fs2 :
  advisories_of (fs1 ++ fs2) = advisories_of fs1 ++ advisories_of fs2.
Proof. apply flat_map_app. Qed.

Lemma problems_of_problems es : problems_of (map Problem es) = es.
Proof. induction es as [|e es IH]; cbn; [|rewrite <- IH at 2]; reflexivity. Qed.

Lemma problems_of_advisories ws : problems_of (map Advisory ws) = [].
Proof. induction ws as [|e ws IH]; cbn; [reflexivity|exact IH]. Qed.

Lemma advisories_of_advisories ws : advisories_of (map Advisory ws) = ws.
Proof. induction ws as [|e ws IH]; cbn; [|rewrite <- IH at 2]; reflexivity. Qed.

Lemma advisories_of_problems es : advisories_of (map Problem es) = [].
Proof. induction es as [|e es IH]; cbn; [reflexivity|exact IH]. Qed.

Lemma problems_of_problem e fs : problems_of (Problem e :: fs) = e :: problems_of fs.
Proof. reflexivity. Qed.

Lemma problems_of_advisory e fs : problems_of (Advisory e :: fs) = problems_of fs.
Proof. reflexivity. Qed.

Lemma upto_zero fs : upto 0 fs = [].
Proof. destruct fs as [|[e|e] fs]; reflexivity. Qed.

(** With fewer than [n] problems nothing is left out. *)
Lemma upto_all n fs : List.length (problems_of fs) < n -> upto n fs = fs.
Proof.
  revert n. induction fs as [|[e|e] fs IH]; intros n H; cbn [upto].
  - reflexivity.
  - rewrite problems_of_problem in H. cbn [List.length] in H.
    destruct n as [|n]; [lia|]. rewrite IH by lia. reflexivity.
  - rewrite problems_of_advisory in H.
    destruct n as [|n]; [lia|]. rewrite IH by exact H. reflexivity.
Qed.

Lemma upto_app n fs1 fs2 :
  upto n (fs1 ++ fs2) =
  if List.length (problems_of fs1) <? n
  then fs1 ++ upto (n - List.length (problems_of fs1)) fs2
  else upto n fs1.
Proof.
  revert n. induction fs1 as [|[e|e] fs1 IH]; intros n; cbn [app upto].
  - cbn [problems_of flat_map List.length].
    destruct n as [|n]; [rewrite upto_zero; reflexivity|].
    rewrite Nat.sub_0_r. reflexivity.
  - rewrite problems_of_problem. cbn [List.length].
    destruct n as [|n]; [reflexivity|]. rewrite IH.
    change (S (List.length (problems_of fs1)) <? S n)
      with (List.length (problems_of fs1) <? n).
    cbn [Nat.sub].
    destruct (List.length (problems_of fs1) <? n); reflexivity.
  - rewrite problems_of_advisory.
    destruct n as [|n]; [reflexivity|]. rewrite IH.
    destruct (List.length (problems_of fs1) <? S n); reflexivity.
Qed.

(** The problems kept are the first [n]. *)
Lemma problems_of_upto n fs : problems_of (upto n fs) = firstn n (problems_of fs).
Proof.
  revert n. induction fs as [|[e|e] fs IH]; intros n; cbn [upto].
  - rewrite firstn_nil. reflexivity.
  - destruct n as [|n]; [reflexivity|].
    rewrite !problems_of_problem. cbn [firstn]. rewrite IH. reflexivity.
  - destruct n as [|n]; [reflexivity|].
    rewrite !problems_of_advisory. apply IH.
Qed.

(** The findings kept are a front part of the findings. *)
Lemma upto_front n fs : exists rest, fs = upto n fs ++ rest.
Proof.
  revert n. induction fs as [|[e|e] fs IH]; intros n; cbn [upto].
  - exists []. reflexivity.
  - destruct n as [|n]; [eexists; reflexivity|].
    destruct (IH n) as [rest H]. exists rest. cbn [app]. rewrite <- H. reflexivity.
  - destruct n as [|n]; [eexists; reflexivity|].
    destruct (IH (S n)) as [rest H]. exists rest. cbn [app]. rewrite <- H. reflexivity.
Qed.

(** Cut before the last problem is reached, the findings stop at a problem:
    no advisory that follows the [n]-th problem is kept. *)
Lemma upto_stops n fs :
  n <= List.length (problems_of fs) -> 0 < n ->
  exists front e, upto n fs = front ++ [Problem e] /\
                  List.length (problems_of front) = n - 1.
Proof.
  revert n. induction fs as [|[e|e] fs IH]; intros n Hn H0; cbn [upto].
  - cbn in Hn. lia.
  - rewrite problems_of_problem in Hn. cbn [List.length] in Hn.
    destruct n as [|n]; [lia|]. destruct n as [|n].
    + exists [], e. rewrite upto_zero. split; reflexivity.
    + destruct (IH (S n)) as (front & e' & H1 & H2); [lia|lia|].
      exists (Problem e :: front), e'. rewrite H1. split; [reflexivity|].
      rewrite problems_of_problem. cbn [List.length]. rewrite H2. lia.
  - rewrite problems_of_advisory in Hn.
    destruct n as [|n]; [lia|].
    destruct (IH (S n)) as (front & e' & H1 & H2); [exact Hn|lia|].
    exists (Advisory e :: front), e'. rewrite H1. split; [reflexivity|].
    rewrite problems_of_advisory. exact H2.
Qed.

Lemma traces_eq A (c : Check A) a a' fs fs' :
  traces c a fs -> a = a' -> fs = fs' -> traces c a' fs'.
Proof. intros H -> ->. exact H. Qed.

Lemma traces_ret A (a : A) : traces (ret a) a [].
Proof.
  intros r Hr. cbv zeta. cbn [upto problems_of advisories_of flat_map List.length].
  rewrite !app_nil_r.
  destruct (Nat.ltb_spec 0 (MAX_ERRORS - List.length (errors r))); [|lia].
  destruct r; reflexivity.
Qed.

Lemma traces_error c msg : traces (error c msg) tt [Problem (entry c msg)].
Proof.
  intros r Hr. unfold error. rewrite (pushError_below _ c msg Hr). cbv zeta.
  cbn [problems_of flat_map app List.length].
  destruct (MAX_ERRORS - List.length (errors r)) as [|room] eqn:E; [lia|].
  cbn [upto problems_of advisories_of flat_map app].
  rewrite app_nil_r.
  destruct (Nat.ltb_spec 1 (S room)), (Nat.leb_spec MAX_ERRORS (S (List.length (errors r))));
    try lia; reflexivity.
Qed.

Lemma traces_warning c msg : traces (warning c msg) tt [Advisory (entry c msg)].
Proof.
  intros r Hr. unfold warning, pushWarning. cbv zeta.
  cbn [problems_of flat_map app List.length].
  destruct (MAX_ERRORS - List.length (errors r)) as [|room] eqn:E; [lia|].
  cbn [upto problems_of advisories_of flat_map app Nat.ltb Nat.leb].
  rewrite app_nil_r. reflexivity.
Qed.

Lemma traces_bind A B (c : Check A) (k : A -> Check B) a b fs1 fs2 :
  traces c a fs1 -> traces (k a) b fs2 -> traces (bind c k) b (fs1 ++ fs2).
Proof.
  intros Hc Hk r Hr. unfold bind. specialize (Hc r Hr). cbv zeta in *.
  set (room := MAX_ERRORS - List.length (errors r)) in *.
  rewrite upto_app, problems_of_app, length_app.
  destruct (Nat.ltb_spec (List.length (problems_of fs1)) room) as [H1|H1].
  - rewrite Hc. rewrite (upto_all room fs1 H1).
    assert (Hr' : List.length (errors (mkReport (errors r ++ problems_of fs1)
                                                (warnings r ++ advisories_of fs1)))
                  < MAX_ERRORS) by (cbn; rewrite length_app; lia).
    specialize (Hk _ Hr'). cbn [errors warnings] in Hk.
    rewrite length_app in Hk.
    replace (MAX_ERRORS - (List.length (errors r) + List.length (problems_of fs1)))
      with (room - List.length (problems_of fs1)) in Hk by lia.
    rewrite problems_of_app, advisories_of_app, !app_assoc.
    destruct (Nat.ltb_spec (List.length (problems_of fs2))
                           (room - List.length (problems_of fs1)));
      destruct (Nat.ltb_spec (List.length (problems_of fs1) + List.length (problems_of fs2))
                             room);
      try lia; exact Hk.
  - rewrite Hc.
    destruct (Nat.ltb_spec (List.length (problems_of fs1) + List.length (problems_of fs2))
                           room); [lia|reflexivity].
Qed.

Lemma traces_when_error b c msg :
  traces (when b (error c msg)) tt (map Problem (only_if b (entry c msg))).
Proof. destruct b; [apply traces_error | apply traces_ret]. Qed.

Lemma traces_when_warning b c msg :
  traces (when b (warning c msg)) tt (map Advisory (only_if b (entry c msg))).
Proof. destruct b; [apply traces_warning | apply traces_ret]. Qed.

Lemma traces_for_each A (body : A -> Check unit) f l :
  (forall a, traces (body a) tt (f a)) ->
  traces (for_each body l) tt (flat_map f l).
Proof.
  intros H. induction l as [|a l IH]; cbn [for_each flat_map].
  - apply traces_ret.
  - eapply traces_bind; [apply H | exact IH].
Qed.

Lemma map_flat_map A B C (g : B -> C) (f : A -> list B) l :
  map g (flat_map f l) = flat_map (fun a => map g (f a)) l.
Proof.
  induction l as [|a l IH]; cbn [flat_map map]; [reflexivity|].
  rewrite map_app, IH. reflexivity.
Qed.

Lemma traces_check_node_ids ids pre rest seen :
  ids = pre ++ rest ->
  (forall k, JsSet.has seen k = seen_before pre k) ->
  traces (check_node_ids rest seen (List.length pre)) tt
         (map Problem
              (flat_map (fun p => node_problem ids (fst p) (snd p))
                        (indexed_from (List.length pre) rest))).
Proof.
  revert pre seen. induction rest as [|id rest IH]; intros pre seen Hids Hseen.
  - apply traces_ret.
  - cbn [check_node_ids]. unfold indexed_from.
    cbn [List.length seq combine flat_map fst snd]. rewrite map_app.
    eapply traces_eq; [eapply traces_bind; [apply traces_when_error|]|reflexivity|].
    + replace (S (List.length pre)) with (List.length (pre ++ [id]))
        by (rewrite length_app; cbn; lia).
      apply (IH (pre ++ [id]) (JsSet.add seen id)).
      * rewrite <- app_assoc. exact Hids.
      * intros k. rewrite set_has_add, seen_before_snoc, Hseen. reflexivity.
    + unfold node_problem at 2. rewrite Hids, firstn_prefix, Hseen.
      f_equal. unfold indexed_from. rewrite length_app. cbn.
      rewrite Nat.add_1_r. reflexivity.
Qed.

Lemma traces_check_nodes m :
  traces (check_nodes (Some m)) tt
         (map Problem
              (only_if (JsMap.size m =? 0) (entry E_NODES_EMPTY [Text "nodes is empty"]) ++
               each_indexed (node_problem (JsMap.keys m)) (JsMap.keys m))).
Proof.
  unfold check_nodes. rewrite map_app.
  eapply traces_bind; [apply traces_when_error|].
  apply (traces_check_node_ids (JsMap.keys m) [] (JsMap.keys m) JsSet.empty);
    reflexivity.
Qed.

Lemma traces_check_line_list ns ls pre rest seen :
  ls = pre ++ rest ->
  (forall k, JsSet.has seen k = seen_before (map line_id pre) k) ->
  traces (check_line_list (Some ns) rest seen (List.length pre)) tt
         (map Problem
              (flat_map (fun p => line_problems ns ls (fst p) (snd p))
                        (indexed_from (List.length pre) rest))).
Proof.
  revert pre seen. induction rest as [|line rest IH]; intros pre seen Hls Hseen.
  - apply traces_ret.
  - cbn [check_line_list]. unfold indexed_from.
    cbn [List.length seq combine flat_map fst snd].
    eapply traces_eq.
    + eapply traces_bind; [apply traces_when_error|].
      eapply traces_bind.
      * unfold check_line_nodes.
        eapply traces_bind; apply traces_when_error.
      * eapply traces_bind; [apply traces_when_error|].
        replace (S (List.length pre)) with (List.length (pre ++ [line]))
          by (rewrite length_app; cbn; lia).
        apply (IH (pre ++ [line]) (JsSet.add seen (line_id line))).
        -- rewrite <- app_assoc. exact Hls.
        -- intros k. rewrite set_has_add, map_app. cbn [map].
           rewrite seen_before_snoc, Hseen. reflexivity.
    + reflexivity.
    + unfold line_problems at 2. rewrite Hls, firstn_prefix, Hseen.
      rewrite !map_app, <- !app_assoc. do 4 f_equal.
      unfold indexed_from. rewrite length_app. cbn.
      rewrite Nat.add_1_r. reflexivity.
Qed.

Lemma traces_check_lines ns ls :
  traces (check_lines (Some ns) (Some ls)) tt
         (map Problem
              (only_if (List.length ls =? 0) (entry E_LINES_EMPTY [Text "lines is empty"]) ++
               each_indexed (line_problems ns ls) ls)).
Proof.
  unfold check_lines. rewrite map_app.
  eapply traces_bind; [apply traces_when_error|].
  apply (traces_check_line_list ns ls [] ls JsSet.empty); reflexivity.
Qed.

Lemma traces_check_freq e : traces (check_freq e) tt (frequency_findings e).
Proof.
  destruct e as [modeNum freq].
  unfold check_freq, frequency_findings, frequency_problem, frequency_advisory.
  destruct (is_nan freq);
    [|destruct (negb (is_finite freq)); [|destruct (freq <=? 0)%float]];
    (eapply traces_bind; [first [apply traces_error | apply traces_ret]
                         | apply traces_when_warning]).
Qed.

Lemma traces_check_freqHz f :
  traces (check_freqHz (Some f)) tt (flat_map frequency_findings f).
Proof. apply traces_for_each. apply traces_check_freq. Qed.

Lemma traces_check_mode_freq_match ms f :
  traces (check_mode_freq_match (Some ms) (Some f)) tt
         (map Problem
              (flat_map (unmatched_mode f) (JsMap.keys ms) ++
               flat_map (unmatched_frequency ms) (JsMap.keys f))).
Proof.
  unfold check_mode_freq_match. rewrite map_app, !map_flat_map.
  eapply traces_bind; apply traces_for_each; intros a; apply traces_when_error.
Qed.

Lemma traces_check_uz ns modeNum entries allZero :
  traces (check_uz ns modeNum entries allZero)
         (allZero && forallb negligible (JsMap.values entries))
         (map Problem (flat_map (amplitude_problems ns modeNum) entries)).
Proof.
  revert allZero. induction entries as [|[nodeId uz] rest IH]; intros allZero.
  - cbn. rewrite andb_true_r. apply traces_ret.
  - cbn [check_uz flat_map JsMap.values map forallb snd].
    assert (Hnan : is_nan uz = true -> is_finite uz = false).
    { intros H. apply is_nan_eq in H. subst uz. reflexivity. }
    unfold amplitude_problems at 1, negligible at 1.
    destruct (is_nan uz) eqn:En;
      [rewrite (Hnan eq_refl)
      |destruct (is_finite uz) eqn:Ef;
       [destruct (EPS <? Math_abs uz)%float eqn:Eabs|]];
      cbn [negb orb andb];
      (eapply traces_eq;
       [eapply traces_bind; [apply traces_when_error|];
        eapply traces_bind;
        [first [apply traces_ret
               | eapply traces_bind; [apply traces_error|apply traces_ret]]|];
        apply IH
       | rewrite ?andb_false_r; reflexivity
       | rewrite !map_app, <- ?app_assoc; reflexivity]).
Qed.

Lemma traces_check_mode ns e : traces (check_mode ns e) tt (mode_findings ns e).
Proof.
  destruct e as [modeNum uzMap]. unfold check_mode, mode_findings, mode_problems, mode_advisory.
  cbn [fst snd].
  eapply traces_bind; [apply traces_check_uz | apply traces_when_warning].
Qed.

Lemma traces_check_modes ms ns :
  traces (check_modes (Some ms) (Some ns)) tt (flat_map (mode_findings ns) ms).
Proof. apply traces_for_each. apply traces_check_mode. Qed.

Lemma traces_check_z_mixed ns :
  traces (check_z_mixed (Some ns)) tt (map Advisory (z_advisory ns)).
Proof.
  unfold check_z_mixed, z_advisory.
  destruct (0 <? JsMap.size ns); cbn [when andb].
  - apply traces_when_warning.
  - apply traces_ret.
Qed.

Lemma traces_later_checks ns ls f ms :
  let d := mkInput (Some ns) (Some ls) (Some f) (Some ms) in
  traces (later_checks d) tt (findings d).
Proof.
  intros d. unfold d, later_checks, findings. cbn [in_nodes in_lines in_freqHz in_modes].
  eapply traces_bind; [apply traces_check_nodes|].
  eapply traces_bind; [apply traces_check_lines|].
  eapply traces_bind; [apply traces_check_freqHz|].
  eapply traces_bind; [apply traces_check_mode_freq_match|].
  eapply traces_bind; [apply traces_check_modes|].
  apply traces_check_z_mixed.
Qed.

(** The problems and the advisories among the findings are the problems and
    the advisories of the data set. *)
Lemma problems_of_frequency f :
  problems_of (flat_map frequency_findings f) = flat_map frequency_problem f.
Proof.
  induction f as [|e f IH]; cbn [flat_map]; [reflexivity|].
  unfold frequency_findings at 1.
  rewrite !problems_of_app, problems_of_problems, problems_of_advisories, IH, app_nil_r.
  reflexivity.
Qed.

Lemma advisories_of_frequency f :
  advisories_of (flat_map frequency_findings f) = flat_map frequency_advisory f.
Proof.
  induction f as [|e f IH]; cbn [flat_map]; [reflexivity|].
  unfold frequency_findings at 1.
  rewrite !advisories_of_app, advisories_of_problems, advisories_of_advisories, IH.
  reflexivity.
Qed.

Lemma problems_of_modes ns ms :
  problems_of (flat_map (mode_findings ns) ms) = flat_map (mode_problems ns) ms.
Proof.
  induction ms as [|e ms IH]; cbn [flat_map]; [reflexivity|].
  unfold mode_findings at 1.
  rewrite !problems_of_app, problems_of_problems, problems_of_advisories, IH, app_nil_r.
  reflexivity.
Qed.

Lemma advisories_of_modes ns ms :
  advisories_of (flat_map (mode_findings ns) ms) = flat_map mode_advisory ms.
Proof.
  induction ms as [|e ms IH]; cbn [flat_map]; [reflexivity|].
  unfold mode_findings at 1.
  rewrite !advisories_of_app, advisories_of_problems, advisories_of_advisories, IH.
  reflexivity.
Qed.

Lemma findings_problems d : problems_of (findings d) = problems d.
Proof.
  unfold findings, problems.
  destruct (in_nodes d) as [ns|], (in_lines d) as [ls|], (in_freqHz d) as [f|],
    (in_modes d) as [ms|]; try apply problems_of_problems.
  rewrite !problems_of_app, !problems_of_problems, problems_of_advisories,
    problems_of_frequency, problems_of_modes, app_nil_r, <- !app_assoc.
  reflexivity.
Qed.

Lemma findings_advisories d : advisories_of (findings d) = advisories d.
Proof.
  unfold findings, advisories.
  destruct (in_nodes d) as [ns|], (in_lines d) as [ls|], (in_freqHz d) as [f|],
    (in_modes d) as [ms|]; try apply advisories_of_problems.
  rewrite !advisories_of_app, !advisories_of_problems, advisories_of_advisories,
    advisories_of_frequency, advisories_of_modes.
  reflexivity.
Qed.

Lemma length_missing_keys d : List.length (missing_keys d) <= 4.
Proof.
  unfold missing_keys. rewrite !length_app.
  destruct (missing (in_nodes d)), (missing (in_lines d)), (missing (in_freqHz d)),
    (missing (in_modes d)); cbn; lia.
Qed.

(** The report is made of the findings up to the 100th problem. *)
Lemma validate_upto d :
  validateFloorData d = report_of (upto MAX_ERRORS (findings d)).
Proof.
  unfold validateFloorData, run.
  destruct (missing (in_nodes d) || missing (in_lines d) || missing (in_freqHz d)
            || missing (in_modes d)) eqn:E.
  - rewrite (checks_missing d E).
    assert (Hf : findings d = map Problem (missing_keys d)).
    { destruct d as [[ns|] [ls|] [f|] [ms|]]; try reflexivity. discriminate E. }
    rewrite Hf, upto_all.
    + unfold report_of. rewrite problems_of_problems, advisories_of_problems. reflexivity.
    + rewrite problems_of_problems. pose proof (length_missing_keys d).
      unfold MAX_ERRORS. lia.
  - destruct d as [[ns|] [ls|] [f|] [ms|]]; try discriminate E.
    rewrite checks_present.
    pose proof (traces_later_checks ns ls f ms (mkReport [] [])) as H.
    cbv zeta in H. cbn [errors warnings List.length app] in H.
    rewrite Nat.sub_0_r in H.
    specialize (H ltac:(unfold MAX_ERRORS; lia)).
    destruct (_ <? MAX_ERRORS); rewrite H; reflexivity.
Qed.

(** C3.  [validateFloorData] is a total function into reports: it raises
    nothing.  Its report holds the findings of the data set in the order of
    the checks, up to the 100th problem and no further: every problem
    before the limit is an error of the report, every advisory found before
    the limit a warning, and what the checks would find after the 100th
    problem is not looked for.  So the errors are the first 100 problems,
    there are never more than 100, a data set with fewer than 100 problems
    gets them all with all its advisories, and a report cut at the limit
    ends with its 100th problem. *)
Theorem validate_collects_until_cap (d : Input) :
  let r := validateFloorData d in
  r = report_of (upto 100 (findings d)) /\
  errors r = firstn 100 (problems d) /\
  List.length (errors r) <= 100 /\
  (List.length (problems d) < 100 ->
   r = mkReport (problems d) (advisories d)) /\
  (100 <= List.length (problems d) ->
   List.length (errors r) = 100 /\
   exists front e, upto 100 (findings d) = front ++ [Problem e] /\
                   errors r = problems_of front ++ [e] /\
                   warnings r = advisories_of front).
Proof.
  intros r. change 100 with MAX_ERRORS.
  assert (Hr : r = report_of (upto MAX_ERRORS (findings d))) by apply validate_upto.
  assert (He : errors r = firstn MAX_ERRORS (problems d)).
  { rewrite Hr. cbn [report_of errors].
    rewrite problems_of_upto, findings_problems. reflexivity. }
  split; [exact Hr|]. split; [exact He|]. split; [|split].
  - rewrite He, length_firstn. lia.
  - intros H. rewrite Hr, upto_all by (rewrite findings_problems; exact H).
    unfold report_of. rewrite findings_problems, findings_advisories. reflexivity.
  - intros H. split.
    + rewrite He, length_firstn. lia.
    + destruct (upto_stops MAX_ERRORS (findings d)) as (front & e & H1 & H2).
      * rewrite findings_problems. exact H.
      * unfold MAX_ERRORS. lia.
      * exists front, e. split; [exact H1|]. rewrite Hr, H1. unfold report_of.
        cbn [errors warnings]. rewrite problems_of_app, advisories_of_app. cbn.
        rewrite app_nil_r. split; reflexivity.
Qed.

(** The limit at work: 150 lines from node 1 to node 1 and one frequency
    of 31 Hz.  The advisory on the frequency comes after the lines, so the
    report, cut while the lines are checked, holds no warning. *)
Example validate_leaves_out_later_findings :
  let d := input_of (Examples.parsed
                       (Examples.document
                          [Examples.node_entry 1 0 0 0; Examples.node_entry 2 6 0 0]
                          (map (fun _ => Examples.line_entry 1 1 1) (seq 1 150))
                          [("1"%string, JNum 31)]
                          [("1"%string, JObj [("1"%string, JNum 1)])])) in
  List.length (advisories d) = 1 /\
  List.length (errors (validateFloorData d)) = 100 /\
  warnings (validateFloorData d) = [].
Proof. vm_compute. repeat split; reflexivity. Qed.
End Collection.

(** ** The parser as a total function *)

Section ParserTotal.
Import JsNum Parser Document Validator Expected.
Local Open Scope string_scope.
Local Open Scope list_scope.

Variable Number : JsValue -> float.

Lemma prop_field v k : nullish v = false -> prop v k = Some (field v k).
Proof. destruct v; intros H; try discriminate H; reflexivity. Qed.

Lemma prop_nullish v k : nullish v = true -> prop v k = None.
Proof. destruct v; intros H; try discriminate H; reflexivity. Qed.

Lemma parseNode_node_of n :
  parseNode Number n = if nullish n then None else Some (node_of Number n).
Proof. destruct n; reflexivity. Qed.

Lemma parseLine_line_of l :
  parseLine Number l = if nullish l then None else Some (line_of Number l).
Proof. destruct l; reflexivity. Qed.

Lemma parseNodes_fold items acc :
  parseNodes Number items acc =
  if existsb nullish items then None
  else Some (fold_left record_node (map (node_of Number) items) acc).
Proof.
  revert acc. induction items as [|n rest IH]; intros acc; cbn [parseNodes existsb map fold_left].
  - reflexivity.
  - rewrite parseNode_node_of. destruct (nullish n); cbn [orb]; [reflexivity|].
    rewrite IH. reflexivity.
Qed.

Lemma parseLines_map items acc :
  parseLines Number items acc =
  if existsb nullish items then None
  else Some (acc ++ map (line_of Number) items).
Proof.
  revert acc. induction items as [|l rest IH]; intros acc; cbn [parseLines existsb map].
  - rewrite app_nil_r. reflexivity.
  - rewrite parseLine_line_of. destruct (nullish l); cbn [orb]; [reflexivity|].
    rewrite IH, <- app_assoc. reflexivity.
Qed.

(** The parser in one piece. *)
Lemma parseFloorData_total data :
  parseFloorData Number data =
  if nullish data
     || existsb nullish (array_items (field data "nodes"))
     || existsb nullish (array_items (field data "lines"))
  then None
  else
    let parsed := fold_left record_node
                            (map (node_of Number) (array_items (field data "nodes")))
                            (JsMap.empty, JsMap.empty) in
    Some (mkFloorData (nullish_or (field data "meta") (JObj []))
                      (fst parsed) (snd parsed)
                      (map (line_of Number) (array_items (field data "lines")))
                      (parseFreqHz Number (field data "freqHz"))
                      (parseModes Number (fst parsed) (field data "modes"))).
Proof.
  destruct (nullish data) eqn:En; cbn [orb].
  - unfold parseFloorData. rewrite (prop_nullish _ _ En). reflexivity.
  - unfold parseFloorData. rewrite !(prop_field _ _ En).
    assert (Hn : (match field data "nodes" with
                  | JArr items => parseNodes Number items (JsMap.empty, JsMap.empty)
                  | _ => Some (JsMap.empty, JsMap.empty)
                  end)
                 = if existsb nullish (array_items (field data "nodes")) then None
                   else Some (fold_left record_node
                                (map (node_of Number) (array_items (field data "nodes")))
                                (JsMap.empty, JsMap.empty))).
    { destruct (field data "nodes"); try reflexivity. apply parseNodes_fold. }
    assert (Hl : (match field data "lines" with
                  | JArr items => parseLines Number items []
                  | _ => Some []
                  end)
                 = if existsb nullish (array_items (field data "lines")) then None
                   else Some (map (line_of Number) (array_items (field data "lines")))).
    { destruct (field data "lines"); try reflexivity. apply parseLines_map. }
    rewrite Hn, Hl.
    destruct (existsb nullish (array_items (field data "nodes"))); cbn [orb];
      [reflexivity|].
    destruct (existsb nullish (array_items (field data "lines"))); reflexivity.
Qed.

Lemma fst_record_nodes l acc :
  fst (fold_left record_node l acc)
  = fold_left (fun m n => JsMap.set m (node_id n) n) l (fst acc).
Proof.
  revert acc. induction l as [|n l IH]; intros acc; cbn [fold_left]; [reflexivity|].
  rewrite IH. reflexivity.
Qed.

Lemma get_counts l acc id :
  JsMap.get (snd (fold_left record_node l acc)) id =
  match occurrences id l with
  | 0 => JsMap.get (snd acc) id
  | S n => Some (Nat.iter (S n) (fun c => (c + 1)%float)
                          (match JsMap.get (snd acc) id with
                           | Some c => c
                           | None => 0%float
                           end))
  end.
Proof.
  revert acc. induction l as [|n l IH]; intros acc; cbn [fold_left].
  - reflexivity.
  - rewrite IH. unfold occurrences. cbn [filter record_node snd].
    rewrite get_set.
    destruct (same_value_zero (node_id n) id) eqn:E; cbn [List.length].
    + assert (Hg : JsMap.get (snd acc) (node_id n) = JsMap.get (snd acc) id).
      { apply get_num_equiv. apply svz_spec. exact E. }
      rewrite Hg.
      destruct (List.length (filter (fun n0 => same_value_zero (node_id n0) id) l))
        as [|k]; [reflexivity|].
      apply (f_equal Some). symmetry.
      exact (Nat.iter_succ_r (S k) float (fun c : float => (c + 1)%float) _).
    + reflexivity.
Qed.

Lemma keys_record_nodes l acc :
  JsMap.keys (fst acc) = JsMap.keys (snd acc) ->
  JsMap.keys (fst (fold_left record_node l acc))
  = JsMap.keys (snd (fold_left record_node l acc)).
Proof.
  revert acc. induction l as [|n l IH]; intros acc H; cbn [fold_left]; [exact H|].
  apply IH. unfold record_node. cbn [fst snd]. rewrite !keys_set.
  assert (Hh : JsMap.has (fst acc) (node_id n) = JsMap.has (snd acc) (node_id n)).
  { destruct (JsMap.has (fst acc) (node_id n)) eqn:E1,
             (JsMap.has (snd acc) (node_id n)) eqn:E2; try reflexivity.
    - apply has_In in E1. rewrite H in E1. apply has_In in E1. congruence.
    - apply has_In in E2. rewrite <- H in E2. apply has_In in E2. congruence. }
  rewrite Hh, H. reflexivity.
Qed.

Lemma parsed_nodes data d :
  parseFloorData Number data = Some d ->
  let l := map (node_of Number) (array_items (field data "nodes")) in
  nodes d = fst (fold_left record_node l (JsMap.empty, JsMap.empty)) /\
  nodeIdCounts d = snd (fold_left record_node l (JsMap.empty, JsMap.empty)) /\
  lines d = map (line_of Number) (array_items (field data "lines")).
Proof.
  rewrite parseFloorData_total. destruct (_ || _); [discriminate|].
  intros H. injection H as <-. cbn. repeat split; reflexivity.
Qed.

(** With a [Number] that returns, a TypeError comes from a [null] only. *)
Lemma parseFloorData_none (data : JsValue) :
  parseFloorData Number data = None <->
  nullish data = true \/
  existsb nullish (array_items (field data "nodes")) = true \/
  existsb nullish (array_items (field data "lines")) = true.
Proof.
  rewrite parseFloorData_total.
  destruct (nullish data), (existsb nullish (array_items (field data "nodes"))),
    (existsb nullish (array_items (field data "lines"))); cbn [orb];
    split; intros H; try reflexivity; try discriminate H; auto;
    destruct H as [H|[H|H]]; discriminate H.
Qed.

(** Of the nodes that share an id, [nodes] keeps the one listed last, and
    [nodeIdCounts] counts them all; the two maps have the same keys in the
    same order. *)
Theorem parsed_nodes_last_wins (data : JsValue) (d : FloorData) (id : float) :
  parseFloorData Number data = Some d ->
  let l := map (node_of Number) (array_items (field data "nodes")) in
  JsMap.get (nodes d) id = last_with_id id l /\
  JsMap.get (nodeIdCounts d) id =
    (if (occurrences id l =? 0)%nat then None else Some (tally (occurrences id l))) /\
  JsMap.keys (nodeIdCounts d) = JsMap.keys (nodes d).
Proof.
  intros H l. destruct (parsed_nodes data d H) as (Hn & Hc & _). fold l in Hn, Hc.
  rewrite Hn, Hc. split; [|split].
  - rewrite fst_record_nodes, get_fold_set. unfold last_with_id.
    destruct (find _ (rev l)); reflexivity.
  - rewrite get_counts. destruct (occurrences id l); reflexivity.
  - symmetry. apply keys_record_nodes. reflexivity.
Qed.

(** [lines] holds one line for each element of the array, in its order:
    lines with the same id are all kept. *)
Theorem parsed_lines_keep_order (data : JsValue) (d : FloorData) :
  parseFloorData Number data = Some d ->
  lines d = map (line_of Number) (array_items (field data "lines")) /\
  List.length (lines d) = List.length (array_items (field data "lines")) /\
  forall i l, nth_error (array_items (field data "lines")) i = Some l ->
              nth_error (lines d) i = Some (line_of Number l).
Proof.
  intros H. destruct (parsed_nodes data d H) as (_ & _ & Hl). rewrite Hl.
  split; [reflexivity|]. split; [apply length_map|].
  intros i l Hi. apply map_nth_error. exact Hi.
Qed.

(** The parser always returns the four keys, so a document it accepts never
    gets [E_MISSING_KEY]: one without a [nodes] array gets [E_NODES_EMPTY]
    as its first error, and one without a [lines] array [E_LINES_EMPTY]. *)
Theorem parsed_sections_never_missing (data : JsValue) (d : FloorData) :
  parseFloorData Number data = Some d ->
  count_code E_MISSING_KEY (errors (validate d)) = 0 /\
  (array_items (field data "nodes") = [] ->
   hd_error (errors (validate d)) = Some (entry E_NODES_EMPTY [Text "nodes is empty"])) /\
  (array_items (field data "lines") = [] ->
   In (entry E_LINES_EMPTY [Text "lines is empty"]) (errors (validate d))).
Proof.
  intros H. unfold validate. rewrite (proj1 (validate_report (input_of d))).
  split; [|split].
  - apply count_code_zero.
    apply (entry_vocabulary (fun c => negb (code_eqb c E_MISSING_KEY))).
    apply Forall_firstn_of. apply problems_present_vocabulary.
  - intros Hn. destruct (parsed_nodes data d H) as (Hnodes & _ & _).
    rewrite Hn in Hnodes. cbn in Hnodes.
    unfold input_of, problems. cbn [in_nodes in_lines in_freqHz in_modes].
    rewrite Hnodes. reflexivity.
  - intros Hl. destruct (parsed_nodes data d H) as (_ & _ & Hlines).
    rewrite Hl in Hlines. cbn in Hlines.
    unfold input_of, problems. cbn [in_nodes in_lines in_freqHz in_modes].
    rewrite Hlines.
    rewrite (each_indexed_distinct _ (proj1 (parseFloorData_nodes_wf _ _ _ H))).
    cbn [List.length Nat.eqb only_if app each_indexed indexed_from seq combine flat_map].
    destruct (JsMap.size (nodes d) =? 0)%nat; cbn [only_if app];
      unfold MAX_ERRORS; cbn [firstn]; auto with datatypes.
Qed.
End ParserTotal.

(** ** The parser when [Number] may throw *)

Section ParserThrows.
Import JsNum Parser Document Throws.
Local Open Scope string_scope.
Local Open Scope list_scope.

Variable Number : JsValue -> option float.

Lemma existsb_flat_map A B (p : B -> bool) (f : A -> list B) l :
  existsb p (flat_map f l) = existsb (fun a => existsb p (f a)) l.
Proof.
  induction l as [|a l IH]; cbn [flat_map existsb]; [reflexivity|].
  rewrite existsb_app, IH. reflexivity.
Qed.

Lemma number_cases v :
  (Number v = None /\ fails Number v = true) \/
  (Number v = Some (or_nan Number v) /\ fails Number v = false).
Proof. unfold fails, or_nan. destruct (Number v); auto. Qed.

Lemma throws_parseNode n :
  Throws.parseNode Number n =
  if nullish n || existsb (fails Number) (node_conversions n) then None
  else Some (node_of (or_nan Number) n).
Proof.
  destruct (nullish n) eqn:En; cbn [orb].
  - unfold Throws.parseNode. rewrite (prop_nullish _ _ En). reflexivity.
  - unfold Throws.parseNode. rewrite !(prop_field _ _ En).
    unfold node_conversions, node_of, fails, or_nan. cbn [existsb].
    destruct (Number (field n "id")); [|reflexivity].
    destruct (Number (nullish_or (field n "x") (JNum 0))); [|reflexivity].
    destruct (Number (nullish_or (field n "y") (JNum 0))); [|reflexivity].
    destruct (Number (nullish_or (field n "z") (JNum 0))); reflexivity.
Qed.

Lemma throws_parseLine l :
  Throws.parseLine Number l =
  if nullish l || existsb (fails Number) (line_conversions l) then None
  else Some (line_of (or_nan Number) l).
Proof.
  destruct (nullish l) eqn:En; cbn [orb].
  - unfold Throws.parseLine. rewrite (prop_nullish _ _ En). reflexivity.
  - unfold Throws.parseLine. rewrite !(prop_field _ _ En).
    unfold line_conversions, line_of, fails, or_nan. cbn [existsb].
    destruct (Number (field l "id")); [|reflexivity].
    destruct (Number (field l "nodeI")); [|reflexivity].
    destruct (Number (field l "nodeJ")); reflexivity.
Qed.

Lemma throws_parseNodes items acc :
  Throws.parseNodes Number items acc =
  if existsb nullish items || existsb (fails Number) (flat_map node_conversions items)
  then None
  else Some (fold_left record_node (map (node_of (or_nan Number)) items) acc).
Proof.
  revert acc. induction items as [|n rest IH]; intros acc;
    cbn [Throws.parseNodes existsb flat_map map fold_left]; [reflexivity|].
  rewrite throws_parseNode, existsb_app.
  destruct (nullish n); cbn [orb]; [reflexivity|].
  destruct (existsb (fails Number) (node_conversions n)); cbn [orb].
  - rewrite orb_true_r. reflexivity.
  - rewrite IH. reflexivity.
Qed.

Lemma throws_parseLines items acc :
  Throws.parseLines Number items acc =
  if existsb nullish items || existsb (fails Number) (flat_map line_conversions items)
  then None
  else Some (acc ++ map (line_of (or_nan Number)) items).
Proof.
  revert acc. induction items as [|l rest IH]; intros acc;
    cbn [Throws.parseLines existsb flat_map map].
  - rewrite app_nil_r. reflexivity.
  - rewrite throws_parseLine, existsb_app.
    destruct (nullish l); cbn [orb]; [reflexivity|].
    destruct (existsb (fails Number) (line_conversions l)); cbn [orb].
    + rewrite orb_true_r. reflexivity.
    + rewrite IH, <- app_assoc. reflexivity.
Qed.

Lemma throws_parseNumbers entries acc :
  Throws.parseNumbers Number entries acc =
  if existsb (fails Number) (flat_map entry_conversions entries) then None
  else Some (fold_left
               (fun m e => JsMap.set m (or_nan Number (JStr (fst e)))
                                     (or_nan Number (snd e)))
               entries acc).
Proof.
  revert acc. induction entries as [|e rest IH]; intros acc;
    cbn [Throws.parseNumbers flat_map fold_left]; [reflexivity|].
  unfold entry_conversions at 1. cbn [app existsb].
  destruct (number_cases (JStr (fst e))) as [[H1 H2]|[H1 H2]]; rewrite H1, H2;
    cbn [orb]; [reflexivity|].
  destruct (number_cases (snd e)) as [[H3 H4]|[H3 H4]]; rewrite H3, H4;
    cbn [orb]; [reflexivity|].
  apply IH.
Qed.

Lemma throws_parseFreqHz v :
  Throws.parseFreqHz Number v =
  if existsb (fails Number) (object_conversions v) then None
  else Some (Parser.parseFreqHz (or_nan Number) v).
Proof.
  unfold Throws.parseFreqHz, Parser.parseFreqHz, object_conversions.
  destruct (is_object v); [apply throws_parseNumbers|reflexivity].
Qed.

Lemma throws_parseModeShape nodes v :
  Throws.parseModeShape Number nodes v =
  if existsb (fails Number) (object_conversions v) then None
  else Some (Parser.parseModeShape (or_nan Number) nodes v).
Proof.
  unfold Throws.parseModeShape, Parser.parseModeShape, object_conversions.
  destruct (is_object v); [apply throws_parseNumbers|reflexivity].
Qed.

Lemma throws_parseModeList nodes entries acc :
  Throws.parseModeList Number nodes entries acc =
  if existsb (fails Number) (flat_map mode_conversions entries) then None
  else Some (fold_left
               (fun modes e =>
                  JsMap.set modes (or_nan Number (JStr (fst e)))
                            (Parser.parseModeShape (or_nan Number) nodes (snd e)))
               entries acc).
Proof.
  revert acc. induction entries as [|e rest IH]; intros acc;
    cbn [Throws.parseModeList flat_map fold_left]; [reflexivity|].
  unfold mode_conversions at 1. cbn [app existsb]. rewrite existsb_app.
  rewrite throws_parseModeShape.
  destruct (number_cases (JStr (fst e))) as [[H1 H2]|[H1 H2]]; rewrite H1, H2;
    cbn [orb]; [reflexivity|].
  destruct (existsb (fails Number) (object_conversions (snd e))); cbn [orb];
    [reflexivity|].
  apply IH.
Qed.

Lemma throws_parseModes nodes v :
  Throws.parseModes Number nodes v =
  if existsb (fails Number)
             (if is_object v then flat_map mode_conversions (Object_entries v) else [])
  then None
  else Some (Parser.parseModes (or_nan Number) nodes v).
Proof.
  unfold Throws.parseModes, Parser.parseModes.
  destruct (is_object v); [apply throws_parseModeList|reflexivity].
Qed.

(** The parser in one piece: it throws on a [null] document, node or line
    and when [Number] throws on a value it is given, and returns otherwise
    what the parser returns whose [Number] always returns. *)
Lemma throws_parseFloorData data :
  Throws.parseFloorData Number data =
  if nullish data
     || existsb nullish (array_items (field data "nodes"))
     || existsb nullish (array_items (field data "lines"))
     || existsb (fails Number) (conversions data)
  then None
  else Parser.parseFloorData (or_nan Number) data.
Proof.
  rewrite (parseFloorData_total (or_nan Number) data).
  destruct (nullish data) eqn:En; cbn [orb].
  - unfold Throws.parseFloorData. rewrite (prop_nullish _ _ En). reflexivity.
  - unfold Throws.parseFloorData. rewrite !(prop_field _ _ En).
    assert (Hn : (match field data "nodes" with
                  | JArr items => Throws.parseNodes Number items (JsMap.empty, JsMap.empty)
                  | _ => Some (JsMap.empty, JsMap.empty)
                  end)
                 = Throws.parseNodes Number (array_items (field data "nodes"))
                                     (JsMap.empty, JsMap.empty)).
    { destruct (field data "nodes"); reflexivity. }
    assert (Hl : (match field data "lines" with
                  | JArr items => Throws.parseLines Number items []
                  | _ => Some []
                  end)
                 = Throws.parseLines Number (array_items (field data "lines")) []).
    { destruct (field data "lines"); reflexivity. }
    rewrite Hn, Hl, throws_parseNodes, throws_parseLines.
    unfold conversions. rewrite !existsb_app.
    destruct (existsb nullish (array_items (field data "nodes"))); cbn [orb];
      [reflexivity|].
    destruct (existsb (fails Number)
                      (flat_map node_conversions (array_items (field data "nodes"))));
      cbn [orb]; [rewrite orb_true_r; reflexivity|].
    destruct (existsb nullish (array_items (field data "lines"))); cbn [orb];
      [reflexivity|].
    destruct (existsb (fails Number)
                      (flat_map line_conversions (array_items (field data "lines"))));
      cbn [orb]; [reflexivity|].
    rewrite throws_parseFreqHz.
    destruct (existsb (fails Number) (object_conversions (field data "freqHz")));
      cbn [orb]; [reflexivity|].
    cbn [fst snd]. rewrite throws_parseModes.
    destruct (existsb (fails Number) _); reflexivity.
Qed.

End ParserThrows.

(** ** When the parser throws *)

Section ParserOutcome.
Import JsNum Parser Document Throws.
Local Open Scope string_scope.
Local Open Scope list_scope.

(** [parseFloorData], from step 3 on, throws (a TypeError) exactly when the
    document is [null], when [nodes] or [lines] is an array with a [null]
    element, or when [Number] throws on one of the values it is given.
    What it returns otherwise is what the parser returns whose [Number]
    always returns, so with such a [Number] the two are one. *)
Theorem parse_throws_exactly (Number : JsValue -> option float) (data : JsValue) :
  (Throws.parseFloorData Number data = None <->
   nullish data = true \/
   existsb nullish (array_items (field data "nodes")) = true \/
   existsb nullish (array_items (field data "lines")) = true \/
   exists v, In v (conversions data) /\ Number v = None) /\
  (forall d, Throws.parseFloorData Number data = Some d ->
             Parser.parseFloorData (or_nan Number) data = Some d) /\
  (forall N, Throws.parseFloorData (always N) data = Parser.parseFloorData N data).
Proof.
  split; [|split].
  - rewrite throws_parseFloorData.
    assert (Hf : existsb (fails Number) (conversions data) = true <->
                 exists v, In v (conversions data) /\ Number v = None).
    { rewrite existsb_exists. unfold fails.
      split; intros [v [Hin H]]; exists v; (split; [exact Hin|]);
        destruct (Number v); try reflexivity; discriminate H. }
    destruct (nullish data) eqn:E1; cbn [orb]; [split; [auto|reflexivity]|].
    destruct (existsb nullish (array_items (field data "nodes"))) eqn:E2; cbn [orb];
      [split; [auto|reflexivity]|].
    destruct (existsb nullish (array_items (field data "lines"))) eqn:E3; cbn [orb];
      [split; [auto|reflexivity]|].
    destruct (existsb (fails Number) (conversions data)) eqn:E4.
    + split; [intros _|reflexivity]. right. right. right. apply Hf. reflexivity.
    + split.
      * intros H. apply parseFloorData_none in H.
        destruct H as [H|[H|H]]; congruence.
      * intros [H|[H|[H|H]]]; try discriminate H.
        apply Hf in H. discriminate H.
  - intros d. rewrite throws_parseFloorData. destruct (_ || _); [discriminate|].
    intros H. exact H.
  - intros N. rewrite throws_parseFloorData.
    assert (Hf : existsb (fails (always N)) (conversions data) = false).
    { induction (conversions data) as [|v l IH]; [reflexivity|exact IH]. }
    rewrite Hf, orb_false_r.
    change (Parser.parseFloorData (or_nan (always N)) data)
      with (Parser.parseFloorData N data).
    rewrite (parseFloorData_total N data). destruct (_ || _); reflexivity.
Qed.
End ParserOutcome.

(** ** The controller between construction and any calls *)

Section ControllerFacts.
Import JsNum Animation Stage.
Local Open Scope float_scope.

Variable Math_sin : float -> float.

Lemma leb_neq_ltb x y : (x <=? y) = true -> (y =? x) = false -> (x <? y) = true.
Proof.
  intros Hle Hne. apply leb_place in Hle. destruct Hle as (Hx & Hy & Hle).
  apply ltb_place. split; [exact Hx|]. split; [exact Hy|].
  destruct (place_compare (fplace x) (fplace y)) eqn:E.
  - apply place_compare_eq in E.
    assert (H : (y =? x) = true).
    { apply eqb_place. split; [exact Hy|]. split; [exact Hx|]. symmetry. exact E. }
    rewrite H in Hne. discriminate Hne.
  - reflexivity.
  - contradiction Hle. reflexivity.
Qed.

Lemma running_maximum_nonnegative l u :
  (0 <=? u) = true ->
  (0 <=? fold_left (fun umax uz => let absUz := Math_abs uz in
                                   if umax <? absUz then absUz else umax) l u) = true.
Proof.
  revert u. induction l as [|uz l IH]; intros u Hu; cbn [fold_left]; [exact Hu|].
  apply IH. cbv zeta. destruct (u <? Math_abs uz) eqn:E; [|exact Hu].
  apply (leb_trans 0 u); [exact Hu|]. apply ltb_leb. exact E.
Qed.

Lemma umax_of_positive modeShape : (0 <? umax_of modeShape) = true.
Proof.
  unfold umax_of. cbv zeta.
  pose proof (running_maximum_nonnegative (JsMap.values modeShape) 0 eq_refl) as H.
  unfold strict_equal.
  destruct (_ =? 0) eqn:E; [reflexivity|].
  apply leb_neq_ltb; assumption.
Qed.

Lemma get_find {V} (m : JsMap.t V) q :
  JsMap.get m q = option_map snd (find (fun e => same_value_zero (fst e) q) m).
Proof.
  induction m as [|[k v] m IH]; cbn; [reflexivity|].
  destruct (same_value_zero k q); [reflexivity|exact IH].
Qed.

Lemma find_rev_distinct {V} (m : JsMap.t V) q :
  JsMap.distinct_keys (JsMap.keys m) ->
  find (fun e => same_value_zero (fst e) q) (rev m)
  = find (fun e => same_value_zero (fst e) q) m.
Proof.
  induction m as [|[k v] m IH]; intros Hd; [reflexivity|].
  cbn [rev]. rewrite find_app. destruct Hd as [Hk Hd]. rewrite (IH Hd).
  cbn [find fst].
  destruct (same_value_zero k q) eqn:E.
  - destruct (find _ m) as [[k' v']|] eqn:F; [|reflexivity].
    exfalso. apply find_some in F. destruct F as [Hin F]. cbn [fst] in F.
    assert (Hk' : In k' (JsMap.keys m)).
    { unfold JsMap.keys. apply in_map_iff. exists (k', v'). split; [reflexivity|exact Hin]. }
    specialize (Hk k' Hk'). apply svz_false in Hk. apply Hk.
    apply svz_spec in E, F. eapply num_equiv_trans; [exact E|].
    apply num_equiv_sym. exact F.
  - destruct (find _ m); reflexivity.
Qed.

Lemma get_umaxMap (floorData : FloorData) m :
  JsMap.distinct_keys (JsMap.keys (modes floorData)) ->
  JsMap.get (_umaxMap (constructor floorData)) m
  = option_map umax_of (JsMap.get (modes floorData) m).
Proof.
  intros Hd. unfold constructor. cbn [_umaxMap].
  rewrite (get_fold_set fst (fun e => umax_of (snd e))).
  rewrite (find_rev_distinct _ _ Hd), (get_find (modes floorData)).
  destruct (find _ (modes floorData)); reflexivity.
Qed.

Lemma insert_sorted_permutation a l : Permutation (insert_sorted a l) (a :: l).
Proof.
  induction l as [|b l IH]; cbn [insert_sorted]; [reflexivity|].
  destruct (a - b <? 0); [reflexivity|].
  rewrite IH. apply perm_swap.
Qed.

Lemma sort_ascending_permutation l : Permutation (sort_ascending l) l.
Proof.
  unfold sort_ascending.
  assert (H : forall acc, Permutation (fold_left (fun sorted a => insert_sorted a sorted) l acc)
                                      (acc ++ l)).
  { induction l as [|a l IH]; intros acc; cbn [fold_left].
    - rewrite app_nil_r. reflexivity.
    - rewrite IH, insert_sorted_permutation. apply Permutation_middle. }
  apply (H []).
Qed.

Lemma after_data call c : data_of (after call c) = data_of c.
Proof.
  destruct call; cbn [after]; try reflexivity.
  - unfold play. destruct (_currentMode c); reflexivity.
  - unfold update. destruct (_playing c); reflexivity.
Qed.

Lemma invoke_all_snd calls call c :
  snd (invoke_all Math_sin (call :: calls) c)
  = snd (invoke_all Math_sin calls (after call c)).
Proof.
  cbn [invoke_all]. unfold invoke.
  destruct (invoke_all Math_sin calls (after call c)). reflexivity.
Qed.

Lemma invoke_all_data calls c :
  data_of (snd (invoke_all Math_sin calls c)) = data_of c.
Proof.
  revert c. induction calls as [|call calls IH]; intros c; [reflexivity|].
  rewrite invoke_all_snd, IH. apply after_data.
Qed.

(** No sequence of calls changes the data set of a controller or what the
    constructor derived from it: [L_floor] and [A_ref] stay those of the
    nodes, and the mode list and [_umaxMap] stay the ones computed at
    construction; the mode list holds the keys of [modes], each as often as
    it is a key. *)
Theorem controller_data_is_immutable (floorData : FloorData) (calls : list Call) :
  let c := snd (invoke_all Math_sin calls (constructor floorData)) in
  _nodes c = nodes floorData /\ _lines c = lines floorData /\
  _freqHz c = freqHz floorData /\ _modes c = modes floorData /\
  (_lFloor c, _aRef c) = computeFloorMetrics (nodes floorData) /\
  getModeList c = getModeList (constructor floorData) /\
  Permutation (getModeList c) (JsMap.keys (modes floorData)) /\
  _umaxMap c = _umaxMap (constructor floorData).
Proof.
  intros c. pose proof (invoke_all_data calls (constructor floorData)) as H.
  fold c in H. unfold data_of in H.
  injection H as H1 H2 H3 H4 H5 H6 H7 H8.
  unfold getModeList. rewrite H1, H2, H3, H4, H5, H6, H7, H8.
  repeat split; try reflexivity.
  unfold constructor. cbn [_modeList]. apply sort_ascending_permutation.
Qed.

(** For every mode that has a shape, after any calls, [_umaxMap] holds the
    [Umax] of that shape, and it is greater than zero (so neither zero
    nor [NaN]): [getDisplacedZ] never divides by zero. *)
Theorem umax_defined_and_positive (floorData : FloorData) (calls : list Call)
        (m : float) (modeShape : JsMap.t float) :
  JsMap.distinct_keys (JsMap.keys (modes floorData)) ->
  let c := snd (invoke_all Math_sin calls (constructor floorData)) in
  JsMap.get (_modes c) m = Some modeShape ->
  JsMap.get (_umaxMap c) m = Some (umax_of modeShape) /\
  (0 <? umax_of modeShape) = true.
Proof.
  intros Hd c Hm. pose proof (invoke_all_data calls (constructor floorData)) as H.
  fold c in H. unfold data_of in H.
  injection H as _ _ _ H4 _ _ H7 _. rewrite H4 in Hm. cbn [constructor _modes] in Hm.
  split.
  - rewrite H7, (get_umaxMap _ _ Hd), Hm. reflexivity.
  - apply umax_of_positive.
Qed.

Lemma mode_list_of_constructor (floorData : FloorData) :
  Permutation (getModeList (constructor floorData)) (JsMap.keys (modes floorData)).
Proof. apply sort_ascending_permutation. Qed.

Lemma no_mode_iff_no_modes (floorData : FloorData) :
  _currentMode (constructor floorData) = None <-> modes floorData = [].
Proof.
  pose proof (mode_list_of_constructor floorData) as Hp.
  unfold getModeList, constructor in *. cbn [_modeList _currentMode] in *.
  destruct (sort_ascending (JsMap.keys (modes floorData))) as [|m l].
  - split; [intros _|reflexivity].
    apply Permutation_nil in Hp. destruct (modes floorData); [reflexivity|discriminate Hp].
  - split; [intros H; discriminate H|].
    intros H. rewrite H in Hp. symmetry in Hp. apply Permutation_nil in Hp.
    discriminate Hp.
Qed.

(** A new controller lists exactly the mode numbers of [modes], has its
    first listed mode selected (none when there is no mode), a selected mode
    has a shape, and it is stopped at time 0 with speed and scale 1. *)
Theorem constructor_selects_first_mode (floorData : FloorData) :
  let c := constructor floorData in
  Permutation (getModeList c) (JsMap.keys (modes floorData)) /\
  getCurrentMode c = hd_error (getModeList c) /\
  (getCurrentMode c = None <-> modes floorData = []) /\
  (forall m, getCurrentMode c = Some m -> JsMap.has (modes floorData) m = true) /\
  isPlaying c = false /\ getTime c = 0 /\ getSpeed c = 1 /\ _scale c = 1.
Proof.
  intros c. split; [apply mode_list_of_constructor|].
  split; [|split; [apply no_mode_iff_no_modes|split; [|repeat split]]].
  - unfold c, constructor, getCurrentMode, getModeList. cbn [_modeList _currentMode].
    destruct (sort_ascending (JsMap.keys (modes floorData))); reflexivity.
  - intros m H. apply key_has.
    apply (Permutation_in m (mode_list_of_constructor floorData)).
    unfold c, constructor, getCurrentMode, getModeList in *.
    cbn [_modeList _currentMode] in *.
    destruct (sort_ascending (JsMap.keys (modes floorData))); [discriminate H|].
    injection H as ->. left. reflexivity.
Qed.

Lemma after_mode_selected call c :
  mode_selected_while_playing c -> mode_selected_while_playing (after call c).
Proof.
  unfold mode_selected_while_playing. intros H.
  destruct call; cbn [after]; try exact H.
  - cbn. discriminate.
  - unfold play. destruct (_currentMode c) eqn:E; [|rewrite E; exact H].
    cbn. intros _. discriminate.
  - cbn. discriminate.
  - unfold update. destruct (_playing c) eqn:E; [|rewrite E; discriminate].
    cbn. intros _. apply H. reflexivity.
Qed.

Lemma after_keeps_mode call c :
  _currentMode c <> None -> _currentMode (after call c) <> None.
Proof.
  intros H. destruct call; cbn [after]; try exact H.
  - cbn. discriminate.
  - unfold play. destruct (_currentMode c) eqn:E; [|rewrite E; exact H].
    cbn. discriminate.
  - unfold update. destruct (_playing c); exact H.
Qed.

Lemma invoke_all_mode_selected calls c :
  mode_selected_while_playing c ->
  mode_selected_while_playing (snd (invoke_all Math_sin calls c)).
Proof.
  revert c. induction calls as [|call calls IH]; intros c Hc; [exact Hc|].
  rewrite invoke_all_snd. apply IH. apply after_mode_selected. exact Hc.
Qed.

Lemma invoke_all_keeps_mode calls c :
  _currentMode c <> None ->
  _currentMode (snd (invoke_all Math_sin calls c)) <> None.
Proof.
  revert c. induction calls as [|call calls IH]; intros c Hc; [exact Hc|].
  rewrite invoke_all_snd. apply IH. apply after_keeps_mode. exact Hc.
Qed.

(** After any calls, a controller that is playing has a mode selected; a
    controller built with at least one mode always has one selected; and
    [play] without a mode does nothing. *)
Theorem playing_needs_a_mode (floorData : FloorData) (calls : list Call) :
  let c := snd (invoke_all Math_sin calls (constructor floorData)) in
  (isPlaying c = true -> getCurrentMode c <> None) /\
  (modes floorData <> [] -> getCurrentMode c <> None) /\
  (forall c', _currentMode c' = None -> play c' = c').
Proof.
  cbv zeta.
  split; [|split].
  - apply invoke_all_mode_selected. intros Hp. discriminate Hp.
  - intros Hm. apply invoke_all_keeps_mode.
    intros Hc. apply Hm. apply no_mode_iff_no_modes. exact Hc.
  - intros c' Hc. unfold play. rewrite Hc. reflexivity.
Qed.

Lemma after_holds_still call c :
  holds_still call = true -> _playing c = false ->
  frame_of (after call c) = frame_of c /\ _playing (after call c) = false.
Proof.
  destruct call; cbn [holds_still after]; intros H Hp; try discriminate H;
    try (split; [reflexivity|assumption]).
  - split; reflexivity.
  - unfold update. rewrite Hp. split; [reflexivity|assumption].
Qed.

Lemma invoke_all_holds_still calls c0 c :
  forallb holds_still calls = true ->
  frame_of c = frame_of c0 -> _playing c = false ->
  (forall i nodeId,
      nth_error calls i = Some (CallGetDisplacedZ nodeId) ->
      nth_error (fst (invoke_all Math_sin calls c)) i
      = Some (VNumber (getDisplacedZ Math_sin nodeId c0))) /\
  frame_of (snd (invoke_all Math_sin calls c)) = frame_of c0 /\
  _playing (snd (invoke_all Math_sin calls c)) = false.
Proof.
  revert c. induction calls as [|call calls IH]; intros c Hall Hf Hp.
  - split; [intros [|i] nodeId H; discriminate H|]. split; assumption.
  - cbn [forallb] in Hall. apply andb_true_iff in Hall. destruct Hall as [Hc Hall].
    destruct (after_holds_still call c Hc Hp) as [Hf' Hp'].
    specialize (IH (after call c) Hall (eq_trans Hf' Hf) Hp').
    destruct IH as (IH1 & IH2 & IH3).
    rewrite invoke_all_snd. split; [|split; assumption].
    intros [|i] nodeId H; cbn [invoke_all]; unfold invoke;
      destruct (invoke_all Math_sin calls (after call c)) as [vs c''] eqn:E;
      cbn [fst nth_error] in *.
    + injection H as ->. cbn [result]. f_equal. f_equal.
      apply getDisplacedZ_frame. exact Hf.
    + apply IH1. exact H.
Qed.

(** After [stop], the frame is held through any calls other than [play],
    [setMode] and [setScale], the [update] of every animation frame among
    them: the time does not move and [getDisplacedZ] keeps its values. *)
Theorem stopped_frame_survives_updates (c : Controller) (calls : list Call) :
  forallb holds_still calls = true ->
  let c0 := stop c in
  let c1 := snd (invoke_all Math_sin calls c0) in
  (forall i nodeId,
      nth_error calls i = Some (CallGetDisplacedZ nodeId) ->
      nth_error (fst (invoke_all Math_sin calls c0)) i
      = Some (VNumber (getDisplacedZ Math_sin nodeId c))) /\
  getTime c1 = getTime c /\ isPlaying c1 = false /\
  (forall nodeId, getDisplacedZ Math_sin nodeId c1 = getDisplacedZ Math_sin nodeId c) /\
  (forall deltaTime, update deltaTime c0 = c0).
Proof.
  intros Hall c0 c1.
  assert (Hf : frame_of c0 = frame_of c) by reflexivity.
  destruct (invoke_all_holds_still calls c c0 Hall Hf eq_refl) as (H1 & H2 & H3).
  fold c1 in H2, H3.
  split; [exact H1|]. split; [|split; [exact H3|split]].
  - unfold frame_of in H2. injection H2 as _ _ _ _ _ _ Ht _. exact Ht.
  - intros nodeId. apply getDisplacedZ_frame. exact H2.
  - reflexivity.
Qed.

Lemma div_zero_positive z u :
  is_zero z = true -> (0 <? u) = true -> is_zero (z / u) = true.
Proof.
  intros Hz Hu. apply is_zero_SF in Hz. destruct Hz as [s Hz].
  apply ltb_place in Hu. destruct Hu as (_ & Hn & Hu).
  apply not_nan_SF in Hn. unfold fplace in Hu.
  apply is_zero_SF. rewrite div_spec, Hz.
  destruct (Prim2SF u) as [s'|[|]| |[|] m e]; try (contradiction Hn; reflexivity);
    try discriminate Hu; cbn; eauto.
Qed.

Lemma mul_zero_finite z x :
  is_zero z = true -> is_finite x = true -> is_zero (z * x) = true.
Proof.
  intros Hz Hx. apply is_zero_SF in Hz. destruct Hz as [s Hz].
  apply is_finite_SF in Hx. apply is_zero_SF. rewrite mul_spec, Hz.
  destruct (Prim2SF x) as [s'|[|]| |s' m e]; try contradiction; cbn; eauto.
Qed.

(** A node whose amplitude in the selected mode is zero (or that the shape
    leaves out) is displayed at its own [z] at every time, as long as
    [S * A_ref] and the sine are finite. *)
Theorem zero_amplitude_node_stays (floorData : FloorData) (calls : list Call)
        (nodeId m : float) (node : Node) (modeShape : JsMap.t float) :
  JsMap.distinct_keys (JsMap.keys (modes floorData)) ->
  let c := snd (invoke_all Math_sin calls (constructor floorData)) in
  JsMap.get (nodes floorData) nodeId = Some node ->
  getCurrentMode c = Some m ->
  JsMap.get (modes floorData) m = Some modeShape ->
  is_zero (amplitude_in modeShape nodeId) = true ->
  is_finite (_scale c * _aRef c) = true ->
  is_finite (Math_sin (TWO_PI * getFreqHz None c * getTime c)) = true ->
  same_value_zero (getDisplacedZ Math_sin nodeId c) (node_z node) = true.
Proof.
  intros Hd c Hn Hc Hm Hz Hs Hsin.
  pose proof (invoke_all_data calls (constructor floorData)) as H.
  fold c in H. unfold data_of in H. injection H as E1 _ _ E4 _ _ E7 _.
  cbn [constructor _nodes _modes] in E1, E4.
  assert (Hu : JsMap.get (_umaxMap c) m = Some (umax_of modeShape)).
  { rewrite E7, (get_umaxMap _ _ Hd), Hm. reflexivity. }
  unfold getCurrentMode in Hc. unfold getFreqHz, getTime in Hsin. rewrite Hc in Hsin.
  unfold getDisplacedZ. rewrite E1, Hn, Hc, E4, Hm, Hu.
  fold (amplitude_in modeShape nodeId).
  apply svz_spec, add_zero_r.
  apply mul_zero_finite; [|exact Hsin].
  apply mul_finite_zero; [exact Hs|].
  apply div_zero_positive; [exact Hz|apply umax_of_positive].
Qed.
End ControllerFacts.

(** ** Keys in camel case *)

Section CamelCaseFacts.
Import Parser CamelCase.
Local Open Scope string_scope.
Local Open Scope list_scope.

Lemma toCamelCase_step c ch rest :
  toCamelCase (String c (String ch rest)) =
  if is_separator c && is_alnum ch
  then String (toUpperCase ch) (toCamelCase rest)
  else String c (toCamelCase (String ch rest)).
Proof. reflexivity. Qed.

(** Induction two characters at a time, as [toCamelCase] goes. *)
Lemma string_pair_ind (P : string -> Prop) :
  P "" ->
  (forall c, P (String c "")) ->
  (forall c ch rest, P rest -> P (String ch rest) -> P (String c (String ch rest))) ->
  forall s, P s.
Proof.
  intros H0 H1 H2.
  assert (H : forall s, P s /\ forall c, P (String c s)).
  { induction s as [|ch rest [IH1 IH2]].
    - split; [exact H0|exact H1].
    - split; [apply IH2|]. intros c. apply H2; [exact IH1|apply IH2]. }
  intros s. apply H.
Qed.

Lemma upper_not_lower ch : is_alnum ch = true -> is_lower (toUpperCase ch) = false.
Proof.
  destruct ch as [[|] [|] [|] [|] [|] [|] [|] [|]]; vm_compute; congruence.
Qed.

Lemma upper_not_separator ch :
  is_alnum ch = true -> is_separator (toUpperCase ch) = false.
Proof.
  destruct ch as [[|] [|] [|] [|] [|] [|] [|] [|]]; vm_compute; congruence.
Qed.

Lemma lower_alnum ch : is_lower ch = true -> is_alnum ch = true.
Proof. unfold is_alnum. intros ->. reflexivity. Qed.

(** The first character of the result is a lower-case letter only if it is
    the first character of the key. *)
Lemma toCamelCase_head key o t :
  toCamelCase key = String o t -> is_lower o = true ->
  exists rest, key = String o rest.
Proof.
  destruct key as [|c [|ch rest]]; cbn [toCamelCase].
  - discriminate.
  - intros H _. injection H as <- <-. eauto.
  - destruct (is_separator c && is_alnum ch) eqn:E.
    + intros H Ho. injection H as <- _.
      apply andb_true_iff in E. rewrite (upper_not_lower ch (proj2 E)) in Ho.
      discriminate Ho.
    + intros H _. injection H as <- _. eauto.
Qed.

Lemma separator_before_lower_step c s :
  separator_before_lower (String c s) =
  match s with
  | String ch _ => (is_separator c && is_lower ch) || separator_before_lower s
  | EmptyString => false
  end.
Proof. destruct s; reflexivity. Qed.

Lemma toCamelCase_no_separator_before_lower key :
  separator_before_lower (toCamelCase key) = false.
Proof.
  induction key as [|c|c ch rest IH1 IH2] using string_pair_ind.
  - reflexivity.
  - reflexivity.
  - rewrite toCamelCase_step. destruct (is_separator c && is_alnum ch) eqn:E.
    + rewrite separator_before_lower_step.
      apply andb_true_iff in E.
      rewrite (upper_not_separator ch (proj2 E)), IH1.
      destruct (toCamelCase rest); reflexivity.
    + rewrite separator_before_lower_step, IH2.
      destruct (toCamelCase (String ch rest)) as [|o t] eqn:F; [reflexivity|].
      rewrite orb_false_r.
      destruct (is_separator c) eqn:Ec; [|reflexivity]. cbn [andb] in E |- *.
      destruct (is_lower o) eqn:Eo; [|reflexivity].
      destruct (toCamelCase_head _ _ _ F Eo) as [rest' Hr].
      injection Hr as -> _. rewrite (lower_alnum _ Eo) in E. discriminate E.
Qed.

Lemma toCamelCase_fixed_iff key : toCamelCase key = key <-> has_match key = false.
Proof.
  assert (Hlen : forall s, String.length (toCamelCase s) <= String.length s).
  { induction s as [|c|c ch rest IH1 IH2] using string_pair_ind.
    - reflexivity.
    - reflexivity.
    - rewrite toCamelCase_step. destruct (is_separator c && is_alnum ch).
      + cbn [String.length] in *. lia.
      + cbn [String.length] in *. lia. }
  induction key as [|c|c ch rest IH1 IH2] using string_pair_ind.
  - split; reflexivity.
  - split; reflexivity.
  - rewrite toCamelCase_step. cbn [has_match].
    destruct (is_separator c && is_alnum ch) eqn:E; cbn [orb].
    + split; [|discriminate]. intros H.
      apply (f_equal String.length) in H. cbn [String.length] in H.
      specialize (Hlen rest). lia.
    + rewrite <- IH2. split.
      * intros H. injection H as H. exact H.
      * intros ->. reflexivity.
Qed.

(** A key after [toCamelCase] holds no separator followed by a lower-case
    letter, so it is never [__proto__]; it is the key itself exactly when the
    key holds no separator followed by a letter or a digit; and it is never
    longer than the key. *)
Theorem toCamelCase_result (key : string) :
  separator_before_lower (toCamelCase key) = false /\
  toCamelCase key <> "__proto__" /\
  (toCamelCase key = key <-> has_match key = false) /\
  String.length (toCamelCase key) <= String.length key.
Proof.
  split; [apply toCamelCase_no_separator_before_lower|]. split; [|split].
  - intros H. pose proof (toCamelCase_no_separator_before_lower key) as H'.
    rewrite H in H'. discriminate H'.
  - apply toCamelCase_fixed_iff.
  - induction key as [|c|c ch rest IH1 IH2] using string_pair_ind.
    + reflexivity.
    + reflexivity.
    + rewrite toCamelCase_step. destruct (is_separator c && is_alnum ch);
        cbn [String.length] in *; lia.
Qed.

(** *** Assignment to a property *)

Lemma lookup_replace_value entries k v q :
  has_key entries k = true ->
  lookup (replace_value entries k v) q =
  if String.eqb k q then v else lookup entries q.
Proof.
  unfold lookup. induction entries as [|[k' v'] rest IH]; cbn [has_key existsb fst];
    [discriminate|].
  intros H. cbn [replace_value fst]. destruct (String.eqb k' k) eqn:E.
  - apply String.eqb_eq in E. subst k'. cbn [find fst snd].
    destruct (String.eqb k q); reflexivity.
  - cbn [orb] in H. cbn [find fst]. specialize (IH H).
    destruct (String.eqb k' q) eqn:E'.
    + apply String.eqb_eq in E'. subst k'.
      rewrite String.eqb_sym in E. rewrite E. reflexivity.
    + exact IH.
Qed.

Lemma lookup_absent entries k : has_key entries k = false -> lookup entries k = JUndefined.
Proof.
  unfold lookup, has_key. induction entries as [|[k' v'] rest IH]; cbn; [reflexivity|].
  destruct (String.eqb k' k); [discriminate|exact IH].
Qed.

Lemma find_insert_index entries i k v q :
  has_key entries k = false ->
  find (fun e => String.eqb (fst e) q) (insert_index entries i k v) =
  if String.eqb k q then Some (k, v)
  else find (fun e => String.eqb (fst e) q) entries.
Proof.
  induction entries as [|[k' v'] rest IH]; cbn [has_key existsb fst insert_index].
  - intros _. cbn. destruct (String.eqb k q); reflexivity.
  - intros H. apply orb_false_iff in H. destruct H as [Hk Hrest].
    assert (Hq : String.eqb k q = true -> String.eqb k' q = false).
    { intros E. apply String.eqb_eq in E. subst q. exact Hk. }
    destruct (array_index k') as [j|]; [destruct (j <? i)%Z|]; cbn [find fst].
    + rewrite (IH Hrest). destruct (String.eqb k q) eqn:E.
      * rewrite (Hq eq_refl). reflexivity.
      * reflexivity.
    + destruct (String.eqb k q); reflexivity.
    + destruct (String.eqb k q); reflexivity.
Qed.

Lemma lookup_assign entries k v q :
  lookup (assign entries k v) q = if String.eqb k q then v else lookup entries q.
Proof.
  unfold assign. destruct (has_key entries k) eqn:H.
  - apply lookup_replace_value. exact H.
  - unfold lookup. destruct (array_index k) as [i|].
    + rewrite (find_insert_index _ _ _ _ _ H). destruct (String.eqb k q); reflexivity.
    + rewrite find_app. cbn [find fst].
      destruct (String.eqb k q) eqn:E.
      * apply String.eqb_eq in E. subst q.
        pose proof (lookup_absent entries k H) as Ha. unfold lookup in Ha.
        destruct (find _ entries) as [e|] eqn:F; [|reflexivity].
        exfalso. apply find_some in F. destruct F as [Hin F].
        unfold has_key in H.
        assert (existsb (fun e => String.eqb (fst e) k) entries = true).
        { apply existsb_exists. exists e. split; assumption. }
        congruence.
      * destruct (find _ entries); reflexivity.
Qed.

Lemma lookup_fold_assign (f : string * JsValue -> string) (g : string * JsValue -> JsValue)
      l acc q :
  lookup (fold_left (fun result e => assign result (f e) (g e)) l acc) q =
  match find (fun e => String.eqb (f e) q) (rev l) with
  | Some e => g e
  | None => lookup acc q
  end.
Proof.
  revert acc. induction l as [|e l IH]; intros acc; cbn [fold_left rev]; [reflexivity|].
  rewrite IH, find_app. cbn [find].
  destruct (find _ (rev l)); [reflexivity|].
  rewrite lookup_assign. destruct (String.eqb (f e) q); reflexivity.
Qed.

Lemma own_property_lookup entries k :
  lookup entries k = match own_property entries k with
                     | Some v => v
                     | None => JUndefined
                     end.
Proof. unfold lookup, own_property. destruct (find _ entries); reflexivity. Qed.

Lemma own_property_has_key entries k :
  has_key entries k = match own_property entries k with
                      | Some _ => true
                      | None => false
                      end.
Proof.
  unfold has_key, own_property.
  induction entries as [|e rest IH]; cbn [existsb find]; [reflexivity|].
  destruct (String.eqb (fst e) k); [reflexivity|exact IH].
Qed.

Lemma own_property_replace_value entries k v q :
  has_key entries k = true ->
  own_property (replace_value entries k v) q =
  if String.eqb k q then Some v else own_property entries q.
Proof.
  unfold own_property.
  induction entries as [|[k' v'] rest IH]; cbn [has_key existsb fst]; [discriminate|].
  intros H. cbn [replace_value fst]. destruct (String.eqb k' k) eqn:E.
  - apply String.eqb_eq in E. subst k'. cbn [find fst snd].
    destruct (String.eqb k q); reflexivity.
  - cbn [orb] in H. cbn [find fst]. specialize (IH H).
    destruct (String.eqb k' q) eqn:E'.
    + apply String.eqb_eq in E'. subst k'.
      rewrite String.eqb_sym in E. rewrite E. reflexivity.
    + exact IH.
Qed.

Lemma own_property_assign entries k v q :
  own_property (assign entries k v) q =
  if String.eqb k q then Some v else own_property entries q.
Proof.
  unfold assign. destruct (has_key entries k) eqn:H.
  - apply own_property_replace_value. exact H.
  - unfold own_property. destruct (array_index k) as [i|].
    + rewrite (find_insert_index _ _ _ _ _ H). destruct (String.eqb k q); reflexivity.
    + rewrite find_app. cbn [find fst].
      destruct (String.eqb k q) eqn:E.
      * apply String.eqb_eq in E. subst q.
        rewrite own_property_has_key in H. unfold own_property in H.
        destruct (find _ entries); [discriminate H|reflexivity].
      * destruct (find _ entries); reflexivity.
Qed.

Lemma own_property_fold_assign (f : string * JsValue -> string)
      (g : string * JsValue -> JsValue) l acc q :
  own_property (fold_left (fun result e => assign result (f e) (g e)) l acc) q =
  match find (fun e => String.eqb (f e) q) (rev l) with
  | Some e => Some (g e)
  | None => own_property acc q
  end.
Proof.
  revert acc. induction l as [|e l IH]; intros acc; cbn [fold_left rev]; [reflexivity|].
  rewrite IH, find_app. cbn [find].
  destruct (find _ (rev l)); [reflexivity|].
  rewrite own_property_assign. destruct (String.eqb (f e) q); reflexivity.
Qed.

(** The own property [k] of a converted object is the converted value of
    the last key that [toCamelCase] turns into [k]; the object has no own
    property [k] when there is no such key.  Of [node_i] and [nodeI] in one
    object, the later is kept.  Reading [k] gives that value, and
    [undefined] when there is none and [k] is not a name that objects
    inherit. *)
Theorem converted_key_collision (entries : list (string * JsValue)) (k : string) :
  let result := Object_entries (convertKeysToCamelCase (JObj entries)) in
  let last := find (fun e => String.eqb (toCamelCase (fst e)) k) (rev entries) in
  own_property result k = option_map (fun e => convertKeysToCamelCase (snd e)) last /\
  (has_key result k = true <-> exists e, In e entries /\ toCamelCase (fst e) = k) /\
  (inherited k = false \/ last <> None ->
   prop (convertKeysToCamelCase (JObj entries)) k =
   Some (match last with
         | Some e => convertKeysToCamelCase (snd e)
         | None => JUndefined
         end)).
Proof.
  intros result last.
  assert (H : own_property result k
              = option_map (fun e => convertKeysToCamelCase (snd e)) last).
  { unfold result, last. cbn [convertKeysToCamelCase Object_entries].
    rewrite (own_property_fold_assign (fun e => toCamelCase (fst e))
                                      (fun e => convertKeysToCamelCase (snd e))).
    destruct (find _ (rev entries)); reflexivity. }
  split; [exact H|]. split.
  - rewrite own_property_has_key, H. unfold last. split.
    + destruct (find _ (rev entries)) as [e|] eqn:F; [intros _|discriminate].
      apply find_some in F. destruct F as [Hin F]. exists e.
      split; [apply in_rev; exact Hin|apply String.eqb_eq; exact F].
    + intros [e [Hin He]].
      destruct (find _ (rev entries)) as [e'|] eqn:F; [reflexivity|].
      exfalso. apply in_rev in Hin. pose proof (find_none _ _ F e Hin) as Hf.
      cbn beta in Hf. rewrite (proj2 (String.eqb_eq _ _) He) in Hf. discriminate Hf.
  - intros _. cbn [convertKeysToCamelCase prop]. f_equal.
    rewrite own_property_lookup.
    change (fold_left _ entries []) with result.
    rewrite H. destruct last; reflexivity.
Qed.
End CamelCaseFacts.

(** ** Documents in camel case, and the text *)

Section CamelCasedDocuments.
Import Parser CamelCase Document.
Local Open Scope string_scope.
Local Open Scope list_scope.

Lemma JsValue_nested_ind (P : JsValue -> Prop) :
  P JUndefined -> P JNull -> (forall b, P (JBool b)) -> (forall x, P (JNum x)) ->
  (forall s, P (JStr s)) ->
  (forall items, Forall P items -> P (JArr items)) ->
  (forall entries, Forall (fun e => P (snd e)) entries -> P (JObj entries)) ->
  forall v, P v.
Proof.
  intros Hu Hn Hb Hx Hs Ha Ho.
  fix IH 1. intros [| |b|x|s|items|entries].
  - exact Hu.
  - exact Hn.
  - apply Hb.
  - apply Hx.
  - apply Hs.
  - apply Ha. induction items as [|v items IHitems]; constructor; [apply IH|exact IHitems].
  - apply Ho. induction entries as [|[k v] entries IHentries]; constructor;
      [apply IH|exact IHentries].
Qed.

Lemma camel_cased_array items :
  camel_cased (JArr items) <-> Forall camel_cased items.
Proof.
  induction items as [|v items IH].
  - split; [constructor|exact (fun _ => I)].
  - split.
    + intros [Hv Hrest]. constructor; [exact Hv|]. apply IH. exact Hrest.
    + intros H. inversion H as [|? ? Hv Hrest]. subst.
      split; [exact Hv|]. apply IH. exact Hrest.
Qed.

Lemma camel_cased_object entries :
  camel_cased (JObj entries) <->
  ForallOrdPairs may_precede entries /\
  Forall (fun e => has_match (fst e) = false /\ camel_cased (snd e)) entries.
Proof.
  cbn [camel_cased].
  assert (H : (fix all (l : list (string * JsValue)) : Prop :=
                 match l with
                 | [] => True
                 | e :: rest => (has_match (fst e) = false /\ camel_cased (snd e)) /\ all rest
                 end) entries
              <-> Forall (fun e => has_match (fst e) = false /\ camel_cased (snd e)) entries).
  { induction entries as [|e entries IH].
    - split; [constructor|exact (fun _ => I)].
    - split.
      + intros [He Hrest]. constructor; [exact He|]. apply IH. exact Hrest.
      + intros H. inversion H as [|? ? He Hrest]. subst.
        split; [exact He|]. apply IH. exact Hrest. }
  rewrite H. reflexivity.
Qed.

Lemma insert_index_last acc i k v :
  (forall a, In a acc -> exists j, array_index (fst a) = Some j /\ (j < i)%Z) ->
  insert_index acc i k v = acc ++ [(k, v)].
Proof.
  induction acc as [|a acc IH]; intros H; cbn [insert_index app]; [reflexivity|].
  destruct (H a (or_introl eq_refl)) as (j & Hj & Hlt). rewrite Hj.
  apply Z.ltb_lt in Hlt. rewrite Hlt. f_equal. apply IH.
  intros a' Ha'. apply H. right. exact Ha'.
Qed.

Lemma assign_last acc e :
  (forall a, In a acc -> may_precede a e) ->
  assign acc (fst e) (snd e) = acc ++ [e].
Proof.
  intros H. unfold assign.
  assert (Hk : has_key acc (fst e) = false).
  { unfold has_key. destruct (existsb _ acc) eqn:E; [|reflexivity].
    apply existsb_exists in E. destruct E as (a & Hin & Ha).
    apply String.eqb_eq in Ha. destruct (H a Hin) as [Hne _]. contradiction. }
  rewrite Hk. destruct e as [k v]. cbn [fst snd] in *.
  destruct (array_index k) as [i|] eqn:Ei; [|reflexivity].
  apply insert_index_last. intros a Hin. destruct (H a Hin) as [_ Hp].
  cbn [fst] in Hp. rewrite Ei in Hp.
  destruct (array_index (fst a)) as [j|]; [eauto|contradiction].
Qed.

Lemma ordered_app_cons (acc : list (string * JsValue)) e rest :
  ForallOrdPairs may_precede (acc ++ e :: rest) ->
  forall a, In a acc -> may_precede a e.
Proof.
  induction acc as [|a' acc IH]; intros H a Hin; [destruct Hin|].
  cbn [app] in H. inversion H as [|? ? Hfa Hrest]. subst.
  destruct Hin as [->|Hin].
  - rewrite Forall_forall in Hfa. apply Hfa. apply in_or_app. right. left. reflexivity.
  - apply IH; assumption.
Qed.

Lemma fold_assign_ordered es acc :
  ForallOrdPairs may_precede (acc ++ es) ->
  fold_left (fun result e => assign result (fst e) (snd e)) es acc = acc ++ es.
Proof.
  revert acc. induction es as [|e es IH]; intros acc H; cbn [fold_left].
  - rewrite app_nil_r. reflexivity.
  - rewrite (assign_last acc e (ordered_app_cons acc e es H)).
    rewrite IH; rewrite <- app_assoc; [reflexivity|exact H].
Qed.

Lemma fold_left_ext_in A B (f g : A -> B -> A) l acc :
  (forall a b, In b l -> f a b = g a b) -> fold_left f l acc = fold_left g l acc.
Proof.
  revert acc. induction l as [|b l IH]; intros acc H; cbn [fold_left]; [reflexivity|].
  rewrite (H acc b (or_introl eq_refl)). apply IH.
  intros a b' Hb'. apply H. right. exact Hb'.
Qed.

Lemma convert_camel_cased v : camel_cased v -> convertKeysToCamelCase v = v.
Proof.
  induction v as [| |b|x|s|items IH|entries IH] using JsValue_nested_ind;
    intros Hc; try reflexivity.
  - cbn [convertKeysToCamelCase]. f_equal.
    apply camel_cased_array in Hc.
    induction items as [|v items IHitems]; [reflexivity|].
    inversion IH as [|? ? IHv IHrest]. inversion Hc as [|? ? Hv Hrest]. subst.
    cbn [map]. rewrite (IHv Hv), (IHitems IHrest Hrest). reflexivity.
  - cbn [convertKeysToCamelCase]. f_equal.
    apply camel_cased_object in Hc. destruct Hc as [Hord Hall].
    rewrite (fold_left_ext_in _ _ _ (fun result e => assign result (fst e) (snd e))).
    + apply (fold_assign_ordered entries []). exact Hord.
    + intros result e Hin. rewrite Forall_forall in IH, Hall.
      destruct (Hall e Hin) as [Hk Hv].
      rewrite (proj2 (toCamelCase_fixed_iff (fst e)) Hk), (IH e Hin Hv). reflexivity.
Qed.

Variable JSON_parse : string -> option JsValue.
Variable Number : JsValue -> option float.

(** On a document none of whose keys has a separator followed by a letter
    or a digit, the conversion of step 2 changes nothing, and
    [parseFloorData] returns what steps 3 to 7 return on the parsed text. *)
Theorem camel_cased_document_read_as_is (jsonString : string) (raw : JsValue) :
  JSON_parse jsonString = Some raw ->
  camel_cased raw ->
  convertKeysToCamelCase raw = raw /\
  CamelCase.parseFloorData JSON_parse Number jsonString =
  match Throws.parseFloorData Number raw with
  | Some d => inr d
  | None => inl TypeError
  end.
Proof.
  intros Hp Hc. pose proof (convert_camel_cased raw Hc) as H.
  split; [exact H|]. unfold CamelCase.parseFloorData. rewrite Hp, H. reflexivity.
Qed.

Lemma nullish_convert v : nullish (convertKeysToCamelCase v) = nullish v.
Proof. destruct v; reflexivity. Qed.

Lemma array_items_convert_nullish v :
  existsb nullish (array_items (convertKeysToCamelCase v))
  = existsb nullish (array_items v).
Proof.
  destruct v; try reflexivity. cbn [convertKeysToCamelCase array_items].
  induction items as [|x items IH]; [reflexivity|].
  cbn [map existsb]. rewrite nullish_convert, IH. reflexivity.
Qed.

(** The value the parser reads under the name [k]: that of the last key of
    the document that [toCamelCase] turns into [k]. *)
Lemma field_convert entries k :
  field (convertKeysToCamelCase (JObj entries)) k =
  match find (fun e => String.eqb (toCamelCase (fst e)) k) (rev entries) with
  | Some e => convertKeysToCamelCase (snd e)
  | None => JUndefined
  end.
Proof.
  unfold field. cbn [convertKeysToCamelCase prop].
  rewrite (lookup_fold_assign (fun e => toCamelCase (fst e))
                              (fun e => convertKeysToCamelCase (snd e))).
  destruct (find _ (rev entries)); reflexivity.
Qed.

(** What [parseFloorData] does with a text: the error of [JSON.parse] when
    the text is no JSON; a TypeError when the document is [null], has a
    [null] among its nodes or lines, or gives [Number] a value on which it
    throws; and otherwise the floor data, which is the one computed with a
    [Number] that returns. *)
Theorem parse_text_outcome (jsonString : string) :
  match JSON_parse jsonString with
  | None => CamelCase.parseFloorData JSON_parse Number jsonString = inl JsonParseError
  | Some raw =>
      let data := convertKeysToCamelCase raw in
      if nullish raw
         || existsb nullish (array_items (field data "nodes"))
         || existsb nullish (array_items (field data "lines"))
         || existsb (Throws.fails Number) (Throws.conversions data)
      then CamelCase.parseFloorData JSON_parse Number jsonString = inl TypeError
      else exists d,
          CamelCase.parseFloorData JSON_parse Number jsonString = inr d /\
          Parser.parseFloorData (Throws.or_nan Number) data = Some d
  end.
Proof.
  unfold CamelCase.parseFloorData. destruct (JSON_parse jsonString) as [raw|];
    [|reflexivity].
  cbv zeta. rewrite (throws_parseFloorData Number (convertKeysToCamelCase raw)).
  rewrite nullish_convert.
  destruct (nullish raw || _ || _ || _) eqn:E; [reflexivity|].
  rewrite (parseFloorData_total (Throws.or_nan Number) (convertKeysToCamelCase raw)).
  rewrite nullish_convert.
  apply orb_false_iff in E. destruct E as [E _]. rewrite E.
  eexists. split; reflexivity.
Qed.
End CamelCasedDocuments.

(** ** The viewer *)

Section ViewerFacts.
Import JsNum Animation Viewer Validator Expected.
Local Open Scope list_scope.

Lemma plan_fold l b :
  plan (fold_left extent_step l b) = fold_left bounds_step l (plan b).
Proof.
  revert b. induction l as [|n l IH]; intros b; cbn [fold_left]; [reflexivity|].
  rewrite IH. reflexivity.
Qed.

(** The viewer and the controller compute the same [L_floor] from the same
    nodes, so the scene is scaled by the length the amplitudes refer to. *)
Theorem viewer_and_controller_agree_on_lFloor (floorData : FloorData) :
  Viewer.lFloor (nodes floorData) = _lFloor (constructor floorData) /\
  _aRef (constructor floorData) = (Viewer.lFloor (nodes floorData) / 10)%float.
Proof.
  assert (H : Viewer.lFloor (nodes floorData) = _lFloor (constructor floorData)).
  { unfold Viewer.lFloor, constructor, computeFloorMetrics, lFloor_of_bounds, extent.
    cbn [_lFloor fst]. cbv zeta.
    change initial_bounds with (plan initial_extent).
    rewrite <- plan_fold. reflexivity. }
  split; [exact H|]. rewrite H. reflexivity.
Qed.

Lemma vertexMap_indices ns ls index :
  map segmentIndex (deformedVertexMap_from ns ls index)
  = seq index (List.length (deformedVertexMap_from ns ls index)).
Proof.
  revert index. induction ls as [|line ls IH]; intros index;
    cbn [deformedVertexMap_from]; [reflexivity|].
  destruct (JsMap.get ns (line_nodeI line)), (JsMap.get ns (line_nodeJ line));
    try apply IH.
  cbn [map List.length seq segmentIndex]. rewrite IH. reflexivity.
Qed.

Lemma positions_length ns ls index :
  List.length (positions ns ls) = 6 * List.length (deformedVertexMap_from ns ls index).
Proof.
  revert index. unfold positions.
  induction ls as [|line ls IH]; intros index;
    cbn [flat_map deformedVertexMap_from]; [reflexivity|].
  destruct (JsMap.get ns (line_nodeI line)), (JsMap.get ns (line_nodeJ line));
    cbn [app List.length]; try apply IH.
  rewrite (IH (S index)). lia.
Qed.

Lemma updateDeformed_indices ns vmap getZ call :
  In call (updateDeformed ns vmap getZ) ->
  at_index (fst call) = at_index (snd call) /\
  In (at_index (fst call)) (map segmentIndex vmap).
Proof.
  intros Hin. unfold updateDeformed in Hin. apply in_flat_map in Hin.
  destruct Hin as (entry & He & Hc).
  destruct (JsMap.get ns (seg_nodeI entry)), (JsMap.get ns (seg_nodeJ entry));
    try contradiction.
  destruct Hc as [<-|[]]. cbn. split; [reflexivity|].
  apply in_map. exact He.
Qed.

Lemma vertexMap_length ns ls index :
  List.length (deformedVertexMap_from ns ls index) <= List.length ls.
Proof.
  revert index. induction ls as [|line ls IH]; intros index;
    cbn [deformedVertexMap_from List.length]; [lia|].
  destruct (JsMap.get ns (line_nodeI line)), (JsMap.get ns (line_nodeJ line));
    cbn [List.length]; try (specialize (IH index); lia).
  specialize (IH (S index)). lia.
Qed.

(** The segments of the deformed lines are numbered from 0 without a gap,
    there are as many of them as the position arrays hold (six numbers each),
    at most one for a line, and [updateDeformed] writes only to them. *)
Theorem deformed_segments_are_dense (ns : JsMap.t Node) (ls : list Line)
        (getDisplacedZ : float -> float) :
  let vertexMap := deformedVertexMap ns ls in
  map segmentIndex vertexMap = seq 0 (List.length vertexMap) /\
  List.length (positions ns ls) = 6 * List.length vertexMap /\
  List.length vertexMap <= List.length ls /\
  (forall call, In call (updateDeformed ns vertexMap getDisplacedZ) ->
                at_index (fst call) = at_index (snd call) /\
                at_index (fst call) < List.length vertexMap).
Proof.
  intros vertexMap. unfold vertexMap, deformedVertexMap.
  split; [apply vertexMap_indices|]. split; [apply positions_length|].
  split; [apply vertexMap_length|].
  intros call Hin. destruct (updateDeformed_indices _ _ _ _ Hin) as [H1 H2].
  split; [exact H1|]. rewrite vertexMap_indices in H2. apply in_seq in H2. lia.
Qed.

Lemma has_true_get {V} (m : JsMap.t V) k :
  JsMap.has m k = true -> exists v, JsMap.get m k = Some v.
Proof. apply has_get. Qed.

Lemma vertexMap_complete ns ls index :
  (forall line, In line ls ->
                JsMap.has ns (line_nodeI line) = true /\
                JsMap.has ns (line_nodeJ line) = true) ->
  deformedVertexMap_from ns ls index
  = map (fun p => mkSegment (line_nodeI (snd p)) (line_nodeJ (snd p)) (fst p))
        (indexed_from index ls).
Proof.
  revert index. induction ls as [|line ls IH]; intros index H; [reflexivity|].
  cbn [deformedVertexMap_from]. unfold indexed_from.
  cbn [List.length seq combine map fst snd].
  destruct (H line (or_introl eq_refl)) as [Hi Hj].
  apply has_true_get in Hi, Hj. destruct Hi as [ni Hi]. destruct Hj as [nj Hj].
  rewrite Hi, Hj. f_equal. apply IH. intros l Hl. apply H. right. exact Hl.
Qed.

Lemma nth_error_indexed_from A (l : list A) index i x :
  nth_error l i = Some x -> nth_error (indexed_from index l) i = Some (index + i, x).
Proof.
  revert index i. induction l as [|a l IH]; intros index [|i] H; try discriminate H.
  - injection H as ->. unfold indexed_from. cbn. rewrite Nat.add_0_r. reflexivity.
  - unfold indexed_from. cbn [List.length seq combine nth_error].
    fold (indexed_from (S index) l). rewrite (IH (S index) i H).
    f_equal. f_equal. lia.
Qed.

Lemma accepted_consistent d : errors (validateFloorData d) = [] -> consistent d.
Proof.
  intros H. apply problems_nil_iff. apply firstn_cap_nil.
  rewrite <- (proj1 (validate_report d)). exact H.
Qed.

(** In a data set without errors no line is skipped by the viewer: line
    [i] is segment [i], and both its ends are nodes. *)
Theorem accepted_lines_are_all_drawn (floorData : FloorData) :
  errors (validate floorData) = [] ->
  let vertexMap := deformedVertexMap (nodes floorData) (lines floorData) in
  List.length vertexMap = List.length (lines floorData) /\
  forall i line,
    nth_error (lines floorData) i = Some line ->
    nth_error vertexMap i
    = Some (mkSegment (line_nodeI line) (line_nodeJ line) i) /\
    exists ni nj,
      JsMap.get (nodes floorData) (line_nodeI line) = Some ni /\
      JsMap.get (nodes floorData) (line_nodeJ line) = Some nj.
Proof.
  intros H vertexMap. apply accepted_consistent in H.
  unfold input_of, consistent in H. cbn [in_nodes in_lines in_freqHz in_modes] in H.
  destruct H as (_ & _ & _ & _ & Hlines & _).
  assert (Hall : forall line, In line (lines floorData) ->
                              JsMap.has (nodes floorData) (line_nodeI line) = true /\
                              JsMap.has (nodes floorData) (line_nodeJ line) = true).
  { intros line Hin. destruct (Hlines line Hin) as (Hi & Hj & _). split; assumption. }
  unfold vertexMap, deformedVertexMap. rewrite (vertexMap_complete _ _ 0 Hall).
  split.
  - rewrite length_map. unfold indexed_from. rewrite length_combine, length_seq. lia.
  - intros i line Hi. split.
    + rewrite nth_error_map, (nth_error_indexed_from _ _ 0 i line Hi). reflexivity.
    + destruct (Hall line (nth_error_In _ _ Hi)) as [HI HJ].
      apply has_true_get in HI, HJ. destruct HI as [ni HI]. destruct HJ as [nj HJ].
      exists ni, nj. split; assumption.
Qed.

Lemma get_In {V} (m : JsMap.t V) q v :
  JsMap.get m q = Some v ->
  exists k, In (k, v) m /\ same_value_zero k q = true.
Proof.
  induction m as [|[k' v'] m IH]; cbn [JsMap.get]; [discriminate|].
  destruct (same_value_zero k' q) eqn:E.
  - intros H. injection H as ->. exists k'. split; [left; reflexivity|exact E].
  - intros H. destruct (IH H) as (k & Hin & Hk). exists k. split; [right; exact Hin|exact Hk].
Qed.

Lemma positive_or_zero f : (0 <? f)%float = true -> or_zero f = f.
Proof.
  intros H. unfold or_zero. apply ltb_place in H. destruct H as (_ & Hn & H).
  rewrite Hn. cbn [orb].
  destruct (is_zero f) eqn:Ez; [|reflexivity].
  apply is_zero_SF in Ez. destruct Ez as [s Ez]. unfold fplace in H. rewrite Ez in H.
  discriminate H.
Qed.

(** In a data set without errors every listed mode has a shape and a
    frequency, and [getFreqHz] returns that frequency, finite and
    positive. *)
Theorem accepted_modes_have_frequencies (floorData : FloorData) (m : float) :
  errors (validate floorData) = [] ->
  In m (getModeList (constructor floorData)) ->
  exists modeShape f,
    JsMap.get (modes floorData) m = Some modeShape /\
    JsMap.get (freqHz floorData) m = Some f /\
    getFreqHz (Some m) (constructor floorData) = f /\
    is_finite f = true /\ (0 <? f)%float = true.
Proof.
  intros H Hm. apply accepted_consistent in H.
  unfold input_of, consistent in H. cbn [in_nodes in_lines in_freqHz in_modes] in H.
  destruct H as (_ & _ & _ & _ & _ & Hfreq & Hsame & _).
  pose proof (mode_list_of_constructor floorData) as Hp.
  assert (Hk : JsMap.has (modes floorData) m = true).
  { apply key_has. apply (Permutation_in m Hp). exact Hm. }
  pose proof Hk as Hf. rewrite Hsame in Hf.
  apply has_true_get in Hk, Hf. destruct Hk as [modeShape Hk]. destruct Hf as [f Hf].
  exists modeShape, f. split; [exact Hk|]. split; [exact Hf|].
  destruct (get_In _ _ _ Hf) as (k & Hin & _).
  destruct (Hfreq k f Hin) as [Hfin Hpos].
  split; [|split; assumption].
  unfold getFreqHz, get_or_zero. cbn [constructor _freqHz]. rewrite Hf.
  apply positive_or_zero. exact Hpos.
Qed.
End ViewerFacts.

(** ** The sign of a difference *)

Section SubtractionSign.
Import JsNum Order.
Local Open Scope Z_scope.

Lemma digits2_pos_bounds m :
  2 ^ (Zpos (digits2_pos m) - 1) <= Zpos m < 2 ^ Zpos (digits2_pos m).
Proof.
  induction m as [m IH|m IH|]; cbn [digits2_pos].
  - rewrite Pos2Z.inj_succ.
    replace (Z.succ (Zpos (digits2_pos m)) - 1) with (Z.succ (Zpos (digits2_pos m) - 1)) by lia.
    rewrite !Z.pow_succ_r by lia. lia.
  - rewrite Pos2Z.inj_succ.
    replace (Z.succ (Zpos (digits2_pos m)) - 1) with (Z.succ (Zpos (digits2_pos m) - 1)) by lia.
    rewrite !Z.pow_succ_r by lia. lia.
  - cbn. lia.
Qed.

(** What [valid_binary] says of a finite number. *)
Lemma bounded_canonical m e :
  bounded prec emax m e = true ->
  emin <= e /\
  Zpos (digits2_pos m) <= prec /\
  (emin < e -> Zpos (digits2_pos m) = prec).
Proof.
  unfold bounded, canonical_mantissa, fexp. intros H.
  apply andb_true_iff in H. destruct H as [H _]. apply Z.eqb_eq in H.
  unfold prec in *. lia.
Qed.

Lemma shl_align_value m e e' :
  e' <= e -> Zpos (fst (shl_align m e e')) = Zpos m * 2 ^ (e - e').
Proof.
  intros H. unfold shl_align. destruct (e' - e) as [|d|d] eqn:E.
  - replace (e - e') with 0 by lia. cbn [fst]. lia.
  - lia.
  - cbn [fst]. change (Pos.iter xO m d) with (shift_pos d m).
    rewrite shift_pos_correct, Z.pow_pos_fold.
    replace (e - e') with (Zpos d) by lia. lia.
Qed.

Lemma shl_align_exponent m e e' : e' <= e -> snd (shl_align m e e') = e'.
Proof.
  intros H. unfold shl_align. destruct (e' - e) as [|d|d] eqn:E; cbn [snd]; lia.
Qed.

(** Two valid positive numbers compare as their mantissas brought to the
    smaller exponent. *)
Lemma aligned_compare mx ex my ey :
  bounded prec emax mx ex = true -> bounded prec emax my ey = true ->
  (Zpos (fst (shl_align mx ex (Z.min ex ey)))
   ?= Zpos (fst (shl_align my ey (Z.min ex ey)))) =
  match ex ?= ey with
  | Lt => Lt
  | Gt => Gt
  | Eq => Pos.compare_cont Eq mx my
  end.
Proof.
  intros Hx Hy.
  destruct (bounded_canonical _ _ Hx) as (Hex & Hdx & Hnx).
  destruct (bounded_canonical _ _ Hy) as (Hey & Hdy & Hny).
  pose proof (digits2_pos_bounds mx) as Bx. pose proof (digits2_pos_bounds my) as By.
  rewrite !shl_align_value by lia.
  destruct (ex ?= ey) eqn:E.
  - apply Z.compare_eq in E. subst ey. rewrite Z.min_id, Z.sub_diag.
    rewrite !Z.mul_1_r. reflexivity.
  - rewrite Z.compare_lt_iff in E. rewrite Z.min_l by lia.
    rewrite Z.sub_diag, Z.mul_1_r. apply Z.compare_lt_iff.
    specialize (Hny ltac:(lia)). rewrite Hny in By.
    assert (H2 : 2 ^ 1 <= 2 ^ (ey - ex)) by (apply Z.pow_le_mono_r; lia).
    assert (Hp : Zpos mx < 2 ^ prec).
    { eapply Z.lt_le_trans; [apply Bx|]. apply Z.pow_le_mono_r; lia. }
    assert (Hq : 2 ^ prec = 2 ^ (prec - 1) * 2 ^ 1).
    { vm_compute. reflexivity. }
    nia.
  - rewrite Z.compare_gt_iff in E. rewrite Z.min_r by lia.
    rewrite Z.sub_diag, Z.mul_1_r. apply Z.compare_gt_iff.
    specialize (Hnx ltac:(lia)). rewrite Hnx in Bx.
    assert (H2 : 2 ^ 1 <= 2 ^ (ex - ey)) by (apply Z.pow_le_mono_r; lia).
    assert (Hp : Zpos my < 2 ^ prec).
    { eapply Z.lt_le_trans; [apply By|]. apply Z.pow_le_mono_r; lia. }
    assert (Hq : 2 ^ prec = 2 ^ (prec - 1) * 2 ^ 1).
    { vm_compute. reflexivity. }
    nia.
Qed.

(** *** Rounding a mantissa that is not zero *)

Lemma shr_1_m mrs : 0 <= shr_m mrs -> shr_m (shr_1 mrs) = shr_m mrs / 2.
Proof.
  destruct mrs as [m r s]. cbn [shr_m]. intros H.
  destruct m as [|[p|p|]|p]; cbn [shr_1 shr_m]; try reflexivity; try lia.
  - apply (Z.div_unique (Zpos p~1) 2 (Zpos p) 1); lia.
  - apply (Z.div_unique (Zpos p~0) 2 (Zpos p) 0); lia.
Qed.

Lemma shr_1_nonneg mrs : 0 <= shr_m mrs -> 0 <= shr_m (shr_1 mrs).
Proof. intros H. rewrite shr_1_m by exact H. apply Z.div_pos; lia. Qed.

Lemma iter_shr_1_m p mrs :
  0 <= shr_m mrs ->
  shr_m (SpecFloat.iter_pos shr_1 p mrs) = shr_m mrs / 2 ^ Zpos p /\
  0 <= shr_m (SpecFloat.iter_pos shr_1 p mrs).
Proof.
  revert mrs. induction p as [p IH|p IH|]; intros mrs H; cbn [SpecFloat.iter_pos].
  - pose proof (shr_1_nonneg mrs H) as H1.
    destruct (IH (shr_1 mrs) H1) as [E1 N1].
    destruct (IH _ N1) as [E2 N2]. split; [|exact N2].
    rewrite E2, E1, shr_1_m by exact H.
    rewrite !Z.div_div by (try apply Z.pow_pos_nonneg; lia).
    f_equal. rewrite (Pos2Z.inj_xI p).
    replace (2 * Zpos p + 1) with (1 + Zpos p + Zpos p) by lia.
    rewrite !Z.pow_add_r by lia. lia.
  - destruct (IH mrs H) as [E1 N1].
    destruct (IH _ N1) as [E2 N2]. split; [|exact N2].
    rewrite E2, E1.
    rewrite !Z.div_div by (try apply Z.pow_pos_nonneg; lia).
    f_equal. rewrite (Pos2Z.inj_xO p).
    replace (2 * Zpos p) with (Zpos p + Zpos p) by lia.
    rewrite !Z.pow_add_r by lia. lia.
  - split; [|apply shr_1_nonneg; exact H].
    rewrite shr_1_m by exact H. reflexivity.
Qed.

Lemma shr_record_of_loc_m m l : shr_m (shr_record_of_loc m l) = m.
Proof. destruct l as [|[| |]]; reflexivity. Qed.

(** Shifting a positive mantissa to its format leaves it positive. *)
Lemma shr_fexp_positive m e l :
  emin <= e ->
  0 < shr_m (fst (shr_fexp prec emax (Zpos m) e l)) /\
  emin <= snd (shr_fexp prec emax (Zpos m) e l).
Proof.
  intros He. unfold shr_fexp, shr. cbn [Zdigits2].
  pose proof (digits2_pos_bounds m) as B.
  destruct (fexp prec emax (Zpos (digits2_pos m) + e) - e) as [|p|p] eqn:E;
    cbn [fst snd]; rewrite ?shr_record_of_loc_m; try (split; lia).
  assert (Hp : Zpos p < Zpos (digits2_pos m)).
  { unfold fexp, prec in E. unfold prec in He. lia. }
  destruct (iter_shr_1_m p (shr_record_of_loc (Zpos m) l)) as [Em _].
  { rewrite shr_record_of_loc_m. lia. }
  rewrite Em, shr_record_of_loc_m. split.
  - apply Z.div_str_pos. split; [apply Z.pow_pos_nonneg; lia|].
    eapply Z.le_trans; [|apply B]. apply Z.pow_le_mono_r; lia.
  - unfold fexp in E. rewrite <- E. unfold fexp. lia.
Qed.

Lemma round_nearest_even_positive m l : 0 < m -> 0 < round_nearest_even m l.
Proof.
  intros H. destruct l as [|[| |]]; cbn [round_nearest_even]; try lia.
  destruct (Z.even m); lia.
Qed.

Lemma binary_round_aux_sign s m e l :
  emin <= e ->
  signed_nonzero s (binary_round_aux prec emax s (Zpos m) e l).
Proof.
  intros He. unfold binary_round_aux.
  destruct (shr_fexp_positive m e l He) as [H1 H2].
  destruct (shr_fexp prec emax (Zpos m) e l) as [mrs' e'] eqn:E1. cbn [fst snd] in H1, H2.
  pose proof (round_nearest_even_positive (shr_m mrs') (loc_of_shr_record mrs') H1) as Hr.
  destruct (round_nearest_even (shr_m mrs') (loc_of_shr_record mrs')) as [|m'|m'] eqn:Er;
    try lia.
  destruct (shr_fexp_positive m' e' loc_Exact H2) as [H3 _].
  destruct (shr_fexp prec emax (Zpos m') e' loc_Exact) as [mrs'' e''] eqn:E2.
  cbn [fst] in H3.
  destruct (shr_m mrs'') as [|m''|m'']; try lia.
  destruct (e'' <=? emax - prec); reflexivity.
Qed.

Lemma binary_round_sign s m e :
  emin <= e -> signed_nonzero s (binary_round prec emax s m e).
Proof.
  intros He. unfold binary_round.
  destruct (shl_align m e (fexp prec emax (Zpos (digits2_pos m) + e))) as [mz ez] eqn:E.
  apply binary_round_aux_sign.
  unfold shl_align in E.
  destruct (fexp prec emax (Zpos (digits2_pos m) + e) - e) as [|d|d] eqn:Ed;
    injection E as _ <-; try exact He.
  unfold fexp. lia.
Qed.

(** The result of a normalisation has the sign of the mantissa. *)
Lemma binary_normalize_negative m e :
  emin <= e ->
  SFltb (binary_normalize prec emax m e false) (S754_zero false) = (m <? 0).
Proof.
  intros He. destruct m as [|m|m]; cbn [binary_normalize].
  - reflexivity.
  - pose proof (binary_round_sign false m e He) as H.
    destruct (binary_round prec emax false m e) as [| | |s' m' e']; cbn in H;
      try contradiction; subst; reflexivity.
  - pose proof (binary_round_sign true m e He) as H.
    destruct (binary_round prec emax true m e) as [| | |s' m' e']; cbn in H;
      try contradiction; subst; reflexivity.
Qed.

Lemma binary_normalize_not_nan m e :
  emin <= e -> binary_normalize prec emax m e false <> S754_nan.
Proof.
  intros He. destruct m as [|m|m]; cbn [binary_normalize].
  - discriminate.
  - pose proof (binary_round_sign false m e He) as H.
    destruct (binary_round prec emax false m e); cbn in H; try contradiction; discriminate.
  - pose proof (binary_round_sign true m e He) as H.
    destruct (binary_round prec emax true m e); cbn in H; try contradiction; discriminate.
Qed.

Lemma compare_cont_spec mx my :
  Pos.compare_cont Eq mx my = (Zpos mx ?= Zpos my).
Proof. reflexivity. Qed.

(** The difference of two valid numbers is below zero exactly when the first
    is below the second. *)
Lemma SFsub_negative x y :
  valid_binary x = true -> valid_binary y = true ->
  SFltb (SFsub prec emax x y) (S754_zero false) = SFltb x y.
Proof.
  intros Hx Hy.
  destruct x as [sx|sx| |sx mx ex], y as [sy|sy| |sy my ey];
    try reflexivity;
    try (destruct sx; try destruct sy; reflexivity);
    try (destruct sy; reflexivity).
  cbn [SpecFloat.valid_binary] in Hx, Hy.
  destruct (bounded_canonical _ _ Hx) as (Hex & _).
  destruct (bounded_canonical _ _ Hy) as (Hey & _).
  cbn [SFsub]. cbv zeta.
  rewrite binary_normalize_negative by lia.
  pose proof (aligned_compare mx ex my ey Hx Hy) as Hc.
  set (X := Zpos (fst (shl_align mx ex (Z.min ex ey)))) in *.
  set (Y := Zpos (fst (shl_align my ey (Z.min ex ey)))) in *.
  assert (HX : 0 < X) by (unfold X; lia).
  assert (HY : 0 < Y) by (unfold Y; lia).
  assert (Hc' : CompOpp (X ?= Y) =
                match ex ?= ey with
                | Lt => Gt
                | Gt => Lt
                | Eq => CompOpp (Pos.compare_cont Eq mx my)
                end).
  { rewrite Hc. destruct (ex ?= ey); reflexivity. }
  unfold SFltb, SFcompare.
  destruct sx, sy; cbn [cond_Zopp]; rewrite <- ?Hc', <- ?Hc.
  - destruct (Z.compare_spec X Y) as [Ec|Ec|Ec]; cbn [CompOpp];
      destruct (- X - - Y <? 0) eqn:El; try reflexivity;
      first [apply Z.ltb_lt in El|apply Z.ltb_ge in El]; lia.
  - destruct (- X - Y <? 0) eqn:El; try reflexivity. apply Z.ltb_ge in El. lia.
  - destruct (X - - Y <? 0) eqn:El; try reflexivity. apply Z.ltb_lt in El. lia.
  - destruct (Z.compare_spec X Y) as [Ec|Ec|Ec];
      destruct (X - Y <? 0) eqn:El; try reflexivity;
      first [apply Z.ltb_lt in El|apply Z.ltb_ge in El]; lia.
Qed.

Lemma SFsub_finite_not_nan x y :
  valid_binary x = true -> valid_binary y = true ->
  match x with S754_zero _ | S754_finite _ _ _ => True | _ => False end ->
  match y with S754_zero _ | S754_finite _ _ _ => True | _ => False end ->
  SFsub prec emax x y <> S754_nan.
Proof.
  intros Hx Hy Fx Fy.
  destruct x as [sx|sx| |sx mx ex], y as [sy|sy| |sy my ey]; try contradiction;
    try (destruct sx; try destruct sy; discriminate); try discriminate.
  cbn [SpecFloat.valid_binary] in Hx, Hy.
  destruct (bounded_canonical _ _ Hx) as (Hex & _).
  destruct (bounded_canonical _ _ Hy) as (Hey & _).
  cbn [SFsub]. cbv zeta. apply binary_normalize_not_nan. lia.
Qed.

Local Open Scope float_scope.

(** The comparator [(a, b) => a - b] is negative exactly when [a < b]. *)
Lemma sub_negative_iff_less a b : (a - b <? 0) = (a <? b).
Proof.
  rewrite !ltb_spec, sub_spec.
  change (Prim2SF 0) with (S754_zero false).
  apply SFsub_negative; apply Prim2SF_valid.
Qed.

Lemma sub_finite_not_nan a b :
  is_finite a = true -> is_finite b = true -> is_nan (a - b) = false.
Proof.
  intros Ha Hb. apply not_nan_SF. rewrite sub_spec.
  apply is_finite_SF in Ha, Hb.
  apply SFsub_finite_not_nan; try apply Prim2SF_valid.
  - destruct (Prim2SF a); try contradiction; exact I.
  - destruct (Prim2SF b); try contradiction; exact I.
Qed.
End SubtractionSign.

(** ** The order of the mode list *)

Section ModeOrder.
Import JsNum Animation Order.
Local Open Scope float_scope.

Lemma insert_sorted_less a l :
  insert_sorted a l =
  match l with
  | [] => [a]
  | b :: rest => if a <? b then a :: b :: rest else b :: insert_sorted a rest
  end.
Proof. destruct l; cbn [insert_sorted]; [|rewrite sub_negative_iff_less]; reflexivity. Qed.

Lemma not_less_leb a b :
  is_nan a = false -> is_nan b = false -> (a <? b) = false -> (b <=? a) = true.
Proof. intros Ha Hb H. apply not_ltb_leb; assumption. Qed.

Lemma leb_less_trans a b c : (a <=? b) = true -> (b <? c) = true -> (a <? c) = true.
Proof.
  intros H1 H2. apply leb_place in H1. apply ltb_place in H2.
  destruct H1 as (Ha & Hb & H1). destruct H2 as (_ & Hc & H2).
  apply ltb_place. split; [exact Ha|]. split; [exact Hc|].
  unfold fplace in *.
  destruct (place (Prim2SF a)) as [[a1 a2] a3], (place (Prim2SF b)) as [[b1 b2] b3],
           (place (Prim2SF c)) as [[c1 c2] c3].
  apply (place_compare_lt (a1, a2, a3) (c1, c2, c3)).
  apply (place_compare_lt (b1, b2, b3) (c1, c2, c3)) in H2.
  destruct (place_compare (a1, a2, a3) (b1, b2, b3)) eqn:E.
  - apply place_compare_eq in E. injection E as -> -> ->. exact H2.
  - apply (place_compare_lt (a1, a2, a3) (b1, b2, b3)) in E. lia.
  - contradiction H1. reflexivity.
Qed.

(** Numbers that differ and are in order are strictly in order. *)
Lemma leb_distinct_less a b :
  (a <=? b) = true -> same_value_zero a b = false -> (a <? b) = true.
Proof.
  intros Hle Hd. apply leb_neq_ltb; [exact Hle|].
  destruct (b =? a) eqn:E; [|reflexivity].
  exfalso. apply svz_false in Hd. apply Hd. apply svz_spec.
  unfold same_value_zero. apply eqb_place in E. destruct E as (Hb & Ha & E).
  assert (H : (a =? b) = true).
  { apply eqb_place. split; [exact Ha|]. split; [exact Hb|]. symmetry. exact E. }
  rewrite H. reflexivity.
Qed.

Lemma insert_sorted_ascending a l :
  is_nan a = false -> numbers l ->
  (forall b, In b l -> same_value_zero a b = false) ->
  ascending l -> ascending (insert_sorted a l).
Proof.
  intros Ha. induction l as [|b rest IH]; intros Hn Hd Hs.
  - cbn. constructor; constructor.
  - rewrite insert_sorted_less. inversion Hn as [|? ? Hb Hrest]. subst.
    inversion Hs as [|? ? Hs' Hlt]. subst.
    destruct (a <? b) eqn:E.
    + constructor; [exact Hs|]. constructor; [exact E|].
      rewrite Forall_forall in *. intros x Hx. apply (ltb_trans a b x); [exact E|].
      apply Hlt. exact Hx.
    + assert (Hba : (b <? a) = true).
      { apply leb_distinct_less; [apply not_less_leb; assumption|].
        rewrite svz_sym. apply Hd. left. reflexivity. }
      constructor.
      * apply IH; [exact Hrest| |exact Hs'].
        intros x Hx. apply Hd. right. exact Hx.
      * rewrite Forall_forall in *. intros x Hx.
        apply (Permutation_in x (insert_sorted_permutation a rest)) in Hx.
        destruct Hx as [<-|Hx]; [exact Hba|]. apply Hlt. exact Hx.
Qed.

Lemma sort_ascending_ascending l :
  numbers l -> JsMap.distinct_keys l -> ascending (sort_ascending l).
Proof.
  unfold sort_ascending.
  assert (H : forall acc,
             numbers acc -> numbers l -> ascending acc ->
             JsMap.distinct_keys l ->
             (forall a b, In a l -> In b acc -> same_value_zero a b = false) ->
             ascending (fold_left (fun sorted a => insert_sorted a sorted) l acc)).
  { induction l as [|a l IH]; intros acc Hacc Hl Hs Hd Hx; cbn [fold_left]; [exact Hs|].
    inversion Hl as [|? ? Ha Hl']. subst. destruct Hd as [Hda Hd].
    apply IH.
    - unfold numbers in *. rewrite Forall_forall in *. intros x Hin.
      apply (Permutation_in x (insert_sorted_permutation a acc)) in Hin.
      destruct Hin as [<-|Hin]; [exact Ha|apply Hacc; exact Hin].
    - exact Hl'.
    - apply insert_sorted_ascending; [exact Ha|exact Hacc| |exact Hs].
      intros b Hb. apply Hx; [left; reflexivity|exact Hb].
    - exact Hd.
    - intros x b Hin Hb.
      apply (Permutation_in b (insert_sorted_permutation a acc)) in Hb.
      destruct Hb as [<-|Hb].
      + rewrite svz_sym. apply Hda. exact Hin.
      + apply Hx; [right; exact Hin|exact Hb]. }
  intros Hn Hd. apply H; try assumption.
  - constructor.
  - constructor.
  - intros a b _ [].
Qed.

(** When no mode number is [NaN], the mode list is in strictly ascending
    order, whatever the order of the keys in the document, and the mode that
    a new controller selects is the smallest. *)
Theorem mode_list_is_ascending (floorData : FloorData) :
  numbers (JsMap.keys (modes floorData)) ->
  JsMap.distinct_keys (JsMap.keys (modes floorData)) ->
  let c := constructor floorData in
  ascending (getModeList c) /\
  forall first m,
    getCurrentMode c = Some first -> In m (JsMap.keys (modes floorData)) ->
    (first <=? m) = true.
Proof.
  intros Hn Hd c.
  pose proof (sort_ascending_ascending _ Hn Hd) as Hs.
  split; [exact Hs|].
  intros first m Hc Hm.
  pose proof (sort_ascending_permutation (JsMap.keys (modes floorData))) as Hp.
  apply (Permutation_in m (Permutation_sym Hp)) in Hm.
  unfold c, constructor, getCurrentMode in Hc. cbn [_modeList _currentMode] in Hc.
  unfold ascending in Hs.
  destruct (sort_ascending (JsMap.keys (modes floorData))) as [|k l]; [discriminate Hc|].
  injection Hc as ->. inversion Hs as [|? ? _ Hlt]. subst.
  destruct Hm as [<-|Hm].
  - apply leb_refl. unfold numbers in Hn. rewrite Forall_forall in Hn.
    apply Hn. apply (Permutation_in first Hp). left. reflexivity.
  - apply ltb_leb. rewrite Forall_forall in Hlt. apply Hlt. exact Hm.
Qed.
End ModeOrder.

(** ** The extent of the floor *)

Section FloorExtent.
Import JsNum Animation Order.
Local Open Scope float_scope.

Lemma finite_below_infinity x : is_finite x = true -> (x <? infinity) = true.
Proof.
  intros H. apply is_finite_SF in H. rewrite FloatAxioms.ltb_spec.
  change (Prim2SF infinity) with (S754_infinity false).
  destruct (Prim2SF x) as [s|s| |s m e]; try contradiction; reflexivity.
Qed.

Lemma finite_above_neg_infinity x : is_finite x = true -> (neg_infinity <? x) = true.
Proof.
  intros H. apply is_finite_SF in H. rewrite FloatAxioms.ltb_spec.
  change (Prim2SF neg_infinity) with (S754_infinity true).
  destruct (Prim2SF x) as [s|s| |s m e]; try contradiction; reflexivity.
Qed.

(** The first node with finite coordinates sets all four bounds. *)
Lemma first_node_settles n :
  is_finite (node_x n) = true -> is_finite (node_y n) = true ->
  settled (bounds_step initial_bounds n).
Proof.
  intros Hx Hy. unfold bounds_step, initial_bounds. cbn [minX maxX minY maxY].
  rewrite (finite_below_infinity _ Hx), (finite_above_neg_infinity _ Hx),
    (finite_below_infinity _ Hy), (finite_above_neg_infinity _ Hy).
  unfold settled. cbn [minX maxX minY maxY].
  repeat split; try assumption; apply leb_refl, is_finite_not_nan; assumption.
Qed.

Lemma bound_step_ordered lo hi x :
  is_finite x = true -> (lo <=? hi) = true ->
  ((if x <? lo then x else lo) <=? (if hi <? x then x else hi)) = true.
Proof.
  intros Hx H. destruct (x <? lo) eqn:E1, (hi <? x) eqn:E2.
  - apply leb_refl, is_finite_not_nan, Hx.
  - apply (leb_trans x lo hi); [apply ltb_leb; exact E1|exact H].
  - apply (leb_trans lo hi x); [exact H|apply ltb_leb; exact E2].
  - exact H.
Qed.

Lemma later_node_keeps_settled b n :
  settled b -> is_finite (node_x n) = true -> is_finite (node_y n) = true ->
  settled (bounds_step b n).
Proof.
  intros (H1 & H2 & H3 & H4 & H5 & H6) Hx Hy.
  unfold settled, bounds_step. cbn [minX maxX minY maxY].
  split; [destruct (node_x n <? minX b); assumption|].
  split; [destruct (maxX b <? node_x n); assumption|].
  split; [apply bound_step_ordered; assumption|].
  split; [destruct (node_y n <? minY b); assumption|].
  split; [destruct (maxY b <? node_y n); assumption|].
  apply bound_step_ordered; assumption.
Qed.

Lemma fold_keeps_settled l b :
  settled b ->
  Forall (fun n => is_finite (node_x n) = true /\ is_finite (node_y n) = true) l ->
  settled (fold_left bounds_step l b).
Proof.
  revert b. induction l as [|n l IH]; intros b Hb Hl; cbn [fold_left]; [exact Hb|].
  inversion Hl as [|? ? [Hx Hy] Hl']. subst.
  apply IH; [|exact Hl']. apply later_node_keeps_settled; assumption.
Qed.

(** The range of a settled pair of bounds is a number, and not negative. *)
Lemma range_not_negative lo hi :
  is_finite lo = true -> is_finite hi = true -> (lo <=? hi) = true ->
  (0 <=? hi - lo) = true.
Proof.
  intros Hlo Hhi H. apply not_ltb_leb.
  - reflexivity.
  - apply sub_finite_not_nan; assumption.
  - rewrite sub_negative_iff_less. destruct (hi <? lo) eqn:E; [|reflexivity].
    apply ltb_not_leb in E. congruence.
Qed.

Lemma Math_max_not_negative a b :
  (0 <=? a) = true -> (0 <=? b) = true -> (0 <=? Math_max a b) = true.
Proof.
  intros Ha Hb. unfold Math_max.
  destruct (proj1 (leb_place 0 a) Ha) as (_ & Na & _).
  destruct (proj1 (leb_place 0 b) Hb) as (_ & Nb & _).
  rewrite Na, Nb. cbn [orb].
  destruct (Leibniz.eqb b 0 && Leibniz.eqb a (-0)); [reflexivity|].
  destruct (a <? b); assumption.
Qed.

Lemma lFloor_of_settled b : settled b -> (0 <? lFloor_of_bounds b) = true.
Proof.
  intros (H1 & H2 & H3 & H4 & H5 & H6). unfold lFloor_of_bounds.
  pose proof (Math_max_not_negative _ _ (range_not_negative _ _ H1 H2 H3)
                                    (range_not_negative _ _ H4 H5 H6)) as H.
  cbv zeta.
  set (l := Math_max (maxX b - minX b) (maxY b - minY b)) in *.
  unfold strict_equal. destruct (l =? 0) eqn:E; [reflexivity|].
  apply leb_neq_ltb; assumption.
Qed.

(** When the floor has a node and every node has finite plane coordinates,
    the representative length [L_floor] that scales the deformation is
    positive, a single node or coincident nodes included. *)
Theorem lFloor_is_positive (floorData : FloorData) :
  nodes floorData <> [] -> finite_plan (nodes floorData) ->
  (0 <? _lFloor (constructor floorData)) = true.
Proof.
  intros Hne Hf. unfold constructor. cbn [_lFloor]. unfold computeFloorMetrics.
  cbn [fst]. apply lFloor_of_settled. unfold finite_plan in Hf.
  destruct (nodes floorData) as [|[k n] ns]; [contradiction Hne; reflexivity|].
  unfold JsMap.values in *. cbn [map snd fold_left] in *.
  inversion Hf as [|? ? [Hx Hy] Hf']. subst.
  apply fold_keeps_settled; [|exact Hf']. apply first_node_settles; assumption.
Qed.
End FloorExtent.

(** ** What the clamps store *)

Section Clamping.
Import JsNum Animation Order.
Local Open Scope float_scope.

(** Two numbers, neither below the other and one of them not zero, are the
    same float. *)
Lemma incomparable_same a b :
  (a <=? b) = true -> (a <? b) = false -> is_zero a && is_zero b = false -> a = b.
Proof.
  intros Hle Hlt Hz. destruct (proj1 (leb_place a b) Hle) as (Ha & Hb & Hc).
  assert (E : fplace a = fplace b).
  { apply place_compare_eq. destruct (place_compare (fplace a) (fplace b)) eqn:E.
    - reflexivity.
    - assert ((a <? b) = true) by (apply ltb_place; auto). congruence.
    - contradiction Hc. reflexivity. }
  apply fplace_num_equiv, num_equiv_cases in E. destruct E as [E|[E1 E2]]; [exact E|].
  rewrite E1, E2 in Hz. discriminate Hz.
Qed.

(** [Math.max(lo, Math.min(hi, s))] for bounds in order, the upper one not
    zero and the lower one not [-0]. *)
Lemma clamp_stores lo hi s :
  (lo <? hi) = true -> is_zero lo = false -> is_zero hi = false ->
  let v := Math_max lo (Math_min hi s) in
  (is_nan s = true -> is_nan v = true) /\
  ((s <? lo) = true -> v = lo) /\
  ((hi <? s) = true -> v = hi) /\
  ((lo <=? s) = true -> (s <=? hi) = true -> v = s).
Proof.
  intros Hlh Zlo Zhi v.
  destruct (proj1 (ltb_place lo hi) Hlh) as (Nlo & Nhi & _).
  assert (Ehi : Leibniz.eqb hi 0 = false).
  { destruct (Leibniz.eqb hi 0) eqn:E; [|reflexivity].
    apply Leibniz.eqb_spec in E. subst hi. discriminate Zhi. }
  assert (Elo : Leibniz.eqb lo (-0) = false).
  { destruct (Leibniz.eqb lo (-0)) eqn:E; [|reflexivity].
    apply Leibniz.eqb_spec in E. subst lo. discriminate Zlo. }
  assert (Hmin : is_nan s = false ->
                 Math_min hi s = if s <? hi then s else hi).
  { intros Ns. unfold Math_min. rewrite Nhi, Ns, Ehi, andb_false_r. reflexivity. }
  assert (Hmax : forall m, is_nan m = false ->
                           Math_max lo m = if lo <? m then m else lo).
  { intros m Nm. unfold Math_max. rewrite Nlo, Nm, Elo, andb_false_r. reflexivity. }
  split; [|split; [|split]].
  - intros Ns. unfold v, Math_min. rewrite Ns, orb_true_r.
    unfold Math_max. rewrite orb_true_r. reflexivity.
  - intros H. destruct (proj1 (ltb_place s lo) H) as (Ns & _ & _).
    unfold v. rewrite (Hmin Ns), (ltb_trans s lo hi H Hlh), (Hmax s Ns).
    destruct (lo <? s) eqn:E; [|reflexivity].
    pose proof (ltb_asym _ _ H). congruence.
  - intros H. destruct (proj1 (ltb_place hi s) H) as (_ & Ns & _).
    unfold v. rewrite (Hmin Ns).
    replace (s <? hi) with false by (symmetry; apply (ltb_asym _ _ H)).
    rewrite (Hmax hi Nhi), Hlh. reflexivity.
  - intros H1 H2. destruct (proj1 (leb_place lo s) H1) as (_ & Ns & _).
    unfold v. rewrite (Hmin Ns). destruct (s <? hi) eqn:E.
    + rewrite (Hmax s Ns). destruct (lo <? s) eqn:E'; [reflexivity|].
      apply incomparable_same; [exact H1|exact E'|]. rewrite Zlo. reflexivity.
    + rewrite (Hmax hi Nhi), Hlh. symmetry.
      apply incomparable_same; [exact H2|exact E|]. rewrite Zhi. apply andb_false_r.
Qed.

(** What [setScale] and [setSpeed] store: [NaN] for [NaN], the nearer bound
    for a number outside the range, and the number itself, unrounded, for
    one inside it. *)
Theorem clamps_store (s : float) (c : Controller) :
  (is_nan s = true ->
   is_nan (_scale (setScale s c)) = true /\ is_nan (_speed (setSpeed s c)) = true) /\
  ((s <? 0.5) = true -> _scale (setScale s c) = 0.5) /\
  ((3 <? s) = true -> _scale (setScale s c) = 3) /\
  ((0.5 <=? s) = true -> (s <=? 3) = true -> _scale (setScale s c) = s) /\
  ((s <? 0.2) = true -> _speed (setSpeed s c) = 0.2) /\
  ((2 <? s) = true -> _speed (setSpeed s c) = 2) /\
  ((0.2 <=? s) = true -> (s <=? 2) = true -> _speed (setSpeed s c) = s).
Proof.
  destruct (clamp_stores 0.5 3 s eq_refl eq_refl eq_refl) as (A1 & A2 & A3 & A4).
  destruct (clamp_stores 0.2 2 s eq_refl eq_refl eq_refl) as (B1 & B2 & B3 & B4).
  unfold setScale, setSpeed, with_playback. cbn [_scale _speed].
  repeat split; auto.
Qed.

(** The clamp of a number, as a choice among the bounds and the number. *)
Lemma clamp_value lo hi s :
  (lo <? hi) = true -> is_zero lo = false -> is_zero hi = false ->
  is_nan s = false ->
  Math_max lo (Math_min hi s) = if s <? lo then lo else if hi <? s then hi else s.
Proof.
  intros Hlh Zlo Zhi Ns.
  destruct (clamp_stores lo hi s Hlh Zlo Zhi) as (_ & H1 & H2 & H3).
  destruct (proj1 (ltb_place lo hi) Hlh) as (Nlo & Nhi & _).
  destruct (s <? lo) eqn:E1; [apply H1; reflexivity|].
  destruct (hi <? s) eqn:E2; [apply H2; reflexivity|].
  apply H3; apply not_ltb_leb; assumption.
Qed.

(** C7.  In every state reached from construction by calls with real
    arguments, [_scale] lies in [0.5, 3.0] and [_speed] in [0.2, 2.0].
    [setScale] stores its real argument clamped: [0.5] for an argument
    below [0.5], [3.0] for one above [3.0], and the argument itself for one
    in between; [setSpeed] does the same with [0.2] and [2.0]; neither
    touches the other field.  So [setScale(10)] stores [3.0] and
    [setSpeed(0)] stores [0.2]. *)
Theorem scale_and_speed_clamped :
  (forall c, reachable c ->
             in_range 0.5 3 (_scale c) = true /\
             in_range 0.2 2 (_speed c) = true) /\
  (forall s c, is_nan s = false ->
               _scale (setScale s c)
               = (if s <? 0.5 then 0.5 else if 3 <? s then 3 else s) /\
               _speed (setSpeed s c)
               = (if s <? 0.2 then 0.2 else if 2 <? s then 2 else s)) /\
  (forall s c, _speed (setScale s c) = _speed c /\ _scale (setSpeed s c) = _scale c) /\
  (forall c, _scale (setScale 10 c) = 3) /\
  (forall c, _speed (setSpeed 0 c) = 0.2).
Proof.
  split; [|split; [|split; [|split]]].
  - intros c H. induction H as [d | call c H [IH1 IH2] Hr].
    + split; reflexivity.
    + destruct call; cbn [after real_argument] in *; try (split; assumption).
      * unfold play. destruct (_currentMode c); split; assumption.
      * split; [|assumption]. apply setScale_in_range.
        destruct (is_nan s); [discriminate Hr|reflexivity].
      * split; [assumption|]. apply setSpeed_in_range.
        destruct (is_nan speed); [discriminate Hr|reflexivity].
      * unfold update. destruct (_playing c); split; assumption.
  - intros s c Ns. unfold setScale, setSpeed, with_playback. cbn [_scale _speed].
    split; apply clamp_value; try reflexivity; exact Ns.
  - intros s c. split; reflexivity.
  - intros c. reflexivity.
  - intros c. reflexivity.
Qed.
End Clamping.

(** ** Further statements at concrete inputs *)

Section FurtherInstances.
Import JsNum Parser Validator Animation Examples.
Import Expected Document Stage CamelCase SampleText Viewer Order.
Local Open Scope float_scope.

Lemma validate_reports_advisories_witness :
  validate (parsed (high_frequency_document 2))
  = mkReport (problems (input_of (parsed (high_frequency_document 2))))
             (advisories (input_of (parsed (high_frequency_document 2)))).
Proof.
  apply (validate_reports_advisories (input_of (parsed (high_frequency_document 2)))).
  vm_compute. lia.
Defined.

Lemma missing_key_stops_validation_witness :
  List.length (errors (validateFloorData (mkInput None (Some []) None (Some [])))) = 2%nat.
Proof.
  apply (missing_key_stops_validation (mkInput None (Some []) None (Some [])) eq_refl).
Defined.

Lemma parsed_nodes_last_wins_witness :
  JsMap.get (nodes (parsed duplicate_document)) 1 = Some (mkNode 1 5 0 0) /\
  JsMap.get (nodeIdCounts (parsed duplicate_document)) 1 = Some 2.
Proof.
  destruct (parsed_nodes_last_wins Number_basic duplicate_document
                                   (parsed duplicate_document) 1 eq_refl)
    as (H1 & H2 & _).
  split; [rewrite H1|rewrite H2]; reflexivity.
Defined.

Lemma parsed_lines_keep_order_witness :
  nth_error (lines (parsed sample_document)) 2 = Some (mkLine 3 3 4).
Proof.
  apply (proj2 (proj2 (parsed_lines_keep_order Number_basic sample_document
                                               (parsed sample_document) eq_refl))
               2%nat (line_entry 3 3 4)).
  reflexivity.
Defined.

Lemma parsed_sections_never_missing_witness :
  hd_error (errors (validate (parsed (JObj []))))
  = Some (entry E_NODES_EMPTY [Text "nodes is empty"]).
Proof.
  apply (parsed_sections_never_missing Number_basic (JObj []) (parsed (JObj [])) eq_refl).
  reflexivity.
Defined.

Lemma sample_modes_distinct :
  JsMap.distinct_keys (JsMap.keys (modes (parsed sample_document))).
Proof.
  cbn. repeat split; intros k' Hin;
    repeat (destruct Hin as [<- | Hin]; [reflexivity|]); destruct Hin.
Defined.

Lemma umax_defined_and_positive_witness :
  JsMap.get (_umaxMap (play sample_controller)) 2 = Some 1.
Proof.
  destruct (umax_defined_and_positive
              sin_cubic (parsed sample_document) [CallPlay] 2
              [(1, 1); (2, 0.2); (3, -0.9); (4, -0.1)]
              sample_modes_distinct eq_refl) as [H _].
  exact H.
Defined.

Lemma stopped_frame_survives_updates_witness :
  let c := update 0.25 (play sample_controller) in
  let calls := [CallUpdate 0.016; CallGetDisplacedZ 3; CallSetSpeed 2;
                CallUpdate 0.016; CallGetDisplacedZ 3] in
  nth_error (fst (invoke_all sin_cubic calls (stop c))) 4
  = Some (VNumber (getDisplacedZ sin_cubic 3 c)).
Proof.
  intros c calls.
  apply (proj1 (stopped_frame_survives_updates sin_cubic c calls eq_refl) 4%nat 3).
  reflexivity.
Defined.

Lemma zero_amplitude_node_stays_witness :
  let c := snd (invoke_all sin_cubic [CallPlay; CallUpdate 0.25]
                           (constructor (parsed sample_document))) in
  getTime c = 0.25 /\
  same_value_zero (getDisplacedZ sin_cubic 1 c) (node_z (mkNode 1 0 0 0)) = true.
Proof.
  split; [vm_compute; reflexivity|].
  apply (zero_amplitude_node_stays
           sin_cubic (parsed sample_document) [CallPlay; CallUpdate 0.25] 1 1
           (mkNode 1 0 0 0) [(1, 0); (2, 0.4); (3, 1); (4, 0.5)]
           sample_modes_distinct);
    vm_compute; reflexivity.
Defined.

Lemma sample_camel_cased : camel_cased sample_document.
Proof.
  cbn. repeat split; try (intros H; discriminate H); repeat constructor;
    cbn; repeat split; try (intros H; discriminate H); try lia.
Defined.

Lemma camel_cased_document_read_as_is_witness :
  convertKeysToCamelCase sample_document = sample_document /\
  CamelCase.parseFloorData (parse_of sample_text sample_document)
                           (Throws.always Number_basic) sample_text
  = inr (parsed sample_document).
Proof.
  destruct (camel_cased_document_read_as_is
              (parse_of sample_text sample_document) (Throws.always Number_basic)
              sample_text sample_document eq_refl sample_camel_cased) as [H1 H2].
  split; [exact H1|]. rewrite H2. vm_compute. reflexivity.
Defined.

Lemma accepted_lines_are_all_drawn_witness :
  nth_error (deformedVertexMap (nodes (parsed sample_document))
                               (lines (parsed sample_document))) 3
  = Some (mkSegment 4 1 3).
Proof.
  apply (proj2 (accepted_lines_are_all_drawn (parsed sample_document) eq_refl)
               3%nat (mkLine 4 4 1) eq_refl).
Defined.

Lemma accepted_modes_have_frequencies_witness :
  exists f, getFreqHz (Some 2) sample_controller = f /\ (0 <? f) = true.
Proof.
  destruct (accepted_modes_have_frequencies
              (parsed sample_document) 2 eq_refl (or_intror (or_introl eq_refl)))
    as (modeShape & f & _ & _ & H & _ & Hpos).
  exists f. split; assumption.
Defined.

Lemma sample_modes_numbers : numbers (JsMap.keys (modes (parsed sample_document))).
Proof. cbn. repeat constructor. Defined.

Lemma mode_list_is_ascending_witness :
  ascending (getModeList sample_controller) /\
  forall m, In m (JsMap.keys (modes (parsed sample_document))) -> (1 <=? m) = true.
Proof.
  destruct (mode_list_is_ascending (parsed sample_document)
                                   sample_modes_numbers sample_modes_distinct)
    as [H1 H2].
  split; [exact H1|]. intros m. apply (H2 1 m). reflexivity.
Defined.

Lemma lFloor_is_positive_witness : (0 <? _lFloor sample_controller) = true.
Proof.
  apply (lFloor_is_positive (parsed sample_document)).
  - cbn. discriminate.
  - cbn. repeat constructor.
Defined.

Lemma clamps_store_witness :
  _scale (setScale 10 sample_controller) = 3 /\
  _speed (setSpeed 0.25 sample_controller) = 0.25.
Proof.
  destruct (clamps_store 10 sample_controller) as (_ & _ & H & _).
  destruct (clamps_store 0.25 sample_controller) as (_ & _ & _ & _ & _ & _ & G).
  split; [apply H|apply G]; reflexivity.
Defined.

Lemma scale_and_speed_clamped_witness :
  in_range 0.5 3 (_scale (after (CallSetSpeed 0)
                                (after (CallSetScale 10) sample_controller))) = true /\
  _scale (setScale 1.5 sample_controller) = 1.5 /\
  _speed (setSpeed 0 sample_controller) = 0.2.
Proof.
  destruct scale_and_speed_clamped as (H1 & H2 & _ & _ & H5).
  split; [|split].
  - apply H1. apply reachable_call; [|reflexivity].
    apply reachable_call; [|reflexivity]. apply reachable_new.
  - rewrite (proj1 (H2 1.5 sample_controller eq_refl)). reflexivity.
  - apply H5.
Defined.
End FurtherInstances.
